(** * Google Maps scraper: the extraction and discovery pipeline of [main.py]

    A shallow embedding of the helper functions, of [extract_place] and of
    [scrape_places_streamlit], followed by the properties of the
    specification that concern them.

    Conventions.
    - A Python [str] is a list of Unicode code points ([N]).
    - The browser, the HTTP client and the Stop button are not programs of
      this repository: every answer they give to a call of the source is an
      input of the model (a record of answers, or a function of the round
      at which the call happens).  An answer is either a value or an
      exception ([res]).
    - Regular expressions are kept as syntax trees and run by a
      backtracking matcher with the semantics of Python's [re] (ordered
      alternation, greedy repetition). *)

From Stdlib Require Import String Ascii.
From Stdlib Require Import List Bool Arith NArith ZArith QArith Lia.
Import ListNotations.

Local Open Scope nat_scope.
Local Open Scope list_scope.

(** ** Python strings *)

Definition char := N.
Definition str := list char.

(** An ASCII literal of the source as a [str]. *)
Definition lit (s : string) : str :=
  map N_of_ascii (list_ascii_of_string s).

Fixpoint str_eqb (a b : str) : bool :=
  match a, b with
  | [], [] => true
  | x :: a', y :: b' => N.eqb x y && str_eqb a' b'
  | _, _ => false
  end.

(** Truthiness of a string: [if s:] holds when [s] is not empty. *)
Definition truthy (s : str) : bool :=
  match s with [] => false | _ :: _ => true end.

(** [s or d] *)
Definition or_else (s d : str) : str := if truthy s then s else d.

(** [x or ''] for an optional string ([None] is falsy). *)
Definition or_empty (o : option str) : str :=
  match o with Some s => s | None => [] end.

Fixpoint strip_prefix (p s : str) : option str :=
  match p with
  | [] => Some s
  | c :: p' =>
      match s with
      | d :: s' => if N.eqb c d then strip_prefix p' s' else None
      | [] => None
      end
  end.

Definition startswith (s p : str) : bool :=
  match strip_prefix p s with Some _ => true | None => false end.

(** [sub in s] *)
Fixpoint contains (sub s : str) : bool :=
  startswith s sub ||
  match s with
  | [] => false
  | _ :: s' => contains sub s'
  end.

Fixpoint drop_while (p : char -> bool) (s : str) : str :=
  match s with
  | [] => []
  | c :: s' => if p c then drop_while p s' else s
  end.

Definition lstrip_with (p : char -> bool) (s : str) : str := drop_while p s.
Definition rstrip_with (p : char -> bool) (s : str) : str :=
  rev (drop_while p (rev s)).
Definition strip_with (p : char -> bool) (s : str) : str :=
  rstrip_with p (lstrip_with p s).

(** The code points for which [str.isspace] holds; [str.strip()] and the
    regular expression class [\s] use the same set. *)
Definition is_space (c : char) : bool :=
  ((9 <=? c) && (c <=? 13) || (28 <=? c) && (c <=? 32) ||
   (c =? 133) || (c =? 160) || (c =? 5760) ||
   (8192 <=? c) && (c <=? 8202) || (c =? 8232) || (c =? 8233) ||
   (c =? 8239) || (c =? 8287) || (c =? 12288))%N.

Definition in_chars (cs : str) (c : char) : bool := existsb (N.eqb c) cs.

(** [s.strip()], [s.strip(cs)] and [s.lstrip(cs)] *)
Definition strip (s : str) : str := strip_with is_space s.
Definition strip_chars (cs s : str) : str := strip_with (in_chars cs) s.
Definition lstrip_chars (cs s : str) : str := lstrip_with (in_chars cs) s.

(** [s.split(sep)] for a one-character separator. *)
Fixpoint split_on (sep : char) (s : str) : list str :=
  match s with
  | [] => [[]]
  | c :: s' =>
      if N.eqb c sep then [] :: split_on sep s'
      else match split_on sep s' with
           | h :: t => (c :: h) :: t
           | [] => [[c]]
           end
  end.

(** [s.replace(c, '')] for a one-character [c]. *)
Definition remove_char (c : char) (s : str) : str :=
  filter (fun d => negb (N.eqb d c)) s.

(** ASCII character classes. *)
Definition between (lo hi c : N) : bool := ((lo <=? c) && (c <=? hi))%N.
Definition is_digit (c : char) : bool := between 48 57 c.
Definition is_upper (c : char) : bool := between 65 90 c.
Definition is_lower (c : char) : bool := between 97 122 c.
Definition is_alpha (c : char) : bool := is_upper c || is_lower c.
Definition is_alnum (c : char) : bool := is_alpha c || is_digit c.
Definition is_word (c : char) : bool := is_alnum c || (c =? 95)%N.

Definition ch (a : ascii) : char := N_of_ascii a.

(** ** Regular expressions *)

Inductive regex : Type :=
| Lit (s : str)                                   (* a literal text        *)
| Cls (p : char -> bool)                          (* one character of a class *)
| Rep (p : char -> bool) (lo : nat) (hi : option nat)
                                                  (* [..]{lo,hi}, greedy   *)
| Opt (r : regex)                                 (* (?:r)?                *)
| Cat (r1 r2 : regex)
| Alt (r1 r2 : regex)                             (* r1|r2, r1 first       *)
| Grp (r : regex)                                 (* (r), capturing        *)
| Wb                                              (* \b                    *)
| Bol                                             (* ^                     *)
| Eol.                                            (* $                     *)

(** The matcher's state: the text before the cursor (reversed), the text
    after it and the groups closed so far. *)
Record mstate : Type := MState {
  seen : str;
  rest : str;
  caps : list str
}.

Section Matcher.
Context {A : Type}.

(** Greedy repetition of a class: take one more character when allowed,
    and fall back to stopping here when the continuation fails. *)
Fixpoint many (p : char -> bool) (lo : nat) (hi : option nat)
         (sn rs : str) (k : str -> str -> option A) {struct rs} : option A :=
  let stop := match lo with O => k sn rs | S _ => None end in
  match rs with
  | c :: rs' =>
      if p c && match hi with Some O => false | _ => true end
      then match many p (pred lo) (option_map pred hi) (c :: sn) rs' k with
           | Some x => Some x
           | None => stop
           end
      else stop
  | [] => stop
  end.

Fixpoint run (r : regex) (st : mstate) (k : mstate -> option A)
  {struct r} : option A :=
  match r with
  | Lit s =>
      match strip_prefix s (rest st) with
      | Some rs => k (MState (rev s ++ seen st) rs (caps st))
      | None => None
      end
  | Cls p =>
      match rest st with
      | c :: rs => if p c then k (MState (c :: seen st) rs (caps st)) else None
      | [] => None
      end
  | Rep p lo hi =>
      many p lo hi (seen st) (rest st)
           (fun sn rs => k (MState sn rs (caps st)))
  | Opt r1 =>
      match run r1 st k with
      | Some x => Some x
      | None => k st
      end
  | Cat r1 r2 => run r1 st (fun st' => run r2 st' k)
  | Alt r1 r2 =>
      match run r1 st k with
      | Some x => Some x
      | None => run r2 st k
      end
  | Grp r1 =>
      run r1 st
          (fun st' =>
             let n := length (rest st) - length (rest st') in
             k (MState (seen st') (rest st')
                       (caps st' ++ [firstn n (rest st)])))
  | Wb =>
      let before := match seen st with c :: _ => is_word c | [] => false end in
      let after := match rest st with c :: _ => is_word c | [] => false end in
      if xorb before after then k st else None
  | Bol => match seen st with [] => k st | _ :: _ => None end
  | Eol =>
      match rest st with
      | [] => k st
      | [c] => if (c =? 10)%N then k st else None
      | _ => None
      end
  end.
End Matcher.

(** A match: where it starts, the text of group 0 and the groups. *)
Record rmatch : Type := RMatch {
  m_start : nat;
  m_text : str;
  m_groups : list str
}.

(** [m.group(i)] for [i >= 1]. *)
Definition group (m : rmatch) (i : nat) : str := nth (i - 1) (m_groups m) [].

(** A match of [r] that starts at the cursor. *)
Definition match_here (r : regex) (sn rs : str) : option rmatch :=
  run r (MState sn rs [])
      (fun st' => Some (RMatch (length sn)
                               (firstn (length rs - length (rest st')) rs)
                               (caps st'))).

Fixpoint search_from (r : regex) (sn rs : str) : option rmatch :=
  match match_here r sn rs with
  | Some m => Some m
  | None =>
      match rs with
      | [] => None
      | c :: rs' => search_from r (c :: sn) rs'
      end
  end.

(** [re.search(r, s)]: the leftmost match. *)
Definition re_search (r : regex) (s : str) : option rmatch := search_from r [] s.

(** [re.sub(r, repl, s)] for a pattern that matches no empty text: the
    non-overlapping matches, leftmost first, are replaced by [repl].
    [skip] counts the characters of the current match still to be
    passed. *)
Fixpoint sub_from (r : regex) (repl : str) (skip : nat) (sn rs : str) : str :=
  match rs with
  | [] => []
  | c :: rs' =>
      match skip with
      | S n => sub_from r repl n (c :: sn) rs'
      | O =>
          match match_here r sn rs with
          | Some m =>
              match length (m_text m) with
              | S n => repl ++ sub_from r repl n (c :: sn) rs'
              | O => c :: sub_from r repl O (c :: sn) rs'
              end
          | None => c :: sub_from r repl O (c :: sn) rs'
          end
      end
  end.

Definition re_sub (r : regex) (repl s : str) : str := sub_from r repl 0 [] s.

(** [re.split(r, s)] for a pattern without groups that matches no empty
    text.  [cur] is the part being read, reversed. *)
Fixpoint split_from (r : regex) (skip : nat) (cur sn rs : str) : list str :=
  match rs with
  | [] => [rev cur]
  | c :: rs' =>
      match skip with
      | S n => split_from r n cur (c :: sn) rs'
      | O =>
          match match_here r sn rs with
          | Some m =>
              match length (m_text m) with
              | S n => rev cur :: split_from r n [] (c :: sn) rs'
              | O => split_from r O (c :: cur) (c :: sn) rs'
              end
          | None => split_from r O (c :: cur) (c :: sn) rs'
          end
      end
  end.

Definition re_split (r : regex) (s : str) : list str := split_from r 0 [] [] s.

(** ** Helper functions of the source *)

(** The class [[^a-zA-Z0-9_\\-]] of [sanitize_filename].  The pattern is a
    raw string, so the two backslashes are an escaped backslash and the
    hyphen after them is a literal hyphen: the characters kept are the
    ASCII letters and digits, [_], the backslash and [-]. *)
Definition filename_kept (c : char) : bool :=
  is_lower c || is_upper c || is_digit c ||
  (c =? 95)%N || (c =? 92)%N || (c =? 45)%N.

Definition filename_unsafe_run : regex :=
  Rep (fun c => negb (filename_kept c)) 1 None.

Definition sanitize_filename (name : str) : str :=
  let safe := strip_chars (lit "_") (re_sub filename_unsafe_run (lit "_") name) in
  or_else safe (lit "results").


(** [parse_address_parts].  After the non-ASCII characters are removed the
    text is ASCII, where [\d] is [0-9], [[A-Z]] under IGNORECASE is a
    letter of either case and [\w] (for [\b]) is [is_word]. *)
Definition non_ascii_run : regex := Rep (fun c => (127 <? c)%N) 1 None.

(** [\b([A-Z]{1,2}\d[A-Z0-9]?\s?\d[A-Z]{2}|\d{4,6})\b], IGNORECASE *)
Definition postal_code : regex :=
  Cat Wb
   (Cat (Grp (Alt (Cat (Rep is_alpha 1 (Some 2))
                   (Cat (Cls is_digit)
                   (Cat (Opt (Cls is_alnum))
                   (Cat (Opt (Cls is_space))
                   (Cat (Cls is_digit)
                        (Rep is_alpha 2 (Some 2)))))))
                  (Rep is_digit 4 (Some 6))))
        Wb).

(** [re.search(r'\d', s)] as a test *)
Definition has_digit (s : str) : bool :=
  match re_search (Cls is_digit) s with Some _ => true | None => false end.

(** [[p.strip() for p in cleaned.split(',') if p.strip()]] *)
Definition address_parts (address : str) : list str :=
  let cleaned := strip (re_sub non_ascii_run [] address) in
  map strip (filter (fun p => truthy (strip p)) (split_on (ch ",") cleaned)).

Definition dash : str := lit "-".

Definition parse_address_parts (address : str) : str * str * str :=
  let parts := address_parts address in
  match parts with
  | [] => (dash, dash, dash)
  | _ :: _ =>
      let n := length parts in
      let last_part := nth (n - 1) parts [] in
      let '(country, target) :=
        if (2 <=? n) && negb (has_digit last_part)
        then (last_part, nth (n - 2) parts [])
        else (dash, last_part) in
      let '(city, zip_code) :=
        match re_search postal_code target with
        | Some m =>
            let zip_code := strip (group m 1) in
            (strip (strip_chars (lit ", ") (re_sub (Lit zip_code) [] target)),
             zip_code)
        | None => (strip target, dash)
        end in
      (or_else city dash, or_else zip_code dash, or_else country dash)
  end.

(** ** The record of a listing *)

(** The dataclass [Place].  A float is kept as the rational that its
    decimal text denotes (Python rounds it to a binary64). *)
Record Place : Type := MkPlace {
  s_no : nat;
  name : str;
  address : str;
  website : str;
  phone_number : str;
  reviews_count : option N;
  reviews_average : option Q;
  category : str;
  latitude : Q;
  longitude : Q;
  city : str;
  zip_code : str;
  country : str;
  monday_hours : str;
  tuesday_hours : str;
  wednesday_hours : str;
  thursday_hours : str;
  friday_hours : str;
  saturday_hours : str;
  sunday_hours : str;
  instagram_url : str;
  facebook_url : str;
  linkedin_url : str;
  x_url : str;
  listing_url : str;
  source : str
}.

(** [Place()] *)
Definition new_place : Place :=
  MkPlace 0 [] [] [] [] None None [] 0%Q 0%Q [] [] []
          [] [] [] [] [] [] [] [] [] [] [] [] [].

(** The string-valued attributes, in the order of the dataclass; they are
    what [setattr(place, fld, v)] and [asdict(place).items()] range over. *)
Inductive StrField : Type :=
| F_name
| F_address
| F_website
| F_phone_number
| F_category
| F_city
| F_zip_code
| F_country
| F_monday_hours
| F_tuesday_hours
| F_wednesday_hours
| F_thursday_hours
| F_friday_hours
| F_saturday_hours
| F_sunday_hours
| F_instagram_url
| F_facebook_url
| F_linkedin_url
| F_x_url
| F_listing_url
| F_source.

Definition str_fields : list StrField :=
  [F_name;
   F_address;
   F_website;
   F_phone_number;
   F_category;
   F_city;
   F_zip_code;
   F_country;
   F_monday_hours;
   F_tuesday_hours;
   F_wednesday_hours;
   F_thursday_hours;
   F_friday_hours;
   F_saturday_hours;
   F_sunday_hours;
   F_instagram_url;
   F_facebook_url;
   F_linkedin_url;
   F_x_url;
   F_listing_url;
   F_source].

Definition field_index (f : StrField) : nat :=
  match f with
  | F_name => 0
  | F_address => 1
  | F_website => 2
  | F_phone_number => 3
  | F_category => 4
  | F_city => 5
  | F_zip_code => 6
  | F_country => 7
  | F_monday_hours => 8
  | F_tuesday_hours => 9
  | F_wednesday_hours => 10
  | F_thursday_hours => 11
  | F_friday_hours => 12
  | F_saturday_hours => 13
  | F_sunday_hours => 14
  | F_instagram_url => 15
  | F_facebook_url => 16
  | F_linkedin_url => 17
  | F_x_url => 18
  | F_listing_url => 19
  | F_source => 20
  end.

Definition field_eqb (f g : StrField) : bool :=
  Nat.eqb (field_index f) (field_index g).

Definition get_str (f : StrField) (p : Place) : str :=
  match f with
  | F_name => name p
  | F_address => address p
  | F_website => website p
  | F_phone_number => phone_number p
  | F_category => category p
  | F_city => city p
  | F_zip_code => zip_code p
  | F_country => country p
  | F_monday_hours => monday_hours p
  | F_tuesday_hours => tuesday_hours p
  | F_wednesday_hours => wednesday_hours p
  | F_thursday_hours => thursday_hours p
  | F_friday_hours => friday_hours p
  | F_saturday_hours => saturday_hours p
  | F_sunday_hours => sunday_hours p
  | F_instagram_url => instagram_url p
  | F_facebook_url => facebook_url p
  | F_linkedin_url => linkedin_url p
  | F_x_url => x_url p
  | F_listing_url => listing_url p
  | F_source => source p
  end.

(** [setattr(place, f, v)] *)
Definition set_str (f : StrField) (v : str) (p : Place) : Place :=
  let g := fun f' => if field_eqb f f' then v else get_str f' p in
  MkPlace (s_no p) (g F_name) (g F_address) (g F_website)
    (g F_phone_number) (reviews_count p) (reviews_average p) (g F_category)
    (latitude p) (longitude p) (g F_city) (g F_zip_code)
    (g F_country) (g F_monday_hours) (g F_tuesday_hours) (g F_wednesday_hours)
    (g F_thursday_hours) (g F_friday_hours) (g F_saturday_hours) (g F_sunday_hours)
    (g F_instagram_url) (g F_facebook_url) (g F_linkedin_url) (g F_x_url)
    (g F_listing_url) (g F_source).

Definition set_s_no (v : nat) (p : Place) : Place :=
  MkPlace v (name p) (address p) (website p)
    (phone_number p) (reviews_count p) (reviews_average p) (category p)
    (latitude p) (longitude p) (city p) (zip_code p)
    (country p) (monday_hours p) (tuesday_hours p) (wednesday_hours p)
    (thursday_hours p) (friday_hours p) (saturday_hours p) (sunday_hours p)
    (instagram_url p) (facebook_url p) (linkedin_url p) (x_url p)
    (listing_url p) (source p).

Definition set_reviews_count (v : option N) (p : Place) : Place :=
  MkPlace (s_no p) (name p) (address p) (website p)
    (phone_number p) v (reviews_average p) (category p)
    (latitude p) (longitude p) (city p) (zip_code p)
    (country p) (monday_hours p) (tuesday_hours p) (wednesday_hours p)
    (thursday_hours p) (friday_hours p) (saturday_hours p) (sunday_hours p)
    (instagram_url p) (facebook_url p) (linkedin_url p) (x_url p)
    (listing_url p) (source p).

Definition set_reviews_average (v : option Q) (p : Place) : Place :=
  MkPlace (s_no p) (name p) (address p) (website p)
    (phone_number p) (reviews_count p) v (category p)
    (latitude p) (longitude p) (city p) (zip_code p)
    (country p) (monday_hours p) (tuesday_hours p) (wednesday_hours p)
    (thursday_hours p) (friday_hours p) (saturday_hours p) (sunday_hours p)
    (instagram_url p) (facebook_url p) (linkedin_url p) (x_url p)
    (listing_url p) (source p).

Definition set_latitude (v : Q) (p : Place) : Place :=
  MkPlace (s_no p) (name p) (address p) (website p)
    (phone_number p) (reviews_count p) (reviews_average p) (category p)
    v (longitude p) (city p) (zip_code p)
    (country p) (monday_hours p) (tuesday_hours p) (wednesday_hours p)
    (thursday_hours p) (friday_hours p) (saturday_hours p) (sunday_hours p)
    (instagram_url p) (facebook_url p) (linkedin_url p) (x_url p)
    (listing_url p) (source p).

Definition set_longitude (v : Q) (p : Place) : Place :=
  MkPlace (s_no p) (name p) (address p) (website p)
    (phone_number p) (reviews_count p) (reviews_average p) (category p)
    (latitude p) v (city p) (zip_code p)
    (country p) (monday_hours p) (tuesday_hours p) (wednesday_hours p)
    (thursday_hours p) (friday_hours p) (saturday_hours p) (sunday_hours p)
    (instagram_url p) (facebook_url p) (linkedin_url p) (x_url p)
    (listing_url p) (source p).

(** ** Exceptions and the mutable record *)

(** The outcome of a call that may raise. *)
Inductive res (A : Type) : Type :=
| Ok (a : A)
| Raise.
Arguments Ok {A} a.
Arguments Raise {A}.

Definition res_bind {A B : Type} (m : res A) (k : A -> res B) : res B :=
  match m with
  | Ok a => k a
  | Raise => Raise
  end.

(** [try: body / except: handler] for code that touches no record. *)
Definition res_try {A : Type} (body handler : res A) : res A :=
  match body with
  | Ok a => Ok a
  | Raise => handler
  end.

(** Code that mutates the [Place] under construction and may raise.  The
    record is returned in both cases: an assignment made before an
    exception stays made. *)
Definition M (A : Type) : Type := Place -> res A * Place.

Definition ret {A : Type} (a : A) : M A := fun p => (Ok a, p).

Definition bind {A B : Type} (m : M A) (k : A -> M B) : M B :=
  fun p =>
    match m p with
    | (Ok a, p') => k a p'
    | (Raise, p') => (Raise, p')
    end.

Definition lift {A : Type} (r : res A) : M A := fun p => (r, p).

Definition modify (f : Place -> Place) : M unit := fun p => (Ok tt, f p).

Definition get_place : M Place := fun p => (Ok p, p).

(** [try: body / except: handler]: the handler runs on the record as the
    exception left it. *)
Definition try_except {A : Type} (body handler : M A) : M A :=
  fun p =>
    match body p with
    | (Ok a, p') => (Ok a, p')
    | (Raise, p') => handler p'
    end.

Declare Scope py_scope.
Delimit Scope py_scope with py.
Notation "x <- m ;; k" := (bind m (fun x => k))
  (at level 61, m at next level, right associativity) : py_scope.
Notation "m ;; k" := (bind m (fun _ => k))
  (at level 61, right associativity) : py_scope.
Notation "x <~ m ;; k" := (res_bind m (fun x => k))
  (at level 61, m at next level, right associativity) : py_scope.
Local Open Scope py_scope.

(** [for x in xs: body(x)] *)
Fixpoint for_each {X : Type} (xs : list X) (body : X -> M unit) : M unit :=
  match xs with
  | [] => ret tt
  | x :: xs' => body x ;; for_each xs' body
  end.

(** ** Text to numbers *)

Definition digit_value (c : char) : N := (c - 48)%N.

Definition digits_value (s : str) : N :=
  fold_left (fun acc c => (10 * acc + digit_value c)%N) s 0%N.

Fixpoint take_while (p : char -> bool) (s : str) : str :=
  match s with
  | [] => []
  | c :: s' => if p c then c :: take_while p s' else []
  end.

(** [float(s)] for a text over the digits, the dot and the minus sign, which
    is what every call of the source passes (a group of a pattern over
    these characters): an optional minus, then digits with at most one dot
    and at least one digit.  Anything else raises [ValueError]. *)
Definition py_float (s : str) : res Q :=
  let '(neg, body) :=
    match s with
    | c :: t => if (c =? 45)%N then (true, t) else (false, s)
    | [] => (false, [])
    end in
  let ip := take_while is_digit body in
  let signed (m : N) : Z := if neg then (- Z.of_N m)%Z else Z.of_N m in
  match drop_while is_digit body with
  | [] => if truthy ip then Ok (inject_Z (signed (digits_value ip))) else Raise
  | c :: fp =>
      if (c =? 46)%N && forallb is_digit fp && (truthy ip || truthy fp)
      then Ok (Qred (Qmake (signed (digits_value (ip ++ fp)))
                           (Z.to_pos (10 ^ Z.of_nat (length fp)))))
      else Raise
  end.

(** The most digits that [int] reads (the default of
    [sys.int_max_str_digits], CPython 3.11 and later). *)
Definition int_max_str_digits : nat := 4300.

(** [int(s)] for a text of digits (what is left of a group over digits and
    commas once the commas are removed); the empty text raises, and so
    does a text of more than [int_max_str_digits] digits, leading zeros
    counted. *)
Definition py_int (s : str) : res N :=
  if truthy s && forallb is_digit s && (length s <=? int_max_str_digits)
  then Ok (digits_value s) else Raise.

(** ** What the browser and the HTTP client answer *)

(** [page.locator(xpath)] read by [extract_text]: the answers to [count()]
    and to [inner_text()]. *)
Record TextProbe : Type := {
  tp_count : res nat;
  tp_inner_text : res (option str)
}.

(** A locator whose first element is asked for an attribute. *)
Record AttrProbe : Type := {
  ap_count : res nat;
  ap_get_attribute : res (option str)
}.

(** A locator whose first element is clicked. *)
Record ClickProbe : Type := {
  cp_count : res nat;
  cp_click : res unit
}.

(** The rows of an hours table: [count()] as asked by [range], and the text
    of the first and second cell of row [i]. *)
Record RowsProbe : Type := {
  rows_count : res nat;
  row_day_text : nat -> res (option str);
  row_times_text : nat -> res (option str)
}.

Record HoursProbe : Type := {
  oh_button : ClickProbe;
  table_rows_check : res nat;      (* rows.count() in the test == 0 *)
  table_rows : RowsProbe;          (* //table//tr *)
  fallback_rows : RowsProbe        (* //div[contains(@class,"G8aQO")]//tr *)
}.

(** A loaded listing page, as [extract_place] sees it. *)
Record ListingView : Type := {
  name_probe : TextProbe;
  address_probe : TextProbe;
  phone_probe : TextProbe;
  category_probe : TextProbe;
  rating_probe : AttrProbe;
  review_probe : AttrProbe;
  authority_probe : AttrProbe;
  hours_probe : HoursProbe
}.

(** [requests.get(url, ...)]: an exception, or a status code and a body. *)
Definition Http : Type := str -> res (nat * str).

(** ** Extraction *)

Definition extract_text (q : TextProbe) : res str :=
  res_try
    (n <~ tp_count q ;;
     if 0 <? n
     then t <~ tp_inner_text q ;; Ok (strip (or_empty t))
     else Ok [])
    (Ok []).

Definition try_click (q : ClickProbe) : res bool :=
  res_try
    (n <~ cp_count q ;;
     if 0 <? n
     then _ <~ cp_click q ;; Ok true
     else Ok false)
    (Ok false).

Inductive Day : Type := Mon | Tue | Wed | Thu | Fri | Sat | Sun.

(** [day_map], in the order of its keys. *)
Definition day_keys : list Day := [Mon; Tue; Wed; Thu; Fri; Sat; Sun].

Definition day_key (d : Day) : str :=
  match d with
  | Mon => lit "mon" | Tue => lit "tue" | Wed => lit "wed" | Thu => lit "thu"
  | Fri => lit "fri" | Sat => lit "sat" | Sun => lit "sun"
  end.

Definition day_field (d : Day) : StrField :=
  match d with
  | Mon => F_monday_hours | Tue => F_tuesday_hours | Wed => F_wednesday_hours
  | Thu => F_thursday_hours | Fri => F_friday_hours | Sat => F_saturday_hours
  | Sun => F_sunday_hours
  end.

(** The separators of an hours text: an en dash, a hyphen or [to]. *)
Definition en_dash : str := [8211%N].
Definition hours_separator : regex :=
  Alt (Lit en_dash) (Alt (Lit (lit "-")) (Lit (lit "to"))).

(** The social patterns; the class is [[A-Za-z0-9_.\-/%?=]]. *)
Definition link_char (c : char) : bool :=
  is_alnum c || in_chars (lit "_.-/%?=") c.

Definition social_pattern (host : str) : regex :=
  Cat (Lit (lit "https://"))
   (Cat (Opt (Lit (lit "www.")))
   (Cat (Lit host) (Rep link_char 1 None))).

Definition instagram_pattern : regex := social_pattern (lit "instagram.com/").
Definition facebook_pattern : regex := social_pattern (lit "facebook.com/").
Definition linkedin_pattern : regex := social_pattern (lit "linkedin.com/").
Definition x_pattern : regex :=
  Cat (Lit (lit "https://"))
   (Cat (Alt (Lit (lit "twitter")) (Lit (lit "x")))
   (Cat (Lit (lit ".com/")) (Rep link_char 1 None))).

(** The coordinate patterns [@([0-9\.-]+),([0-9\.-]+)] and
    [!3d([-0-9\.]+)!4d([-0-9\.]+)]. *)
Definition coord_char (c : char) : bool :=
  is_digit c || (c =? 46)%N || (c =? 45)%N.

Definition at_pattern : regex :=
  Cat (Lit (lit "@"))
   (Cat (Grp (Rep coord_char 1 None))
   (Cat (Lit (lit ",")) (Grp (Rep coord_char 1 None)))).

Definition data_pattern : regex :=
  Cat (Lit (lit "!3d"))
   (Cat (Grp (Rep coord_char 1 None))
   (Cat (Lit (lit "!4d")) (Grp (Rep coord_char 1 None)))).

Definition number_run : regex :=
  Rep (fun c => is_digit c || (c =? 46)%N) 1 None.      (* [0-9.]+ *)
Definition count_run : regex :=
  Rep (fun c => is_digit c || (c =? 44)%N) 1 None.      (* [0-9,]+ *)

Section Extraction.

(** [str.lower] is left open: the properties below hold whatever it
    does to a text.  [ascii_lower], after the section, is the instance
    used on concrete inputs. *)
Variable lower : str -> str.

(** The text stored for one row of the hours table (the body of the
    loop of [parse_weekly_hours] once the day is known). *)
Definition hours_text (times_text : str) : str :=
  let lt := lower times_text in
  if contains (lit "24") lt && contains (lit "hour") lt then lit "Open 24 hours"
  else if contains (lit "closed") lt then lit "Closed"
  else
    let parts := re_split hours_separator times_text in
    let open_time := match parts with p0 :: _ => strip p0 | [] => [] end in
    let close_time := match parts with _ :: p1 :: _ => strip p1 | _ => [] end in
    if truthy open_time && truthy close_time
    then open_time ++ lit " to " ++ close_time
    else or_else open_time dash.

(** One iteration of the loop over the rows; an exception in it is
    caught by the loop ([except Exception: continue]). *)
Definition hours_row (rows : RowsProbe) (i : nat) : M unit :=
  try_except
    (d <- lift (row_day_text rows i) ;;
     let day_text := lower (strip (or_empty d)) in
     t <- lift (row_times_text rows i) ;;
     let times_text := strip (or_empty t) in
     match find (fun d => contains (day_key d) day_text) day_keys with
     | None => ret tt
     | Some key => modify (set_str (day_field key) (hours_text times_text))
     end)
    (ret tt).

Definition parse_weekly_hours (h : HoursProbe) : M unit :=
  try_except
    (_ <- lift (try_click (oh_button h)) ;;
     n0 <- lift (table_rows_check h) ;;
     let rows := if n0 =? 0 then fallback_rows h else table_rows h in
     for_each day_keys (fun d => modify (set_str (day_field d) dash)) ;;
     n <- lift (rows_count rows) ;;
     for_each (seq 0 n) (hours_row rows))
    (ret tt).

Definition sniff (pattern : regex) (f : StrField) (html : str) : M unit :=
  match re_search pattern html with
  | Some m => modify (set_str f (m_text m))
  | None => ret tt
  end.

(** The address that is fetched: [//host] and a bare host get a scheme. *)
Definition request_url (website_url : str) : str :=
  let url := website_url in
  let url := if startswith url (lit "//") then lit "https:" ++ url else url in
  if negb (startswith url (lit "http"))
  then lit "https://" ++ lstrip_chars (lit "/") url else url.

Definition extract_social_links (http : Http) (website_url : str) : M unit :=
  try_except
    (if negb (truthy website_url) then ret tt
     else
       resp <- lift (http (request_url website_url)) ;;
       let '(status_code, html) := resp in
       if negb (status_code =? 200) then ret tt
       else
         sniff instagram_pattern F_instagram_url html ;;
         sniff facebook_pattern F_facebook_url html ;;
         sniff linkedin_pattern F_linkedin_url html ;;
         sniff x_pattern F_x_url html)
    (ret tt).

Definition set_both (m : rmatch) : M unit :=
  la <- lift (py_float (group m 1)) ;;
  modify (set_latitude la) ;;
  lo <- lift (py_float (group m 2)) ;;
  modify (set_longitude lo).

Definition set_origin : M unit :=
  modify (set_latitude 0%Q) ;; modify (set_longitude 0%Q).

(** The coordinate block of [extract_place]. *)
Definition set_coordinates (listing_url : str) : M unit :=
  try_except
    (match re_search at_pattern listing_url with
     | Some m => set_both m
     | None =>
         match re_search data_pattern listing_url with
         | Some m => set_both m
         | None => set_origin
         end
     end)
    set_origin.

Definition set_rating (q : AttrProbe) : M unit :=
  try_except
    (n <- lift (ap_count q) ;;
     if 0 <? n then
       a <- lift (ap_get_attribute q) ;;
       match re_search number_run (or_empty a) with
       | Some m =>
           v <- lift (py_float (m_text m)) ;;
           modify (set_reviews_average (Some v))
       | None => ret tt
       end
     else ret tt)
    (modify (set_reviews_average None)).

Definition set_review_count (q : AttrProbe) : M unit :=
  try_except
    (n <- lift (ap_count q) ;;
     if 0 <? n then
       a <- lift (ap_get_attribute q) ;;
       match re_search count_run (or_empty a) with
       | Some m =>
           v <- lift (py_int (remove_char (ch ",") (m_text m))) ;;
           modify (set_reviews_count (Some v))
       | None => ret tt
       end
     else ret tt)
    (modify (set_reviews_count None)).

Definition set_website (q : AttrProbe) : M unit :=
  try_except
    (n <- lift (ap_count q) ;;
     if negb (n =? 0) then
       a <- lift (ap_get_attribute q) ;;
       let website_url := or_empty a in
       let website_url :=
         if truthy website_url && negb (startswith website_url (lit "http"))
         then lit "https://" ++ lstrip_chars (lit "/") website_url
         else website_url in
       modify (set_str F_website (strip website_url))
     else ret tt)
    (modify (set_str F_website [])).

Definition set_address_parts : M unit :=
  p <- get_place ;;
  let '(c, z, k) :=
    if truthy (address p) then parse_address_parts (address p)
    else (dash, dash, dash) in
  modify (set_str F_city c) ;;
  modify (set_str F_zip_code z) ;;
  modify (set_str F_country k).

(** The final pass: a string attribute that is empty or blank becomes
    ["-"]. *)
Definition normalize_field (f : StrField) (p : Place) : Place :=
  if str_eqb (strip (get_str f p)) [] then set_str f dash p else p.

Definition normalize : M unit :=
  for_each str_fields (fun f => modify (normalize_field f)).

Definition extract_place_fields (v : ListingView) (http : Http)
           (user_input : str) (index : nat) (link : str) : M unit :=
  modify (set_s_no index) ;;
  modify (set_str F_source user_input) ;;
  modify (set_str F_listing_url link) ;;
  x <- lift (extract_text (name_probe v)) ;; modify (set_str F_name x) ;;
  x <- lift (extract_text (address_probe v)) ;; modify (set_str F_address x) ;;
  x <- lift (extract_text (phone_probe v)) ;; modify (set_str F_phone_number x) ;;
  x <- lift (extract_text (category_probe v)) ;; modify (set_str F_category x) ;;
  set_rating (rating_probe v) ;;
  set_review_count (review_probe v) ;;
  set_website (authority_probe v) ;;
  set_coordinates link ;;
  set_address_parts ;;
  parse_weekly_hours (hours_probe v) ;;
  p <- get_place ;;
  if truthy (website p) then extract_social_links http (website p) else ret tt.

Definition extract_place_body (v : ListingView) (http : Http)
           (user_input : str) (index : nat) (link : str) : M unit :=
  extract_place_fields v http user_input index link ;;
  normalize.

Definition extract_place (v : ListingView) (http : Http)
           (user_input : str) (index : nat) (link : str) : res Place :=
  match extract_place_body v http user_input index link new_place with
  | (Ok _, p) => Ok p
  | (Raise, _) => Raise
  end.

End Extraction.

(** [str.lower] on ASCII text. *)
Definition ascii_lower (s : str) : str :=
  map (fun c => if is_upper c then (c + 32)%N else c) s.

(** ** Discovery and the run *)

(** The listing cards found by one scan of the results: the answer to
    [cards.count()] and to [cards.nth(i).get_attribute("href")]. *)
Record CardsProbe : Type := {
  cards_count : res nat;
  card_href : nat -> res (option str)
}.

(** One of the selectors of the next-page button: [count()],
    [is_enabled()], [click()], and the two waits after the click. *)
Record NextButton : Type := {
  nb_count : res nat;
  nb_is_enabled : res bool;
  nb_click : res unit;
  nb_wait : res unit
}.

(** What the outside answers during a run.  Rounds of the discovery loop
    are counted from 0, listings from 1 and looks at the stop flag from
    0.  The scrolling, whose exceptions the source catches, leaves no
    trace in the model, and the calls of Streamlit and pandas that only
    show something (the log, the table of partial results) are taken to
    return. *)
Record World : Type := {
  pressed : nat -> bool;              (* Stop pressed since the look before [t] *)
  start_browser : res unit;           (* sync_playwright(), launch, new_context, new_page *)
  open_results : res unit;            (* the URL of the search, page.goto(url), the wait *)
  scan : nat -> CardsProbe;           (* the scan of round [j]          *)
  next_buttons : nat -> list NextButton;
                                      (* the four selectors in round [j] *)
  visit : nat -> str -> res ListingView;
                                      (* page.goto(link) and the wait   *)
  http_of : nat -> Http;              (* the web while listing [idx] is read *)
  close_browser : res unit            (* browser.close() and the end of the with block *)
}.

(** [st.session_state.stop] and the number of times it was looked at. *)
Record Session : Type := {
  stop : bool;
  looks : nat
}.

(** [should_stop()], which the caller defines as the value of
    [st.session_state.stop]: the flag stays up once a press of Stop has
    set it. *)
Definition should_stop (w : World) (s : Session) : bool * Session :=
  let f := stop s || pressed w (looks s) in
  (f, {| stop := f; looks := S (looks s) |}).

(** [if st.session_state.get("stop", False): st.session_state.stop = False] *)
Definition clear_stop (w : World) (s : Session) : Session :=
  let '(f, s') := should_stop w s in
  if f then {| stop := false; looks := looks s' |} else s'.

Definition MAX_NO_NEW_ROUNDS : nat := 5.

(** [href not in listing_urls] *)
Definition known (href : str) (listing_urls : list str) : bool :=
  existsb (str_eqb href) listing_urls.

Definition cap_reached (max_listings : nat) (listing_urls : list str) : bool :=
  (0 <? max_listings) && (max_listings <=? length listing_urls).

(** The loop over the cards of one scan; [todo] are the indices left. *)
Fixpoint collect_cards (max_listings : nat) (cards : CardsProbe) (todo : list nat)
         (listing_urls : list str) (added : nat) : res (list str * nat) :=
  match todo with
  | [] => Ok (listing_urls, added)
  | i :: todo' =>
      href <~ card_href cards i ;;
      match href with
      | Some h =>
          if truthy h && negb (known h listing_urls) then
            let listing_urls' := listing_urls ++ [h] in
            if cap_reached max_listings listing_urls'
            then Ok (listing_urls', S added)
            else collect_cards max_listings cards todo' listing_urls' (S added)
          else collect_cards max_listings cards todo' listing_urls added
      | None => collect_cards max_listings cards todo' listing_urls added
      end
  end.

Definition scan_cards (max_listings : nat) (cards : CardsProbe)
           (listing_urls : list str) : res (list str * nat) :=
  n <~ cards_count cards ;;
  collect_cards max_listings cards (seq 0 n) listing_urls 0.

(** One selector of [go_to_next_results_page]; an exception anywhere moves
    on to the next selector. *)
Definition try_next_button (b : NextButton) : bool :=
  match
    res_try
      (n <~ nb_count b ;;
       if 0 <? n then
         e <~ nb_is_enabled b ;;
         if e then _ <~ nb_click b ;; _ <~ nb_wait b ;; Ok true
         else Ok false
       else Ok false)
      (Ok false)
  with
  | Ok r => r
  | Raise => false
  end.

Definition go_to_next_results_page (selectors : list NextButton) : bool :=
  existsb try_next_button selectors.

(** How a round of the discovery loop ends. *)
Inductive Round : Type :=
| Again (listing_urls : list str) (no_new_rounds : nat)
| Done (listing_urls : list str).

(** The bookkeeping after the scan when the cap is not reached; the same
    code stands twice in the source, for [max_listings == 0] and for a
    fixed cap. *)
Definition after_scan (w : World) (round : nat) (listing_urls : list str)
           (added no_new_rounds : nat) : Round :=
  if added =? 0 then
    let no_new_rounds := S no_new_rounds in
    if MAX_NO_NEW_ROUNDS <=? no_new_rounds then
      if go_to_next_results_page (next_buttons w round)
      then Again listing_urls 0
      else Done listing_urls
    else Again listing_urls no_new_rounds
  else Again listing_urls 0.

(** The body of [while True], after the look at the stop flag. *)
Definition discovery_round (w : World) (max_listings round : nat)
           (listing_urls : list str) (no_new_rounds : nat) : res Round :=
  r <~ scan_cards max_listings (scan w round) listing_urls ;;
  let '(listing_urls, added) := r in
  if cap_reached max_listings listing_urls then Ok (Done listing_urls)
  else if max_listings =? 0
       then Ok (after_scan w round listing_urls added no_new_rounds)
       else Ok (after_scan w round listing_urls added no_new_rounds).

(** The discovery loop.  [fuel] bounds the rounds: [None] means that the
    loop is still running after [fuel] rounds. *)
Fixpoint discover (fuel : nat) (w : World) (max_listings round : nat)
         (listing_urls : list str) (no_new_rounds : nat) (s : Session)
  : option (res (list str * Session)) :=
  match fuel with
  | O => None
  | S fuel' =>
      let '(f, s1) := should_stop w s in
      if f then Some (Ok (listing_urls, s1))
      else
        match discovery_round w max_listings round listing_urls no_new_rounds with
        | Raise => Some Raise
        | Ok (Done urls) => Some (Ok (urls, s1))
        | Ok (Again urls n) => discover fuel' w max_listings (S round) urls n s1
        end
  end.

(** [/maps/search/([^/?]+)] *)
Definition search_path : regex :=
  Cat (Lit (lit "/maps/search/"))
      (Grp (Rep (fun c => negb (in_chars (lit "/?") c)) 1 None)).

Section Run.

Variable lower : str -> str.

(** [urllib.parse]: [urlparse] and [parse_qs] give the first value of the
    parameter [q] in the query of a URL, if there is one, or raise (a
    [ValueError], as [urlparse] does on [http://[x]); [unquote] is total
    on a [str]. *)
Variable query_q : str -> res (option str).
Variable unquote : str -> str.

Definition search_title (user_input : str) : res str :=
  if startswith user_input (lit "http") then
    q <~ query_q user_input ;;
    match q with
    | Some q => Ok q
    | None =>
        match re_search search_path user_input with
        | Some m => Ok (unquote (group m 1))
        | None => Ok (lit "google_maps_results")
        end
    end
  else Ok user_input.

Definition output_filename (user_input : str) : res str :=
  title <~ search_title user_input ;;
  Ok (sanitize_filename title ++ lit ".csv").

(** The loop over the collected links; [idx] is the number of the
    listing at the head of [links]. *)
Fixpoint scrape_listings (w : World) (user_input : str) (max_listings idx : nat)
         (links : list str) (places : list Place) (s : Session)
  : res (list Place * Session) :=
  match links with
  | [] => Ok (places, s)
  | link :: links' =>
      if (0 <? max_listings) && (max_listings <? idx) then Ok (places, s)
      else
        v <~ visit w idx link ;;
        place <~ extract_place lower v (http_of w idx) user_input idx link ;;
        let places := places ++ [place] in
        let '(f, s) := should_stop w s in
        if f then Ok (places, s)
        else
          let '(f, s) := should_stop w s in
          if f then Ok (places, s)
          else scrape_listings w user_input max_listings (S idx) links' places s
  end.

Definition scrape_places_streamlit (fuel : nat) (w : World) (user_input : str)
           (max_listings : nat) (s : Session)
  : option (res (list Place * str * Session)) :=
  match output_filename user_input with
  | Raise => Some Raise
  | Ok output_filename =>
      match start_browser w with
      | Raise => Some Raise
      | Ok _ =>
          match open_results w with
          | Raise => Some Raise
          | Ok _ =>
              match discover fuel w max_listings 0 [] 0 s with
              | None => None
              | Some Raise => Some Raise
              | Some (Ok (listing_urls, s)) =>
                  let s := clear_stop w s in
                  match scrape_listings w user_input max_listings 1 listing_urls [] s with
                  | Raise => Some Raise
                  | Ok (places, s) =>
                      match close_browser w with
                      | Raise => Some Raise
                      | Ok _ => Some (Ok (places, output_filename, s))
                      end
                  end
              end
          end
      end
  end.

End Run.

(** ** Notions used by the properties *)

(** An action that returns on every record, without raising. *)
Definition total {A : Type} (m : M A) : Prop :=
  forall p, exists a p', m p = (Ok a, p').

(** The record that an action leaves. *)
Definition exec {A : Type} (m : M A) (p : Place) : Place := snd (m p).

(** A property of the record that an action keeps, whether it returns or
    raises. *)
Definition preserves {A : Type} (I : Place -> Prop) (m : M A) : Prop :=
  forall p, I p -> I (snd (m p)).

(** A property of the record that an action brings about. *)
Definition establishes {A : Type} (I : Place -> Prop) (m : M A) : Prop :=
  forall p, I (snd (m p)).

(** What the final pass makes of one string. *)
Definition blank_to_dash (s : str) : str :=
  if str_eqb (strip s) [] then dash else s.

(** A record that went through the final pass. *)
Definition normalized (p : Place) : Prop :=
  forall f, strip (get_str f p) <> [].

(** *** Hours *)

(** [^.+ to .+$]; the dot is any character but a newline. *)
Definition dot (c : char) : bool := negb (c =? 10)%N.

Definition range_pattern : regex :=
  Cat Bol (Cat (Rep dot 1 None)
          (Cat (Lit (lit " to ")) (Cat (Rep dot 1 None) Eol))).

(** The four forms that the specification lists for a day. *)
Definition four_forms (s : str) : bool :=
  str_eqb s (lit "-") || str_eqb s (lit "Closed") ||
  str_eqb s (lit "Open 24 hours") ||
  match re_search range_pattern s with Some _ => true | None => false end.

Definition separators : list str := [en_dash; lit "-"; lit "to"].

Definition separator_free (t : str) : Prop :=
  forall sep pre post, In sep separators -> t <> pre ++ sep ++ post.

(** A time as the parser keeps it: not empty, trimmed, and without any of
    the separators. *)
Definition time_token (t : str) : Prop :=
  t <> [] /\ strip t = t /\ separator_free t.

(** No separator starts inside [t] when [t] is followed by [rs]. *)
Definition clean_before (t rs : str) : Prop :=
  forall t1 t2 sep post,
    t = t1 ++ t2 -> t2 <> [] -> In sep separators -> t2 ++ rs <> sep ++ post.

(** The forms that a day really takes. *)
Definition hours_shape (s : str) : Prop :=
  s = lit "-" \/ s = lit "Closed" \/ s = lit "Open 24 hours" \/
  (exists a b, time_token a /\ time_token b /\ s = a ++ lit " to " ++ b) \/
  time_token s.

(** Before the final pass a day is still unset or has one of the forms. *)
Definition days_parsed (p : Place) : Prop :=
  forall d, get_str (day_field d) p = [] \/ hours_shape (get_str (day_field d) p).

(** *** Coordinates *)

(** The coordinates that the block of [extract_place] leaves in a fresh
    record. *)
Definition coordinates_of_url (link : str) : Q * Q :=
  let p := exec (set_coordinates link) new_place in
  (latitude p, longitude p).

(** The two groups of a match read as numbers, or the origin when one of
    them is not a number. *)
Definition parsed_pair (m : rmatch) : Q * Q :=
  match py_float (group m 1), py_float (group m 2) with
  | Ok a, Ok b => (a, b)
  | _, _ => (0%Q, 0%Q)
  end.

(** Both coordinate patterns are a mark, a run of coordinate characters,
    a second mark and a second run. *)
Definition pair_pattern (a b : str) : regex :=
  Cat (Lit a)
   (Cat (Grp (Rep coord_char 1 None))
   (Cat (Lit b) (Grp (Rep coord_char 1 None)))).

(** The same read directly on the text: at the cursor stands [a], then the
    longest run of coordinate characters, then [b], then the longest run
    again, both runs non-empty. *)
Definition pair_here (a b rs : str) : option (str * str) :=
  match strip_prefix a rs with
  | Some r1 =>
      match strip_prefix b (drop_while coord_char r1) with
      | Some r2 =>
          if truthy (take_while coord_char r1) && truthy (take_while coord_char r2)
          then Some (take_while coord_char r1, take_while coord_char r2)
          else None
      | None => None
      end
  | None => None
  end.

(** The leftmost cursor at which [pair_here] holds. *)
Fixpoint pair_search (a b rs : str) : option (str * str) :=
  match pair_here a b rs with
  | Some g => Some g
  | None =>
      match rs with
      | [] => None
      | _ :: rs' => pair_search a b rs'
      end
  end.

(** Two texts read as numbers, or the origin when one is not a number. *)
Definition numbers (g : str * str) : Q * Q :=
  match py_float (fst g), py_float (snd g) with
  | Ok x, Ok y => (x, y)
  | _, _ => (0%Q, 0%Q)
  end.

Definition groups_pair (m : rmatch) : str * str := (group m 1, group m 2).

(** *** Social links *)

(** A profile link read directly on the text: at the cursor stands one of
    the prefixes, followed by the longest run of link characters, which is
    not empty. *)
Fixpoint link_here (prefixes : list str) (rs : str) : option str :=
  match prefixes with
  | [] => None
  | pfx :: more =>
      match strip_prefix pfx rs with
      | Some r =>
          if truthy (take_while link_char r)
          then Some (pfx ++ take_while link_char r)
          else link_here more rs
      | None => link_here more rs
      end
  end.

(** The leftmost link of the text. *)
Fixpoint link_search (prefixes : list str) (rs : str) : option str :=
  match link_here prefixes rs with
  | Some l => Some l
  | None =>
      match rs with
      | [] => None
      | _ :: rs' => link_search prefixes rs'
      end
  end.

(** The beginnings of the links that each pattern accepts. *)
Definition site_prefixes (host : str) : list str :=
  [lit "https://" ++ lit "www." ++ host; lit "https://" ++ host].

Definition x_prefixes : list str :=
  [lit "https://twitter.com/"; lit "https://x.com/"].

(** The four attributes with their pattern and the beginnings it accepts. *)
Definition social_sites : list (StrField * regex * list str) :=
  [(F_instagram_url, instagram_pattern, site_prefixes (lit "instagram.com/"));
   (F_facebook_url, facebook_pattern, site_prefixes (lit "facebook.com/"));
   (F_linkedin_url, linkedin_pattern, site_prefixes (lit "linkedin.com/"));
   (F_x_url, x_pattern, x_prefixes)].

(** *** The feed *)

(** A scan answers with the hrefs [hs], one for each card. *)
Definition answers (cards : CardsProbe) (hs : list (option str)) : Prop :=
  cards_count cards = Ok (length hs) /\
  forall i, i < length hs -> card_href cards i = Ok (nth i hs None).

(** The hrefs of a scan that count: present and not empty. *)
Definition refs (hs : list (option str)) : list str :=
  flat_map (fun o => match o with
                     | Some h => if truthy h then [h] else []
                     | None => []
                     end) hs.

(** [urls] followed by the texts of [hs] that are new, each once, in the
    order in which they first come. *)
Fixpoint add_new (urls hs : list str) : list str :=
  match hs with
  | [] => urls
  | h :: hs' => add_new (if known h urls then urls else urls ++ [h]) hs'
  end.

Definition first_seen (hs : list str) : list str := add_new [] hs.

(** All that the scans of the rounds before [k] showed, and the distinct
    references among it in order of first appearance. *)
Definition scanned (feed : nat -> list (option str)) (k : nat) : list str :=
  flat_map (fun j => refs (feed j)) (seq 0 k).

Definition seen_upto (feed : nat -> list (option str)) (k : nat) : list str :=
  first_seen (scanned feed k).

(** Round [j] brings nothing new. *)
Definition stale (feed : nat -> list (option str)) (j : nat) : bool :=
  length (seen_upto feed (S j)) =? length (seen_upto feed j).

(** The loop over the cards, on the hrefs themselves. *)
Fixpoint collect_pure (max_listings : nat) (hs : list (option str))
         (listing_urls : list str) (added : nat) : list str * nat :=
  match hs with
  | [] => (listing_urls, added)
  | href :: hs' =>
      match href with
      | Some h =>
          if truthy h && negb (known h listing_urls) then
            let listing_urls' := listing_urls ++ [h] in
            if cap_reached max_listings listing_urls'
            then (listing_urls', S added)
            else collect_pure max_listings hs' listing_urls' (S added)
          else collect_pure max_listings hs' listing_urls added
      | None => collect_pure max_listings hs' listing_urls added
      end
  end.

(** The first [max_listings] of a list, or all of it when there is no cap. *)
Definition capped (max_listings : nat) (l : list str) : list str :=
  if max_listings =? 0 then l else firstn max_listings l.

(** There is room under the cap for one more reference. *)
Definition room (max_listings : nat) (listing_urls : list str) : Prop :=
  max_listings = 0 \/ length listing_urls < max_listings.

(** The cap is kept. *)
Definition within_cap (max_listings : nat) (listing_urls : list str) : Prop :=
  max_listings = 0 \/ length listing_urls <= max_listings.

(** *** The records of a run *)

(** The listing [idx] is opened and read. *)
Definition scraped (lower : str -> str) (w : World) (user_input : str)
           (idx : nat) (link : str) : res Place :=
  v <~ visit w idx link ;;
  extract_place lower v (http_of w idx) user_input idx link.

(** The listings of [links], numbered from [idx], opened and read in
    order. *)
Fixpoint scraped_all (lower : str -> str) (w : World) (user_input : str)
         (idx : nat) (links : list str) : res (list Place) :=
  match links with
  | [] => Ok []
  | link :: links' =>
      p <~ scraped lower w user_input idx link ;;
      ps <~ scraped_all lower w user_input (S idx) links' ;;
      Ok (p :: ps)
  end.

(** *** Inputs of concrete runs *)

Definition no_text : TextProbe := {| tp_count := Ok 0; tp_inner_text := Ok None |}.
Definition no_attr : AttrProbe := {| ap_count := Ok 0; ap_get_attribute := Ok None |}.
Definition no_button : ClickProbe := {| cp_count := Ok 0; cp_click := Ok tt |}.
Definition no_rows : RowsProbe :=
  {| rows_count := Ok 0;
     row_day_text := fun _ => Raise;
     row_times_text := fun _ => Raise |}.

(** A table of one row. *)
Definition one_row (day times : str) : RowsProbe :=
  {| rows_count := Ok 1;
     row_day_text := fun _ => Ok (Some day);
     row_times_text := fun _ => Ok (Some times) |}.

(** A page with nothing but an hours table of one row. *)
Definition hours_view (day times : str) : ListingView :=
  {| name_probe := no_text; address_probe := no_text; phone_probe := no_text;
     category_probe := no_text; rating_probe := no_attr; review_probe := no_attr;
     authority_probe := no_attr;
     hours_probe := {| oh_button := no_button;
                       table_rows_check := Ok 1;
                       table_rows := one_row day times;
                       fallback_rows := no_rows |} |}.

(** A web that answers nothing. *)
Definition no_web : Http := fun _ => Raise.

(** A web that answers every request with the same page. *)
Definition one_page (body : str) : Http := fun _ => Ok (200, body).

(** A page with an [http] and two [https] links to Instagram, and an
    [http] link to Facebook. *)
Definition page_example : str :=
  lit "<a href=http://instagram.com/shop_pk> <a href=https://www.instagram.com/shop_pk?hl=en> <a href=https://instagram.com/other> <a href=http://facebook.com/shop>".

Definition cards_of (hs : list (option str)) : CardsProbe :=
  {| cards_count := Ok (length hs);
     card_href := fun i => Ok (nth i hs None) |}.

Definition fresh_session : Session := {| stop := false; looks := 0 |}.

(** A next-page selector that finds nothing. *)
Definition no_next : NextButton :=
  {| nb_count := Ok 0; nb_is_enabled := Ok false; nb_click := Ok tt; nb_wait := Ok tt |}.

(** A world given by its Stop button and its feed; none of the four
    next-page selectors finds a button, and every listing page is
    [hours_view] with nothing in it. *)
Definition plain_world (press : nat -> bool) (feed : nat -> list (option str)) : World :=
  {| pressed := press;
     start_browser := Ok tt;
     open_results := Ok tt;
     scan := fun j => cards_of (feed j);
     next_buttons := fun _ => [no_next; no_next; no_next; no_next];
     visit := fun _ _ => Ok (hours_view [] []);
     http_of := fun _ => no_web;
     close_browser := Ok tt |}.

(** A Stop button pressed once, before look [t0]. *)
Definition press_at (t0 : nat) : nat -> bool := fun t => t =? t0.

Definition url_a : str := lit "https://www.google.com/maps/place/A".
Definition url_b : str := lit "https://www.google.com/maps/place/B".

(** A feed that shows two listings at once. *)
Definition feed_two (j : nat) : list (option str) := [Some url_a; Some url_b].

(** A feed that shows one listing for six rounds and a second one from
    the seventh. *)
Definition feed_slow (j : nat) : list (option str) :=
  if j <? 6 then [Some url_a] else [Some url_a; Some url_b].

(** ** The log and the results *)

(** [output_filename.replace(".csv", ".xlsx")] of [show_results]:
    [str.replace] rewrites the occurrences of the old text from left to
    right, without overlap, as [re.sub] does for the literal. *)
Definition excel_filename (output_filename : str) : str :=
  re_sub (Lit (lit ".csv")) (lit ".xlsx") output_filename.

(** *** Patterns as sets of texts *)

(** The texts that a pattern can consume; [\b], [^] and [$] consume
    nothing. *)
Fixpoint lang (r : regex) (u : str) : Prop :=
  match r with
  | Lit s => u = s
  | Cls p => exists c, u = [c] /\ p c = true
  | Rep p lo hi =>
      forallb p u = true /\ lo <= length u /\
      match hi with Some h => length u <= h | None => True end
  | Opt r1 => u = [] \/ lang r1 u
  | Cat r1 r2 => exists u1 u2, u = u1 ++ u2 /\ lang r1 u1 /\ lang r2 u2
  | Alt r1 r2 => lang r1 u \/ lang r2 u
  | Grp r1 => lang r1 u
  | Wb | Bol | Eol => u = []
  end.

(** The number of groups of a pattern. *)
Fixpoint ngroups (r : regex) : nat :=
  match r with
  | Opt r1 => ngroups r1
  | Cat r1 r2 | Alt r1 r2 => ngroups r1 + ngroups r2
  | Grp r1 => S (ngroups r1)
  | _ => 0
  end.

(** [u] stands somewhere in [s]. *)
Definition infix (u s : str) : Prop := exists a b, s = a ++ u ++ b.

(** The matcher went from [st] to [st'] through [r]: it consumed a text of
    [r], and the groups it closed stand in that text. *)
Definition step_of (r : regex) (st st' : mstate) : Prop :=
  exists mid,
    rest st = mid ++ rest st' /\
    seen st' = rev mid ++ seen st /\
    lang r mid /\
    exists new,
      caps st' = caps st ++ new /\
      (forall g, In g new -> infix g mid) /\
      (ngroups r = 0 -> new = []).

(** *** Addresses *)

(** The group of [postal_code]. *)
Definition postal_body : regex :=
  Alt (Cat (Rep is_alpha 1 (Some 2))
      (Cat (Cls is_digit)
      (Cat (Opt (Cls is_alnum))
      (Cat (Opt (Cls is_space))
      (Cat (Cls is_digit)
           (Rep is_alpha 2 (Some 2)))))))
      (Rep is_digit 4 (Some 6)).

(** A component as [parse_address_parts] returns it: not empty, trimmed
    and ASCII. *)
Definition is_ascii (c : char) : bool := (c <=? 127)%N.

Definition component (s : str) : Prop :=
  s <> [] /\ strip s = s /\ forallb is_ascii s = true.

(** The shape of a postal code: four to eight letters, digits and
    spaces, with a digit among them and neither a leading nor a trailing
    space. *)
Definition postal_shape (z : str) : Prop :=
  4 <= length z <= 8 /\
  existsb is_digit z = true /\
  forallb (fun c => is_alnum c || is_space c) z = true /\
  match z with c :: _ => is_alnum c = true | [] => False end /\
  match rev z with c :: _ => is_alnum c = true | [] => False end.

(** The two steps of [parse_address_parts] on the segments: the choice
    of the country and of the segment [target] that holds the city, and
    the reading of the city and the postal code in [target]. *)
Definition country_target (parts : list str) : str * str :=
  let n := length parts in
  let last_part := nth (n - 1) parts [] in
  if (2 <=? n) && negb (has_digit last_part)
  then (last_part, nth (n - 2) parts [])
  else (dash, last_part).

Definition city_zip (target : str) : str * str :=
  match re_search postal_code target with
  | Some m =>
      let zip_code := strip (group m 1) in
      (strip (strip_chars (lit ", ") (re_sub (Lit zip_code) [] target)),
       zip_code)
  | None => (strip target, dash)
  end.

(** *** What an action leaves alone *)

(** [q] has the number and the string attributes of [p], but for the
    attributes of [fs]. *)
Definition kept (fs : list StrField) (p q : Place) : Prop :=
  s_no q = s_no p /\ forall f, ~ In f fs -> get_str f q = get_str f p.

(** The numeric attributes of a record, but for [s_no]. *)
Definition numbers_of (p : Place) : option N * option Q * Q * Q :=
  (reviews_count p, reviews_average p, latitude p, longitude p).

(** An action that writes no string attribute outside [fs]. *)
Definition touches_only {A : Type} (fs : list StrField) (m : M A) : Prop :=
  forall p, kept fs p (exec m p).

(** The text that [extract_text] reads from a locator. *)
Definition text_of (q : TextProbe) : str :=
  match extract_text q with Ok t => t | Raise => [] end.

Definition day_fields : list StrField := map day_field day_keys.

Definition social_fields : list StrField :=
  [F_instagram_url; F_facebook_url; F_linkedin_url; F_x_url].

(** The record once the attributes that are read directly are
    assigned (the first thirteen lines of [extract_place]). *)
Definition direct_record (v : ListingView) (user_input : str) (index : nat)
           (link : str) : Place :=
  set_str F_category (text_of (category_probe v))
   (set_str F_phone_number (text_of (phone_probe v))
    (set_str F_address (text_of (address_probe v))
     (set_str F_name (text_of (name_probe v))
      (set_str F_listing_url link
       (set_str F_source user_input (set_s_no index new_place)))))).

(** The text attributes with the locator that each is read from. *)
Definition text_probes (v : ListingView) : list (StrField * TextProbe) :=
  [(F_name, name_probe v); (F_address, address_probe v);
   (F_phone_number, phone_probe v); (F_category, category_probe v)].

(** *** The hours table *)

Definition day_eqb (a b : Day) : bool := field_eqb (day_field a) (day_field b).

(** The table that [parse_weekly_hours] reads when the first locator
    counts [n0] rows. *)
Definition rows_read (h : HoursProbe) (n0 : nat) : RowsProbe :=
  if n0 =? 0 then fallback_rows h else table_rows h.

(** What row [i] says: the day that its label names, the first in the
    order of [day_map], and the text kept for it.  A row with a cell that
    raises, or with a label that names no day, says nothing. *)
Definition row_entry (lower : str -> str) (rows : RowsProbe) (i : nat)
  : option (Day * str) :=
  match row_day_text rows i, row_times_text rows i with
  | Ok d, Ok t =>
      match find (fun k => contains (day_key k) (lower (strip (or_empty d)))) day_keys with
      | Some key => Some (key, hours_text lower (strip (or_empty t)))
      | None => None
      end
  | _, _ => None
  end.

(** The text of the last entry for the day [d], or ["-"]. *)
Definition day_value (d : Day) (entries : list (option (Day * str))) : str :=
  fold_left (fun acc e =>
               match e with
               | Some (k, v) => if day_eqb k d then v else acc
               | None => acc
               end) entries dash.

(** The entry of a row, written into the record. *)
Definition put_entry (e : option (Day * str)) (q : Place) : Place :=
  match e with
  | Some (k, v) => set_str (day_field k) v q
  | None => q
  end.

(** *** What discovery collects *)

(** A selector of the next-page button that works: the button is there
    and enabled, and the click and the wait for the new results
    return. *)
Definition button_works (b : NextButton) : Prop :=
  (exists n, nb_count b = Ok (S n)) /\
  nb_is_enabled b = Ok true /\ nb_click b = Ok tt /\ nb_wait b = Ok tt.

(** The reference [u] was shown by a card of some scan. *)
Definition shown (w : World) (u : str) : Prop :=
  exists j i, card_href (scan w j) i = Ok (Some u).

(** The references collected so far are distinct, not empty, and each
    was shown by a card. *)
Definition collected (w : World) (urls : list str) : Prop :=
  NoDup urls /\ forall u, In u urls -> u <> [] /\ shown w u.

(** A scan that raises: at the count of the cards or at the reference of
    one of them. *)
Definition scan_raises (w : World) : Prop :=
  exists j, cards_count (scan w j) = Raise \/ exists i, card_href (scan w j) i = Raise.

(** A world as [plain_world] in which the page of listing [bad] does not
    open. *)
Definition broken_world (bad : nat) (feed : nat -> list (option str)) : World :=
  {| pressed := fun _ => false;
     start_browser := Ok tt;
     open_results := Ok tt;
     scan := fun j => cards_of (feed j);
     next_buttons := fun _ => [no_next; no_next; no_next; no_next];
     visit := fun idx _ => if idx =? bad then Raise else Ok (hours_view [] []);
     http_of := fun _ => no_web;
     close_browser := Ok tt |}.

(** *** The log *)

(** [l[-n:]] for a positive [n]: the last [n] elements, or all of them. *)
Definition last_n {X : Type} (n : nat) (l : list X) : list X :=
  skipn (length l - n) l.

(** [st.session_state._logs] after [ui_log(msg, level)]; the list is
    missing before the first call ([None]). *)
Definition ui_log (logs : option (list (str * str))) (msg level : str)
  : list (str * str) :=
  let logs := match logs with Some l => l | None => [] end in
  last_n 400 (logs ++ [(level, msg)]).

(** The log after the messages [es], logged one after the other. *)
Definition ui_log_all (logs : option (list (str * str))) (es : list (str * str))
  : option (list (str * str)) :=
  fold_left (fun l '(level, msg) => Some (ui_log l msg level)) es logs.

(** *** The table of results *)

(** [cols.index(x)]; [None] stands for the [ValueError]. *)
Fixpoint index_of (x : str) (cols : list str) : option nat :=
  match cols with
  | [] => None
  | c :: cols' =>
      if str_eqb c x then Some 0 else option_map S (index_of x cols')
  end.

(** The columns as [show_results] orders them:
    [cols.insert(0, cols.pop(cols.index('s_no')))] when ['s_no'] is a
    column. *)
Definition reorder_columns (cols : list str) : res (list str) :=
  if known (lit "s_no") cols then
    match index_of (lit "s_no") cols with
    | Some i => Ok (nth i cols [] :: (firstn i cols ++ skipn (S i) cols))
    | None => Raise
    end
  else Ok cols.

(** The columns of the table: the attributes of [Place] in the order of
    the dataclass, which is the order of [asdict]. *)
Definition place_columns : list str :=
  [lit "s_no"; lit "name"; lit "address"; lit "website"; lit "phone_number";
   lit "reviews_count"; lit "reviews_average"; lit "category"; lit "latitude";
   lit "longitude"; lit "city"; lit "zip_code"; lit "country";
   lit "monday_hours"; lit "tuesday_hours"; lit "wednesday_hours";
   lit "thursday_hours"; lit "friday_hours"; lit "saturday_hours";
   lit "sunday_hours"; lit "instagram_url"; lit "facebook_url";
   lit "linkedin_url"; lit "x_url"; lit "listing_url"; lit "source"].

(** *** The Start button *)

(** What a press of Start leads to: a warning, or a run with its
    outcome ([None] while it is still collecting). *)
Inductive Started : Type :=
| Warned
| Ran (outcome : option (res (list Place * str * Session))).

Section Start.

Variable lower : str -> str.
Variable query_q : str -> res (option str).
Variable unquote : str -> str.

(** The block [if start:]: the stop flag is put down, a blank input is
    refused, and the run gets the input without the space around it. *)
Definition on_start (fuel : nat) (w : World) (user_input : str)
           (max_listings : nat) (s : Session) : Started :=
  let s := {| stop := false; looks := looks s |} in
  if negb (truthy (strip user_input)) then Warned
  else Ran (scrape_places_streamlit lower query_q unquote fuel w
              (strip user_input) max_listings s).

End Start.

(** *** The counter of the rounds without a new reference *)

(** The value of [no_new_rounds] at the start of round [j] of a loop
    that has not ended before: a round that brings something new puts it
    back to 0, and so does a round that finds the next page. *)
Fixpoint no_new_at (feed : nat -> list (option str)) (j : nat) : nat :=
  match j with
  | O => 0
  | S i =>
      if stale feed i then
        if MAX_NO_NEW_ROUNDS <=? S (no_new_at feed i) then 0
        else S (no_new_at feed i)
      else 0
  end.

(** Round [j] looks for the next page: it brings nothing new and the
    counter reaches [MAX_NO_NEW_ROUNDS]. *)
Definition attempts (feed : nat -> list (option str)) (j : nat) : bool :=
  stale feed j && (MAX_NO_NEW_ROUNDS <=? S (no_new_at feed j)).

(** Round [j] gives up: it looks for the next page and finds none. *)
Definition gives_up (w : World) (feed : nat -> list (option str)) (j : nat) : bool :=
  attempts feed j && negb (go_to_next_results_page (next_buttons w j)).

(** A next-page selector that finds its button and gets the next
    results. *)
Definition next_ok : NextButton :=
  {| nb_count := Ok 1; nb_is_enabled := Ok true; nb_click := Ok tt; nb_wait := Ok tt |}.

(** A world as [plain_world] whose second next-page selector works. *)
Definition paged_world (press : nat -> bool) (feed : nat -> list (option str)) : World :=
  {| pressed := press;
     start_browser := Ok tt;
     open_results := Ok tt;
     scan := fun j => cards_of (feed j);
     next_buttons := fun _ => [no_next; next_ok; no_next; no_next];
     visit := fun _ _ => Ok (hours_view [] []);
     http_of := fun _ => no_web;
     close_browser := Ok tt |}.

(** A text without a newline: what [.+] can read. *)
Definition single_line (s : str) : bool := forallb dot s.

(** What a day can be when it has none of the four forms of the
    specification: a time alone, or two times joined by [" to "] one of
    which holds a newline. *)
Definition beyond_four_forms (s : str) : Prop :=
  time_token s \/
  exists a b,
    time_token a /\ time_token b /\ s = a ++ lit " to " ++ b /\
    single_line a && single_line b = false.

(** The text before the first separator of an hours text and the text
    between the first and the second, trimmed; [[]] stands for a part
    that is not there. *)
Definition open_part (times_text : str) : str :=
  strip (nth 0 (re_split hours_separator times_text) []).
Definition close_part (times_text : str) : str :=
  strip (nth 1 (re_split hours_separator times_text) []).

(** An hours cell with two ranges on two lines. *)
Definition two_ranges : str :=
  lit "9 AM - 12 PM" ++ [10%N] ++ lit "1 PM - 5 PM".

(** * Properties *)

(** ** Strings *)

Lemma str_eqb_eq (a b : str) : str_eqb a b = true <-> a = b.
Proof.
  revert b; induction a as [|x a IH]; intros [|y b]; simpl;
    try (split; [discriminate | congruence]); try tauto.
  rewrite andb_true_iff, N.eqb_eq, IH.
  split; [intros [-> ->]; reflexivity | intros H; inversion H; auto].
Qed.

Lemma str_eqb_refl (a : str) : str_eqb a a = true.
Proof. apply str_eqb_eq; reflexivity. Qed.

Lemma truthy_nonempty (s : str) : truthy s = true <-> s <> [].
Proof. destruct s; simpl; split; congruence. Qed.

Lemma or_else_truthy (s d : str) : truthy s = true -> or_else s d = s.
Proof. unfold or_else; intros ->; reflexivity. Qed.

Lemma strip_prefix_app (p s r : str) : strip_prefix p s = Some r <-> s = p ++ r.
Proof.
  revert s; induction p as [|c p IH]; intros s; simpl.
  - split; congruence.
  - destruct s as [|d s]; [split; discriminate|].
    destruct (N.eqb_spec c d) as [->|Hne].
    + rewrite IH; split; [intros ->; reflexivity | intros H; inversion H; auto].
    + split; [discriminate | intros H; inversion H; congruence].
Qed.

Lemma strip_prefix_self (p r : str) : strip_prefix p (p ++ r) = Some r.
Proof. apply strip_prefix_app; reflexivity. Qed.

Lemma startswith_app (s p : str) :
  startswith s p = true <-> exists r, s = p ++ r.
Proof.
  unfold startswith; destruct (strip_prefix p s) as [r|] eqn:E.
  - apply strip_prefix_app in E; split; eauto.
  - split; [discriminate|]; intros [r Hr].
    apply strip_prefix_app in Hr; congruence.
Qed.

(** [sub in s] holds exactly when [s] can be cut around [sub]. *)
Lemma contains_app (sub s : str) :
  contains sub s = true <-> exists pre post, s = pre ++ sub ++ post.
Proof.
  induction s as [|c s IH]; simpl; rewrite orb_true_iff, startswith_app.
  - split.
    + intros [[r Hr]|H]; [exists [], r; exact Hr | discriminate].
    + intros (pre & post & H). left.
      destruct pre; [exists post; exact H | discriminate].
  - split.
    + intros [[r Hr]|H]; [exists [], r; exact Hr|].
      apply IH in H as (pre & post & ->); exists (c :: pre), post; reflexivity.
    + intros (pre & post & H). destruct pre as [|d pre]; simpl in H.
      * left; exists post; exact H.
      * right; apply IH; inversion H; eauto.
Qed.

Lemma drop_while_split (p : char -> bool) (s : str) :
  exists pre, s = pre ++ drop_while p s /\ forallb p pre = true.
Proof.
  induction s as [|c s (pre & IH & Hp)]; simpl.
  - exists []; auto.
  - destruct (p c) eqn:E.
    + exists (c :: pre); simpl; rewrite E, Hp; split; [f_equal; exact IH | reflexivity].
    + exists []; auto.
Qed.

Lemma drop_while_head (p : char -> bool) (s : str) :
  match drop_while p s with c :: _ => p c = false | [] => True end.
Proof.
  induction s as [|c s IH]; simpl; auto.
  destruct (p c) eqn:E; auto.
Qed.

Lemma drop_while_fixed (p : char -> bool) (s : str) :
  match s with c :: _ => p c = false | [] => True end -> drop_while p s = s.
Proof. destruct s as [|c s]; simpl; auto; intros ->; reflexivity. Qed.

(** A stripped text is a piece of the text it came from. *)
Lemma strip_with_infix (p : char -> bool) (s : str) :
  exists a b, s = a ++ strip_with p s ++ b.
Proof.
  unfold strip_with, rstrip_with, lstrip_with.
  destruct (drop_while_split p s) as (a & Ha & _).
  destruct (drop_while_split p (rev (drop_while p s))) as (b & Hb & _).
  exists a, (rev b).
  rewrite <- rev_app_distr, <- Hb, rev_involutive; exact Ha.
Qed.

Lemma strip_with_head (p : char -> bool) (s : str) :
  match strip_with p s with c :: _ => p c = false | [] => True end.
Proof.
  unfold strip_with, rstrip_with, lstrip_with.
  pose proof (drop_while_head p s) as H.
  destruct (drop_while_split p (rev (drop_while p s))) as (b & Hb & _).
  set (t := drop_while p (rev (drop_while p s))) in *.
  assert (E : drop_while p s = rev t ++ rev b)
    by (rewrite <- rev_app_distr, <- Hb, rev_involutive; reflexivity).
  destruct (rev t) as [|c u] eqn:Et; auto.
  rewrite E in H; exact H.
Qed.

Lemma strip_with_last (p : char -> bool) (s : str) :
  match rev (strip_with p s) with c :: _ => p c = false | [] => True end.
Proof.
  unfold strip_with, rstrip_with; rewrite rev_involutive.
  apply drop_while_head.
Qed.

(** Stripping twice is stripping once. *)
Lemma strip_with_idem (p : char -> bool) (s : str) :
  strip_with p (strip_with p s) = strip_with p s.
Proof.
  pose proof (strip_with_head p s) as Hh.
  pose proof (strip_with_last p s) as Hl.
  set (t := strip_with p s) in *.
  unfold strip_with at 1, rstrip_with, lstrip_with.
  rewrite (drop_while_fixed p t Hh), (drop_while_fixed p (rev t) Hl).
  apply rev_involutive.
Qed.

Lemma strip_with_In (p : char -> bool) (s : str) (c : char) :
  In c (strip_with p s) -> In c s.
Proof.
  destruct (strip_with_infix p s) as (a & b & E); intros H.
  rewrite E, !in_app_iff; auto.
Qed.

Lemma strip_idem (s : str) : strip (strip s) = strip s.
Proof. apply strip_with_idem. Qed.

(** ** The matcher *)

Lemma take_drop_while (p : char -> bool) (s : str) :
  s = take_while p s ++ drop_while p s.
Proof.
  induction s as [|c s IH]; simpl; auto.
  destruct (p c); simpl; congruence.
Qed.

Lemma drop_while_length (p : char -> bool) (s : str) :
  length s - length (drop_while p s) = length (take_while p s).
Proof.
  rewrite (take_drop_while p s) at 1. rewrite length_app. lia.
Qed.

Lemma firstn_take_while (p : char -> bool) (s : str) :
  firstn (length s - length (drop_while p s)) s = take_while p s.
Proof.
  rewrite drop_while_length.
  rewrite (take_drop_while p s) at 2.
  rewrite firstn_app, firstn_all, Nat.sub_diag; simpl.
  apply app_nil_r.
Qed.

(** A greedy repetition without upper bound, before a continuation that
    cannot fail, takes the longest run of the class. *)
Lemma many_total {A : Type} (p : char -> bool) (k : str -> str -> option A) :
  (forall a b, k a b <> None) ->
  forall rs lo sn,
    many p lo None sn rs k =
    if lo <=? length (take_while p rs)
    then k (rev (take_while p rs) ++ sn) (drop_while p rs)
    else None.
Proof.
  intros Hk; induction rs as [|c rs IH]; intros lo sn; simpl.
  - destruct lo; reflexivity.
  - destruct (p c) eqn:E; simpl.
    + rewrite IH. simpl length.
      destruct (pred lo <=? length (take_while p rs)) eqn:L.
      * apply Nat.leb_le in L.
        replace (lo <=? S (length (take_while p rs))) with true
          by (symmetry; apply Nat.leb_le; lia).
        rewrite <- app_assoc; simpl.
        destruct (k _ _) eqn:K; [reflexivity | exfalso; exact (Hk _ _ K)].
      * apply Nat.leb_gt in L.
        replace (lo <=? S (length (take_while p rs))) with false
          by (symmetry; apply Nat.leb_gt; lia).
        destruct lo; [lia | reflexivity].
    + destruct lo; reflexivity.
Qed.

(** The same before a continuation that fails whenever a character of the
    class comes next: no shorter run is tried with success. *)
Lemma many_strict {A : Type} (p : char -> bool) (k : str -> str -> option A) :
  (forall a c b, p c = true -> k a (c :: b) = None) ->
  forall rs lo sn,
    many p lo None sn rs k =
    if lo <=? length (take_while p rs)
    then k (rev (take_while p rs) ++ sn) (drop_while p rs)
    else None.
Proof.
  intros Hk; induction rs as [|c rs IH]; intros lo sn; simpl.
  - destruct lo; reflexivity.
  - destruct (p c) eqn:E; simpl.
    + rewrite IH. simpl length.
      destruct (pred lo <=? length (take_while p rs)) eqn:L.
      * apply Nat.leb_le in L.
        replace (lo <=? S (length (take_while p rs))) with true
          by (symmetry; apply Nat.leb_le; lia).
        rewrite <- app_assoc; simpl.
        destruct (k _ _) eqn:K; [reflexivity|].
        destruct lo; [apply Hk; exact E | reflexivity].
      * apply Nat.leb_gt in L.
        replace (lo <=? S (length (take_while p rs))) with false
          by (symmetry; apply Nat.leb_gt; lia).
        destruct lo; [lia | reflexivity].
    + destruct lo; reflexivity.
Qed.

(** A pattern that is one repetition [[..]+]. *)
Lemma match_here_run (p : char -> bool) (sn rs : str) :
  match_here (Rep p 1 None) sn rs =
  match take_while p rs with
  | [] => None
  | run => Some (RMatch (length sn) run [])
  end.
Proof.
  unfold match_here; simpl.
  rewrite many_total by discriminate.
  simpl. rewrite firstn_take_while.
  destruct (take_while p rs); reflexivity.
Qed.

(** [re.search] finds the leftmost cursor at which the pattern matches. *)
Lemma search_from_none (r : regex) (rs sn : str) :
  search_from r sn rs = None <->
  forall pre post, rs = pre ++ post -> match_here r (rev pre ++ sn) post = None.
Proof.
  revert sn; induction rs as [|c rs IH]; intros sn; simpl.
  - destruct (match_here r sn []) eqn:E.
    + split; [discriminate|]. intros H.
      specialize (H [] [] eq_refl); simpl in H; congruence.
    + split; auto. intros _ pre post H.
      destruct pre; [|discriminate]. simpl in H; subst post; exact E.
  - destruct (match_here r sn (c :: rs)) eqn:E.
    + split; [discriminate|]. intros H.
      specialize (H [] (c :: rs) eq_refl); simpl in H; congruence.
    + rewrite IH. split.
      * intros H pre post Hs. destruct pre as [|d pre]; simpl in Hs.
        -- subst post; exact E.
        -- inversion Hs; subst. simpl. rewrite <- app_assoc. apply H; reflexivity.
      * intros H pre post Hs. specialize (H (c :: pre) post).
        simpl in H. rewrite <- app_assoc in H. apply H. rewrite Hs; reflexivity.
Qed.

Lemma search_from_some (r : regex) (rs sn : str) (m : rmatch) :
  search_from r sn rs = Some m <->
  exists pre post,
    rs = pre ++ post /\
    match_here r (rev pre ++ sn) post = Some m /\
    forall pre1 post1, rs = pre1 ++ post1 -> length pre1 < length pre ->
                       match_here r (rev pre1 ++ sn) post1 = None.
Proof.
  revert sn; induction rs as [|c rs IH]; intros sn; simpl.
  - destruct (match_here r sn []) eqn:E.
    + split.
      * intros H; exists [], []; simpl. rewrite E.
        repeat split; auto. intros ? ? _ L; simpl in L; lia.
      * intros (pre & post & Hs & Hm & _).
        destruct pre; [|discriminate]. simpl in Hs; subst post.
        simpl in Hm. congruence.
    + split; [discriminate|]. intros (pre & post & Hs & Hm & _).
      destruct pre; [|discriminate]. simpl in Hs; subst post.
      simpl in Hm. congruence.
  - destruct (match_here r sn (c :: rs)) eqn:E.
    + split.
      * intros H; exists [], (c :: rs); simpl. rewrite E.
        repeat split; auto. intros ? ? _ L; simpl in L; lia.
      * intros (pre & post & Hs & Hm & Hmin).
        destruct pre as [|d pre].
        -- simpl in Hs; subst post. simpl in Hm. congruence.
        -- specialize (Hmin [] (c :: rs) eq_refl). simpl in Hmin.
           rewrite Hmin in E by lia. discriminate.
    + rewrite IH. split.
      * intros (pre & post & Hs & Hm & Hmin).
        exists (c :: pre), post. simpl. rewrite <- app_assoc.
        repeat split; [rewrite Hs; reflexivity | exact Hm |].
        intros pre1 post1 H1 L. destruct pre1 as [|d pre1]; simpl in H1.
        -- subst post1; exact E.
        -- injection H1 as Hd Hr; subst d. simpl. rewrite <- app_assoc.
           apply Hmin; [exact Hr | simpl in L; lia].
      * intros (pre & post & Hs & Hm & Hmin).
        destruct pre as [|d pre]; simpl in Hs.
        -- subst post. simpl in Hm. congruence.
        -- injection Hs as Hd Hr; subst d. exists pre, post.
           simpl in Hm. rewrite <- app_assoc in Hm.
           repeat split; auto.
           intros pre1 post1 H1 L.
           specialize (Hmin (c :: pre1) post1). simpl in Hmin.
           rewrite <- app_assoc in Hmin.
           apply Hmin; [congruence | simpl; lia].
Qed.

(** [re.search(r'\d', s)] finds something exactly when [s] has a digit. *)
Lemma has_digit_existsb (s : str) : has_digit s = existsb is_digit s.
Proof.
  unfold has_digit, re_search. generalize (@nil char) as sn.
  induction s as [|c s IH]; intros sn; simpl.
  - reflexivity.
  - unfold match_here at 1; simpl.
    destruct (is_digit c); simpl; [reflexivity | apply IH].
Qed.

(** ** File names *)

Lemma sub_from_kept (rs : str) :
  forall skip sn c,
    In c (sub_from filename_unsafe_run (lit "_") skip sn rs) ->
    filename_kept c = true.
Proof.
  induction rs as [|d rs IH]; intros skip sn c; simpl; [tauto|].
  destruct skip as [|n]; [|apply IH].
  unfold filename_unsafe_run at 1. rewrite match_here_run. simpl.
  destruct (negb (filename_kept d)) eqn:E; simpl.
  - intros [<-|H]; [reflexivity | exact (IH _ _ _ H)].
  - intros [<-|H]; [|exact (IH _ _ _ H)].
    apply negb_false_iff; exact E.
Qed.

(** Every character of a sanitized name is an ASCII letter or digit, an
    underscore, a hyphen or a backslash, and the name is never empty. *)
Lemma sanitize_filename_chars (name : str) (c : char) :
  In c (sanitize_filename name) -> filename_kept c = true.
Proof.
  unfold sanitize_filename, or_else.
  destruct (truthy _).
  - intros H. apply strip_with_In in H. exact (sub_from_kept _ _ _ _ H).
  - intros H. vm_compute in H.
    repeat (destruct H as [<-|H]; [reflexivity|]). contradiction.
Qed.

Lemma sanitize_filename_nonempty (name : str) : sanitize_filename name <> [].
Proof.
  unfold sanitize_filename, or_else.
  destruct (truthy _) eqn:E; [apply truthy_nonempty; exact E | discriminate].
Qed.

Lemma sanitize_filename_default (name : str) :
  strip_chars (lit "_") (re_sub filename_unsafe_run (lit "_") name) = [] ->
  sanitize_filename name = lit "results".
Proof. unfold sanitize_filename; intros ->; reflexivity. Qed.

(** C8, at the input [a\b].  The class of [sanitize_filename] is written
    [[^a-zA-Z0-9_\\-]] in a raw string, so it keeps the backslash: the
    name typed as [a\b] is left as it is, and the file suggested for it is
    [a\b.csv], whose backslash is a path separator on Windows. *)
Theorem sanitize_filename_keeps_backslash :
  sanitize_filename (lit "a\b") = lit "a\b" /\
  In (ch "\") (sanitize_filename (lit "a\b")) /\
  (forall (query_q : str -> res (option str)) (unquote : str -> str),
      output_filename query_q unquote (lit "a\b") = Ok (lit "a\b.csv")) /\
  sanitize_filename (lit "a/b") = lit "a_b".
Proof.
  repeat split; try reflexivity.
  vm_compute; auto.
Qed.

(** ** Addresses *)

Lemma address_parts_truthy (address : str) (p : str) :
  In p (address_parts address) -> truthy p = true.
Proof.
  unfold address_parts. rewrite in_map_iff.
  intros (q & <- & H). apply filter_In in H. tauto.
Qed.

Lemma nth_last (l : list str) : nth (length l - 1) l [] = last l [].
Proof.
  induction l as [|a l IH]; simpl; auto.
  destruct l as [|b l]; simpl in *; auto.
  rewrite Nat.sub_0_r in IH. exact IH.
Qed.

Lemma last_In (l : list str) : l <> [] -> In (last l []) l.
Proof.
  induction l as [|a l IH]; [congruence|]. intros _.
  destruct l as [|b l]; simpl; auto.
  right. apply IH. discriminate.
Qed.

(** C4.  When the address has at least two segments and the last one has
    no digit, [parse_address_parts] returns that last segment as the
    country. *)
Theorem country_is_last_segment (address : str) :
  2 <= length (address_parts address) ->
  forallb (fun c => negb (is_digit c)) (last (address_parts address) []) = true ->
  snd (parse_address_parts address) = last (address_parts address) [].
Proof.
  intros Hlen Hnd. unfold parse_address_parts.
  pose proof (address_parts_truthy address) as Htr.
  destruct (address_parts address) as [|p0 ps] eqn:E; [simpl in Hlen; lia|].
  rewrite <- E in *. rewrite nth_last.
  assert (Hd : has_digit (last (address_parts address) []) = false).
  { rewrite has_digit_existsb.
    destruct (existsb _ _) eqn:X; auto.
    apply existsb_exists in X as (c & Hc & Hdig).
    rewrite forallb_forall in Hnd. apply Hnd in Hc. rewrite Hdig in Hc.
    discriminate. }
  rewrite Hd. apply Nat.leb_le in Hlen. rewrite Hlen. simpl.
  destruct (re_search postal_code _); simpl;
    (apply or_else_truthy, Htr, last_In; rewrite E; discriminate).
Qed.

Lemma country_is_last_segment_witness :
  snd (parse_address_parts (lit "Shop 5, Main Rd, Karachi 75500, Pakistan"))
  = last (address_parts (lit "Shop 5, Main Rd, Karachi 75500, Pakistan")) [].
Proof.
  apply country_is_last_segment.
  - vm_compute. lia.
  - vm_compute. reflexivity.
Defined.

(** ** Actions on the record *)

Lemma total_ret {A : Type} (a : A) : total (ret a).
Proof. intros p; exists a, p; reflexivity. Qed.

Lemma total_modify (f : Place -> Place) : total (modify f).
Proof. intros p; exists tt, (f p); reflexivity. Qed.

Lemma total_get_place : total get_place.
Proof. intros p; exists p, p; reflexivity. Qed.

Lemma total_lift {A : Type} (a : A) : total (lift (Ok a)).
Proof. intros p; exists a, p; reflexivity. Qed.

Lemma total_bind {A B : Type} (m : M A) (k : A -> M B) :
  total m -> (forall a, total (k a)) -> total (bind m k).
Proof.
  intros Hm Hk p. destruct (Hm p) as (a & p' & E).
  unfold bind; rewrite E. apply Hk.
Qed.

(** A [try] whose handler cannot raise does not raise. *)
Lemma total_try_except {A : Type} (body handler : M A) :
  total handler -> total (try_except body handler).
Proof.
  intros Hh p. unfold try_except.
  destruct (body p) as [[a|] p']; [exists a, p'; reflexivity | apply Hh].
Qed.

Lemma total_for_each {X : Type} (xs : list X) (body : X -> M unit) :
  (forall x, total (body x)) -> total (for_each xs body).
Proof.
  intros Hb; induction xs as [|x xs IH]; simpl.
  - apply total_ret.
  - apply total_bind; auto.
Qed.

Lemma bind_ok {A B : Type} (m : M A) (k : A -> M B) (p p2 : Place) (b : B) :
  bind m k p = (Ok b, p2) ->
  exists a p1, m p = (Ok a, p1) /\ k a p1 = (Ok b, p2).
Proof.
  unfold bind. destruct (m p) as [[a|] p1]; [eauto | discriminate].
Qed.

Lemma for_each_modify {X : Type} (g : X -> Place -> Place) (xs : list X) (p : Place) :
  for_each xs (fun x => modify (g x)) p = (Ok tt, fold_left (fun q x => g x q) xs p).
Proof.
  revert p; induction xs as [|x xs IH]; intros p; simpl; [reflexivity|].
  unfold bind, modify at 1. apply IH.
Qed.

Lemma extract_text_ok (q : TextProbe) : exists s, extract_text q = Ok s.
Proof.
  unfold extract_text, res_try, res_bind.
  destruct (tp_count q) as [n|]; [|eauto].
  destruct (0 <? n); [|eauto].
  destruct (tp_inner_text q); eauto.
Qed.

Lemma total_extract_text (q : TextProbe) : total (lift (extract_text q)).
Proof. destruct (extract_text_ok q) as (s & ->). apply total_lift. Qed.

(** ** The fields of the record *)

Lemma field_eqb_eq (f g : StrField) : field_eqb f g = true <-> f = g.
Proof.
  split; [|intros ->; unfold field_eqb; apply Nat.eqb_refl].
  destruct f, g; intros H; try reflexivity; discriminate H.
Qed.

Lemma get_set_str (f g : StrField) (v : str) (p : Place) :
  get_str g (set_str f v p) = if field_eqb f g then v else get_str g p.
Proof. destruct g; reflexivity. Qed.

Lemma all_str_fields (f : StrField) : In f str_fields.
Proof. destruct f; simpl; tauto. Qed.

Lemma normalize_field_get (f g : StrField) (p : Place) :
  get_str g (normalize_field f p) =
  if field_eqb f g && str_eqb (strip (get_str f p)) [] then dash else get_str g p.
Proof.
  unfold normalize_field.
  destruct (str_eqb (strip (get_str f p)) []); rewrite ?get_set_str, ?andb_false_r, ?andb_true_r;
    reflexivity.
Qed.

Lemma normalize_field_keeps (f g : StrField) (p : Place) :
  strip (get_str g p) <> [] -> get_str g (normalize_field f p) = get_str g p.
Proof.
  intros H. rewrite normalize_field_get.
  destruct (field_eqb f g) eqn:E; [|reflexivity].
  apply field_eqb_eq in E; subst g. simpl.
  destruct (str_eqb (strip (get_str f p)) []) eqn:B; [|reflexivity].
  apply str_eqb_eq in B. contradiction.
Qed.

Lemma normalize_field_good (f : StrField) (p : Place) :
  strip (get_str f (normalize_field f p)) <> [].
Proof.
  rewrite normalize_field_get.
  replace (field_eqb f f) with true by (symmetry; apply field_eqb_eq; reflexivity).
  simpl. destruct (str_eqb (strip (get_str f p)) []) eqn:B.
  - discriminate.
  - intros H. rewrite H in B. discriminate.
Qed.

Lemma fold_normalize_keeps (l : list StrField) (g : StrField) (p : Place) :
  strip (get_str g p) <> [] ->
  get_str g (fold_left (fun q f => normalize_field f q) l p) = get_str g p.
Proof.
  revert p; induction l as [|f l IH]; intros p H; simpl; [reflexivity|].
  rewrite IH; rewrite normalize_field_keeps; auto.
Qed.

Lemma fold_normalize_good (l : list StrField) (g : StrField) (p : Place) :
  In g l ->
  strip (get_str g (fold_left (fun q f => normalize_field f q) l p)) <> [].
Proof.
  revert p; induction l as [|f l IH]; intros p; simpl; [tauto|].
  intros [->|H]; [|apply IH; exact H].
  rewrite fold_normalize_keeps; apply normalize_field_good.
Qed.

(** After the final pass no string attribute is empty or blank. *)
Lemma normalize_good (p : Place) (f : StrField) :
  strip (get_str f (exec normalize p)) <> [].
Proof.
  unfold exec, normalize. rewrite for_each_modify.
  change (snd (?a, ?b)) with b.
  apply fold_normalize_good, all_str_fields.
Qed.

Lemma strip_nonempty (s : str) : strip s <> [] -> s <> [].
Proof. intros H E; subst s; apply H; reflexivity. Qed.

(** ** [extract_place] does not raise *)

Lemma total_set_origin : total set_origin.
Proof. apply total_bind; [|intros _]; apply total_modify. Qed.

Lemma total_set_coordinates (link : str) : total (set_coordinates link).
Proof. apply total_try_except, total_set_origin. Qed.

Lemma total_parse_weekly_hours (lower : str -> str) (h : HoursProbe) :
  total (parse_weekly_hours lower h).
Proof. apply total_try_except, total_ret. Qed.

Lemma total_extract_social_links (http : Http) (website_url : str) :
  total (extract_social_links http website_url).
Proof. apply total_try_except, total_ret. Qed.

Lemma total_set_address_parts : total set_address_parts.
Proof.
  apply total_bind; [apply total_get_place|]. intros p.
  destruct (if truthy (address p) then _ else _) as [[c z] k].
  repeat (apply total_bind; [apply total_modify | intros _]).
  apply total_modify.
Qed.

Lemma total_normalize : total normalize.
Proof. apply total_for_each. intros f. apply total_modify. Qed.

Lemma total_extract_place_fields (lower : str -> str) (v : ListingView) (http : Http)
      (user_input : str) (index : nat) (link : str) :
  total (extract_place_fields lower v http user_input index link).
Proof.
  unfold extract_place_fields.
  repeat (apply total_bind; [apply total_modify | intros _]).
  repeat (apply total_bind; [apply total_extract_text | intros ?];
          apply total_bind; [apply total_modify | intros _]).
  apply total_bind; [apply total_try_except, total_modify | intros _].
  apply total_bind; [apply total_try_except, total_modify | intros _].
  apply total_bind; [apply total_try_except, total_modify | intros _].
  apply total_bind; [apply total_set_coordinates | intros _].
  apply total_bind; [apply total_set_address_parts | intros _].
  apply total_bind; [apply total_parse_weekly_hours | intros _].
  apply total_bind; [apply total_get_place | intros p].
  destruct (truthy (website p));
    [apply total_extract_social_links | apply total_ret].
Qed.

(** [extract_place] returns the record built field by field and then passed
    through the final pass. *)
Lemma extract_place_eq (lower : str -> str) (v : ListingView) (http : Http)
      (user_input : str) (index : nat) (link : str) :
  extract_place lower v http user_input index link =
  Ok (exec normalize
           (exec (extract_place_fields lower v http user_input index link)
                 new_place)).
Proof.
  unfold extract_place, extract_place_body, bind, exec.
  destruct (total_extract_place_fields lower v http user_input index link new_place)
    as (a & q & E).
  rewrite E. destruct (total_normalize q) as (b & p & E2).
  change (snd (Ok a, q)) with q. rewrite E2. reflexivity.
Qed.

(** C2.  Whatever the page and the web answer, [extract_place] returns a
    record, and no string attribute of it is empty (nor blank). *)
Theorem extract_place_never_raises (lower : str -> str) (v : ListingView)
        (http : Http) (user_input : str) (index : nat) (link : str) :
  exists p,
    extract_place lower v http user_input index link = Ok p /\
    forall f, get_str f p <> [] /\ strip (get_str f p) <> [].
Proof.
  eexists. split; [apply extract_place_eq|]. intros f.
  pose proof (normalize_good
                (exec (extract_place_fields lower v http user_input index link)
                      new_place) f) as G.
  split; [apply strip_nonempty|]; exact G.
Qed.

(** ** The hours of a day *)

Lemma match_here_lit (s sn rs : str) :
  match_here (Lit s) sn rs =
  if startswith rs s then Some (RMatch (length sn) s []) else None.
Proof.
  unfold match_here, startswith; simpl.
  destruct (strip_prefix s rs) as [r|] eqn:E; [|reflexivity].
  apply strip_prefix_app in E; subst rs. simpl.
  rewrite length_app, Nat.add_sub.
  rewrite firstn_app, firstn_all, Nat.sub_diag; simpl.
  rewrite app_nil_r; reflexivity.
Qed.

Lemma match_here_alt (r1 r2 : regex) (sn rs : str) :
  match_here (Alt r1 r2) sn rs =
  match match_here r1 sn rs with
  | Some m => Some m
  | None => match_here r2 sn rs
  end.
Proof. reflexivity. Qed.

Lemma separator_nonempty (sep : str) : In sep separators -> sep <> [].
Proof.
  intros H E; subst sep. simpl in H.
  repeat (destruct H as [H|H]; [discriminate H|]). contradiction.
Qed.

(** At a cursor the separator pattern matches a non-empty text, or no
    separator starts there. *)
Lemma match_here_separator (sn rs : str) :
  match match_here hours_separator sn rs with
  | Some m => m_text m <> []
  | None => forall sep post, In sep separators -> rs <> sep ++ post
  end.
Proof.
  unfold hours_separator. rewrite !match_here_alt, !match_here_lit.
  destruct (startswith rs en_dash) eqn:E1; [discriminate|].
  destruct (startswith rs (lit "-")) eqn:E2; [discriminate|].
  destruct (startswith rs (lit "to")) eqn:E3; [discriminate|].
  intros sep post Hin Hrs.
  assert (S : startswith rs sep = true) by (apply startswith_app; eauto).
  simpl in Hin. destruct Hin as [<-|[<-|[<-|[]]]]; congruence.
Qed.

Lemma separator_free_infix (a u b : str) :
  separator_free (a ++ u ++ b) -> separator_free u.
Proof.
  intros H sep pre post Hin E. subst u.
  apply (H sep (a ++ pre) (post ++ b) Hin).
  rewrite <- !app_assoc. reflexivity.
Qed.

Lemma separator_free_strip (t : str) : separator_free t -> separator_free (strip t).
Proof.
  intros H. destruct (strip_with_infix is_space t) as (a & b & E).
  rewrite E in H. exact (separator_free_infix _ _ _ H).
Qed.

Lemma separator_free_nil : separator_free [].
Proof.
  intros sep pre post Hin E. apply separator_nonempty in Hin.
  symmetry in E. apply app_eq_nil in E as [_ E].
  apply app_eq_nil in E as [E _]. contradiction.
Qed.

Lemma clean_before_free (t rs : str) : clean_before t rs -> separator_free t.
Proof.
  intros H sep pre post Hin E.
  apply (H pre (sep ++ post) sep (post ++ rs) E); auto.
  - intros N. apply app_eq_nil in N as [N _].
    exact (separator_nonempty _ Hin N).
  - rewrite <- app_assoc; reflexivity.
Qed.

Lemma clean_before_step (t rs : str) (c : char) :
  (t = [] \/ clean_before t (c :: rs)) ->
  (forall sep post, In sep separators -> c :: rs <> sep ++ post) ->
  clean_before (t ++ [c]) rs.
Proof.
  intros Ht Hc t1 t2 sep post E N Hin.
  destruct (exists_last N) as (t2' & x & ->).
  rewrite app_assoc in E. apply app_inj_tail in E as [E <-].
  rewrite <- app_assoc. simpl.
  destruct t2' as [|y t2']; simpl.
  - apply Hc; exact Hin.
  - destruct Ht as [->|Ht].
    + symmetry in E. apply app_eq_nil in E as [_ E]. discriminate.
    + apply (Ht t1 (y :: t2') sep post E); [discriminate | exact Hin].
Qed.

(** Every part that [re.split] cuts is free of separators. *)
Lemma split_from_free (rs : str) :
  forall skip cur sn,
    cur = [] \/ (skip = 0 /\ clean_before (rev cur) rs) ->
    forall part, In part (split_from hours_separator skip cur sn rs) ->
                 separator_free part.
Proof.
  induction rs as [|c rs IH]; intros skip cur sn Inv part; simpl.
  - intros [<-|[]]. destruct Inv as [->|[_ H]].
    + apply separator_free_nil.
    + exact (clean_before_free _ _ H).
  - destruct skip as [|n].
    + pose proof (match_here_separator sn (c :: rs)) as M.
      assert (Free : separator_free (rev cur)).
      { destruct Inv as [->|[_ H]];
          [apply separator_free_nil | exact (clean_before_free _ _ H)]. }
      assert (Step :
        (forall sep post, In sep separators -> c :: rs <> sep ++ post) ->
        In part (split_from hours_separator 0 (c :: cur) (c :: sn) rs) ->
        separator_free part).
      { intros Hc. apply IH. right. split; [reflexivity|]. simpl.
        apply clean_before_step; [|exact Hc].
        destruct Inv as [->|[_ H]]; [left; reflexivity | right; exact H]. }
      destruct (match_here hours_separator sn (c :: rs)) as [m|].
      * destruct (m_text m) as [|x l]; [congruence|]. simpl.
        intros [<-|H]; [exact Free|].
        apply (IH _ _ _ (or_introl eq_refl) _ H).
      * apply Step; exact M.
    + destruct Inv as [->|[N _]]; [|discriminate].
      apply IH. left; reflexivity.
Qed.

Lemma re_split_free (t part : str) :
  In part (re_split hours_separator t) -> separator_free part.
Proof. apply split_from_free. left; reflexivity. Qed.

Lemma time_token_strip (part : str) :
  separator_free part -> truthy (strip part) = true -> time_token (strip part).
Proof.
  intros F T. repeat split.
  - apply truthy_nonempty; exact T.
  - apply strip_idem.
  - apply separator_free_strip; exact F.
Qed.

(** What is stored for a row has one of the forms of [hours_shape]. *)
Lemma hours_text_shape (lower : str -> str) (times_text : str) :
  hours_shape (hours_text lower times_text).
Proof.
  unfold hours_text, hours_shape.
  destruct (_ && _); [auto|].
  destruct (contains (lit "closed") _); [auto|].
  pose proof (re_split_free times_text) as F.
  destruct (re_split hours_separator times_text) as [|p0 [|p1 ps]].
  - simpl. auto.
  - simpl. rewrite andb_false_r. unfold or_else.
    destruct (truthy (strip p0)) eqn:T0; [|auto].
    do 4 right. apply time_token_strip; [apply F; simpl; auto | exact T0].
  - destruct (truthy (strip p0)) eqn:T0; simpl.
    + destruct (truthy (strip p1)) eqn:T1.
      * do 3 right; left. exists (strip p0), (strip p1).
        repeat split; try reflexivity;
          apply time_token_strip; auto; apply F; simpl; auto.
      * unfold or_else; rewrite T0. do 4 right.
        apply time_token_strip; [apply F; simpl; auto | exact T0].
    + unfold or_else; rewrite T0. auto.
Qed.

(** ** Properties kept by the actions *)

Lemma preserves_ret {A : Type} (I : Place -> Prop) (a : A) : preserves I (ret a).
Proof. intros p H; exact H. Qed.

Lemma preserves_lift {A : Type} (I : Place -> Prop) (r : res A) :
  preserves I (lift r).
Proof. intros p H; exact H. Qed.

Lemma preserves_get_place (I : Place -> Prop) : preserves I get_place.
Proof. intros p H; exact H. Qed.

Lemma preserves_modify (I : Place -> Prop) (f : Place -> Place) :
  (forall p, I p -> I (f p)) -> preserves I (modify f).
Proof. intros Hf p H; apply Hf; exact H. Qed.

Lemma preserves_bind {A B : Type} (I : Place -> Prop) (m : M A) (k : A -> M B) :
  preserves I m -> (forall a, preserves I (k a)) -> preserves I (bind m k).
Proof.
  intros Hm Hk p H. specialize (Hm p H). unfold bind.
  destruct (m p) as [[a|] p']; simpl in *; [apply Hk; exact Hm | exact Hm].
Qed.

Lemma preserves_try_except {A : Type} (I : Place -> Prop) (body handler : M A) :
  preserves I body -> preserves I handler -> preserves I (try_except body handler).
Proof.
  intros Hb Hh p H. specialize (Hb p H). unfold try_except.
  destruct (body p) as [[a|] p']; simpl in *; [exact Hb | apply Hh; exact Hb].
Qed.

Lemma preserves_for_each {X : Type} (I : Place -> Prop) (xs : list X)
      (body : X -> M unit) :
  (forall x, preserves I (body x)) -> preserves I (for_each xs body).
Proof.
  intros Hb; induction xs as [|x xs IH]; simpl.
  - apply preserves_ret.
  - apply preserves_bind; auto.
Qed.

(** The structural part of a proof that an action keeps a property; what is
    left are the assignments. *)
Ltac keep :=
  repeat first
    [ apply preserves_ret
    | apply preserves_lift
    | apply preserves_get_place
    | apply preserves_try_except
    | apply preserves_bind; [|intros ?]
    | apply preserves_for_each; intros ?
    | match goal with
      | |- preserves _ (match ?x with _ => _ end) => destruct x
      | |- preserves _ (let '(_, _) := ?x in _) => destruct x
      end ].

(** ** The final pass, field by field *)

Lemma blank_to_dash_idem (s : str) : blank_to_dash (blank_to_dash s) = blank_to_dash s.
Proof.
  unfold blank_to_dash. destruct (str_eqb (strip s) []) eqn:E; [reflexivity|].
  rewrite E; reflexivity.
Qed.

Lemma normalize_field_same (f : StrField) (p : Place) :
  get_str f (normalize_field f p) = blank_to_dash (get_str f p).
Proof.
  rewrite normalize_field_get.
  replace (field_eqb f f) with true by (symmetry; apply field_eqb_eq; reflexivity).
  reflexivity.
Qed.

Lemma normalize_field_other (f g : StrField) (p : Place) :
  f <> g -> get_str g (normalize_field f p) = get_str g p.
Proof.
  intros N. rewrite normalize_field_get.
  destruct (field_eqb f g) eqn:E; [apply field_eqb_eq in E; contradiction|].
  reflexivity.
Qed.

Lemma fold_normalize_get (l : list StrField) (g : StrField) (p : Place) :
  get_str g (fold_left (fun q f => normalize_field f q) l p) =
  if existsb (field_eqb g) l then blank_to_dash (get_str g p) else get_str g p.
Proof.
  revert p; induction l as [|f l IH]; intros p; simpl; [reflexivity|].
  rewrite IH. destruct (field_eqb g f) eqn:E; simpl.
  - apply field_eqb_eq in E; subst f.
    rewrite normalize_field_same, blank_to_dash_idem.
    destruct (existsb _ l); reflexivity.
  - rewrite normalize_field_other; [reflexivity|].
    intros ->. rewrite (proj2 (field_eqb_eq g g) eq_refl) in E. discriminate.
Qed.

(** The final pass turns a blank attribute into ["-"] and leaves the
    others. *)
Lemma normalize_get (p : Place) (f : StrField) :
  get_str f (exec normalize p) = blank_to_dash (get_str f p).
Proof.
  unfold exec, normalize. rewrite for_each_modify.
  change (snd (?a, ?b)) with b.
  rewrite fold_normalize_get.
  destruct f; reflexivity.
Qed.

(** ** The days of the record *)

Lemma strip_head (c : char) (t : str) : is_space c = false -> strip (c :: t) <> [].
Proof.
  intros Hc E. unfold strip, strip_with, rstrip_with, lstrip_with in E.
  simpl drop_while in E at 2. rewrite Hc in E.
  destruct (drop_while_split is_space (rev (c :: t))) as (pre & Hs & Hall).
  apply (f_equal (@rev char)) in E. rewrite rev_involutive in E. simpl rev in E at 2.
  rewrite E, app_nil_r in Hs.
  assert (Hin : In c pre) by (rewrite <- Hs; apply in_rev; rewrite rev_involutive; left; reflexivity).
  rewrite forallb_forall in Hall. apply Hall in Hin. congruence.
Qed.

Lemma time_token_head (a : str) :
  time_token a -> exists c t, a = c :: t /\ is_space c = false.
Proof.
  intros (N & S & _). pose proof (strip_with_head is_space a) as H.
  fold (strip a) in H. rewrite S in H.
  destruct a as [|c t]; [congruence | eauto].
Qed.

Lemma hours_shape_not_blank (s : str) : hours_shape s -> strip s <> [].
Proof.
  intros [->|[->|[->|[(a & b & Ha & _ & ->)|H]]]];
    try (vm_compute; discriminate).
  - destruct (time_token_head a Ha) as (c & t & -> & Hc).
    simpl. apply strip_head; exact Hc.
  - destruct H as (N & S & _). rewrite S; exact N.
Qed.

Lemma days_parsed_set_other (f : Place -> Place) :
  (forall d p, get_str (day_field d) (f p) = get_str (day_field d) p) ->
  forall p, days_parsed p -> days_parsed (f p).
Proof. intros Hf p H d. rewrite Hf. apply H. Qed.

Lemma days_parsed_set_day (key : Day) (v : str) (p : Place) :
  hours_shape v -> days_parsed p -> days_parsed (set_str (day_field key) v p).
Proof.
  intros Hv H d. rewrite get_set_str.
  destruct (field_eqb (day_field key) (day_field d)); [right; exact Hv | apply H].
Qed.

Ltac other_field :=
  apply preserves_modify, days_parsed_set_other;
  let d := fresh "d" in intros d ?; destruct d; reflexivity.

Lemma hours_shape_dash : hours_shape dash.
Proof. left; reflexivity. Qed.

Lemma parse_weekly_hours_days (lower : str -> str) (h : HoursProbe) :
  preserves days_parsed (parse_weekly_hours lower h).
Proof.
  unfold parse_weekly_hours, hours_row. keep;
    (apply preserves_modify; intros p Hp; apply days_parsed_set_day;
     [first [apply hours_shape_dash | apply hours_text_shape] | exact Hp]).
Qed.

Lemma extract_social_links_days (http : Http) (website_url : str) :
  preserves days_parsed (extract_social_links http website_url).
Proof. unfold extract_social_links, sniff. keep; other_field. Qed.

Lemma extract_place_fields_days (lower : str -> str) (v : ListingView) (http : Http)
      (user_input : str) (index : nat) (link : str) :
  preserves days_parsed (extract_place_fields lower v http user_input index link).
Proof.
  unfold extract_place_fields.
  repeat (apply preserves_bind; [|intros ?]);
    try apply parse_weekly_hours_days;
    try (destruct (truthy _); [apply extract_social_links_days | apply preserves_ret]);
    unfold set_rating, set_review_count, set_website, set_coordinates,
      set_both, set_origin, set_address_parts;
    keep; other_field.
Qed.

Lemma days_parsed_new : days_parsed new_place.
Proof. intros d; left; destruct d; reflexivity. Qed.

(** A greedy repetition finds a match whenever some length of it leads
    to one. *)
Lemma many_complete {A : Type} (p : char -> bool) (k : str -> str -> option A) :
  forall mid rs lo sn,
    forallb p mid = true -> lo <= length mid ->
    k (rev mid ++ sn) rs <> None ->
    many p lo None sn (mid ++ rs) k <> None.
Proof.
  induction mid as [|c mid IH]; intros rs lo sn Hp Hlo Hk.
  - simpl in Hlo. assert (lo = 0) as -> by lia. cbn [app rev] in *.
    destruct rs as [|c rs]; cbn [many]; [exact Hk|].
    destruct (p c && true); [|exact Hk].
    destruct (many p (pred 0) (option_map pred None) (c :: sn) rs k); [discriminate | exact Hk].
  - cbn [forallb] in Hp. apply andb_true_iff in Hp as [Hc Hp].
    cbn [app many]. rewrite Hc. cbn [andb].
    assert (M : many p (pred lo) None (c :: sn) (mid ++ rs) k <> None).
    { apply IH; [exact Hp | simpl in Hlo; lia|].
      cbn [rev] in Hk. rewrite <- app_assoc in Hk. exact Hk. }
    cbn [option_map].
    destruct (many p (pred lo) None (c :: sn) (mid ++ rs) k); [discriminate | contradiction].
Qed.

(** Two texts of one line joined by [" to "] have the fourth form. *)
Lemma range_matches (a b : str) :
  a <> [] -> b <> [] -> single_line a = true -> single_line b = true ->
  four_forms (a ++ lit " to " ++ b) = true.
Proof.
  intros Ha Hb La Lb. unfold four_forms.
  assert (M : re_search range_pattern (a ++ lit " to " ++ b) <> None).
  { unfold re_search. 
    assert (H : match_here range_pattern [] (a ++ lit " to " ++ b) <> None).
    { unfold match_here, range_pattern. cbn [run seen rest caps].
      apply many_complete; [exact La | destruct a; [congruence | simpl; lia]|].
      rewrite strip_prefix_self. rewrite <- (app_nil_r b).
      apply many_complete; [exact Lb | destruct b; [congruence | simpl; lia]|].
      discriminate. }
    destruct (a ++ lit " to " ++ b) as [|c rs]; cbn [search_from];
      destruct (match_here range_pattern [] _); congruence. }
  destruct (re_search range_pattern _); [apply orb_true_r | congruence].
Qed.

(** A day has one of the four forms of the specification, or it is a
    time alone or a range over two lines. *)
Lemma hours_shape_forms (s : str) :
  hours_shape s -> four_forms s = true \/ beyond_four_forms s.
Proof.
  intros [->|[->|[->|[(a & b & Ta & Tb & ->)|T]]]]; try (left; reflexivity).
  - destruct (single_line a && single_line b) eqn:L.
    + apply andb_true_iff in L as [La Lb]. left.
      apply range_matches; [apply Ta | apply Tb | exact La | exact Lb].
    + right. right. exists a, b. auto.
  - right. left. exact T.
Qed.

(** The form that [hours_text] gives to a text, by its first two
    parts. *)
Lemma hours_text_parts (lower : str -> str) (times_text : str) :
  hours_text lower times_text =
  if contains (lit "24") (lower times_text) && contains (lit "hour") (lower times_text)
  then lit "Open 24 hours"
  else if contains (lit "closed") (lower times_text) then lit "Closed"
  else if negb (truthy (open_part times_text)) then lit "-"
  else if negb (truthy (close_part times_text)) then open_part times_text
  else open_part times_text ++ lit " to " ++ close_part times_text.
Proof.
  unfold hours_text, open_part, close_part, or_else.
  destruct (_ && _); [reflexivity|].
  destruct (contains (lit "closed") _); [reflexivity|].
  destruct (re_split hours_separator times_text) as [|p0 [|p1 ps]]; cbn [nth].
  - reflexivity.
  - change (strip []) with (@nil char). cbn [truthy negb].
    rewrite andb_false_r. destruct (truthy (strip p0)); reflexivity.
  - destruct (truthy (strip p0)); cbn [andb negb]; [|reflexivity].
    destruct (truthy (strip p1)); reflexivity.
Qed.

(** C3, as the code has it.  After [extract_place] each of the seven days
    is ["-"], ["Closed"], ["Open 24 hours"], two times joined by [" to "],
    or one time alone; a time is a trimmed, non-empty text without an en
    dash, a hyphen or [to].  So a day has one of the four forms of the
    specification, or else it is a time alone, or two times joined by
    [" to "] one of which holds a newline (a text of one line on both
    sides has the fourth form).  Which of the forms a row gets is
    decided by the text before its first separator and the text between
    the first and the second: a time stands alone when the first is not
    blank and the second is blank or missing, whatever follows. *)
Theorem hours_fields_shape (lower : str -> str) (v : ListingView) (http : Http)
        (user_input : str) (index : nat) (link : str) :
  (exists p,
      extract_place lower v http user_input index link = Ok p /\
      forall d,
        hours_shape (get_str (day_field d) p) /\
        (four_forms (get_str (day_field d) p) = true \/
         beyond_four_forms (get_str (day_field d) p))) /\
  (forall a b,
      a <> [] -> b <> [] -> single_line a = true -> single_line b = true ->
      four_forms (a ++ lit " to " ++ b) = true) /\
  (forall times_text,
      hours_text lower times_text =
      if contains (lit "24") (lower times_text) &&
         contains (lit "hour") (lower times_text)
      then lit "Open 24 hours"
      else if contains (lit "closed") (lower times_text) then lit "Closed"
      else if negb (truthy (open_part times_text)) then lit "-"
      else if negb (truthy (close_part times_text)) then open_part times_text
      else open_part times_text ++ lit " to " ++ close_part times_text).
Proof.
  split; [|split; [exact range_matches | exact (hours_text_parts lower)]].
  eexists. split; [apply extract_place_eq|]. intros d.
  assert (H : hours_shape
                (get_str (day_field d)
                   (exec normalize
                      (exec (extract_place_fields lower v http user_input index link)
                            new_place)))).
  { rewrite normalize_get. unfold blank_to_dash.
    pose proof (extract_place_fields_days lower v http user_input index link
                  new_place days_parsed_new d) as [E|H].
    - unfold exec. rewrite E. apply hours_shape_dash.
    - pose proof (hours_shape_not_blank _ H) as N.
      unfold exec.
      destruct (str_eqb _ []) eqn:B; [apply str_eqb_eq in B; contradiction | exact H]. }
  split; [exact H | exact (hours_shape_forms _ H)].
Qed.

(** C3 fails as stated, in two ways.  A row [Monday | 9 AM] leaves
    [9 AM] in [monday_hours], and so does a row [Monday | 9 AM -- 5 PM],
    where nothing stands between the two separators; a cell with two
    ranges on two lines leaves [9 AM to 12 PM], a newline and [1 PM].
    None of these has one of the four forms. *)
Lemma hours_bare_time_not_four_forms :
  (exists p,
      extract_place ascii_lower (hours_view (lit "Monday") (lit "9 AM"))
                    no_web [] 1 [] = Ok p /\
      monday_hours p = lit "9 AM" /\
      four_forms (monday_hours p) = false) /\
  (exists p,
      extract_place ascii_lower (hours_view (lit "Monday") (lit "9 AM -- 5 PM"))
                    no_web [] 1 [] = Ok p /\
      monday_hours p = lit "9 AM" /\
      four_forms (monday_hours p) = false) /\
  (exists p,
      extract_place ascii_lower (hours_view (lit "Monday") two_ranges)
                    no_web [] 1 [] = Ok p /\
      monday_hours p = lit "9 AM to 12 PM" ++ [10%N] ++ lit "1 PM" /\
      four_forms (monday_hours p) = false).
Proof.
  split; [|split]; (eexists; split; [vm_compute; reflexivity|]; split; reflexivity).
Qed.

(** ** Coordinates *)

Lemma establishes_bind_total {A B : Type} (I : Place -> Prop) (m : M A) (k : A -> M B) :
  total m -> (forall a, establishes I (k a)) -> establishes I (bind m k).
Proof.
  intros Hm Hk p. destruct (Hm p) as (a & p' & E).
  unfold bind; rewrite E. apply Hk.
Qed.

Lemma establishes_bind_keep {A B : Type} (I : Place -> Prop) (m : M A) (k : A -> M B) :
  establishes I m -> (forall a, preserves I (k a)) -> establishes I (bind m k).
Proof.
  intros Hm Hk p. specialize (Hm p). unfold bind.
  destruct (m p) as [[a|] p']; simpl in *; [apply Hk; exact Hm | exact Hm].
Qed.

Lemma set_both_run (m : rmatch) (p : Place) :
  let q := snd (try_except (set_both m) set_origin p) in
  (latitude q, longitude q) = parsed_pair m.
Proof.
  unfold try_except, set_both, set_origin, parsed_pair, bind, lift, modify.
  destruct (py_float (group m 1)); [|reflexivity].
  destruct (py_float (group m 2)); reflexivity.
Qed.

(** Whatever the record held, the block leaves in it the coordinates of the
    first pattern when it is found, of the second when only that one is
    found, and the origin otherwise or when a number does not parse. *)
Lemma set_coordinates_run (link : str) (p : Place) :
  let q := snd (set_coordinates link p) in
  (latitude q, longitude q) =
  match re_search at_pattern link with
  | Some m => parsed_pair m
  | None =>
      match re_search data_pattern link with
      | Some m => parsed_pair m
      | None => (0%Q, 0%Q)
      end
  end.
Proof.
  unfold set_coordinates.
  destruct (re_search at_pattern link) as [m|]; [apply set_both_run|].
  destruct (re_search data_pattern link) as [m|]; [apply set_both_run|].
  reflexivity.
Qed.

Lemma set_coordinates_fresh (link : str) (p : Place) :
  let q := snd (set_coordinates link p) in
  (latitude q, longitude q) = coordinates_of_url link.
Proof.
  unfold coordinates_of_url, exec. simpl.
  rewrite (set_coordinates_run link p), (set_coordinates_run link new_place).
  reflexivity.
Qed.

Ltac same_coordinates :=
  apply preserves_modify; let p := fresh "p" in intros p ?; assumption.

Lemma extract_place_fields_coordinates (lower : str -> str) (v : ListingView)
      (http : Http) (user_input : str) (index : nat) (link : str) :
  establishes (fun q => (latitude q, longitude q) = coordinates_of_url link)
              (extract_place_fields lower v http user_input index link).
Proof.
  unfold extract_place_fields.
  repeat (apply establishes_bind_total; [apply total_modify | intros _]).
  repeat (apply establishes_bind_total; [apply total_extract_text | intros ?];
          apply establishes_bind_total; [apply total_modify | intros _]).
  do 3 (apply establishes_bind_total; [apply total_try_except, total_modify | intros _]).
  apply establishes_bind_keep; [intros p; apply set_coordinates_fresh | intros _].
  unfold set_address_parts, parse_weekly_hours, hours_row, extract_social_links, sniff.
  keep; same_coordinates.
Qed.

Lemma normalize_coordinates (c : Q * Q) :
  preserves (fun q => (latitude q, longitude q) = c) normalize.
Proof.
  unfold normalize. apply preserves_for_each. intros f.
  apply preserves_modify. intros p H.
  unfold normalize_field. destruct (str_eqb _ _); exact H.
Qed.

Lemma firstn_app_sub (x y : str) : firstn (length (x ++ y) - length y) (x ++ y) = x.
Proof.
  rewrite length_app, Nat.add_sub, firstn_app, firstn_all, Nat.sub_diag.
  simpl. apply app_nil_r.
Qed.

Lemma strip_prefix_head (b : str) (c : char) (rs : str) :
  match b with d :: _ => d <> c | [] => False end ->
  strip_prefix b (c :: rs) = None.
Proof.
  destruct b as [|d b]; [tauto|]. simpl. intros N.
  destruct (N.eqb_spec d c); [contradiction | reflexivity].
Qed.

(** The matcher on a pair pattern does what [pair_here] says, provided the
    second mark does not start with a coordinate character. *)
Lemma match_here_pair (a b sn rs : str) :
  match b with d :: _ => coord_char d = false | [] => False end ->
  option_map groups_pair (match_here (pair_pattern a b) sn rs) = pair_here a b rs.
Proof.
  intros Hb. unfold match_here, pair_pattern, pair_here. simpl run.
  destruct (strip_prefix a rs) as [r1|] eqn:Ea; [|reflexivity].
  cbn [rest seen caps].
  rewrite many_strict.
  2:{ intros sn' c rs' Hc. cbn [rest seen caps].
      rewrite strip_prefix_head; [reflexivity|].
      destruct b as [|d b]; [exact Hb|]. intros ->. congruence. }
  cbn [rest seen caps].
  destruct (strip_prefix b (drop_while coord_char r1)) as [r2|] eqn:Eb.
  2:{ destruct (1 <=? _); reflexivity. }
  rewrite many_total by discriminate.
  cbn [rest seen caps].
  rewrite !firstn_take_while.
  destruct (take_while coord_char r1) as [|x1 g1]; [reflexivity|].
  destruct (take_while coord_char r2) as [|x2 g2]; reflexivity.
Qed.

Lemma search_from_pair (a b rs sn : str) :
  match b with d :: _ => coord_char d = false | [] => False end ->
  option_map groups_pair (search_from (pair_pattern a b) sn rs) = pair_search a b rs.
Proof.
  intros Hb. revert sn; induction rs as [|c rs IH]; intros sn; simpl;
    rewrite <- (match_here_pair a b sn _ Hb);
    destruct (match_here (pair_pattern a b) sn _); simpl; auto.
Qed.

Lemma parsed_pair_numbers (m : rmatch) : parsed_pair m = numbers (groups_pair m).
Proof. reflexivity. Qed.

(** The coordinates of a link, read on the text of the link. *)
Lemma coordinates_of_url_eq (link : str) :
  coordinates_of_url link =
  match pair_search (lit "@") (lit ",") link with
  | Some g => numbers g
  | None =>
      match pair_search (lit "!3d") (lit "!4d") link with
      | Some g => numbers g
      | None => (0%Q, 0%Q)
      end
  end.
Proof.
  unfold coordinates_of_url.
  pose proof (set_coordinates_run link new_place) as H. simpl in H.
  unfold exec. rewrite H. clear H.
  rewrite <- (search_from_pair (lit "@") (lit ",") link [] eq_refl).
  rewrite <- (search_from_pair (lit "!3d") (lit "!4d") link [] eq_refl).
  change (pair_pattern (lit "@") (lit ",")) with at_pattern.
  change (pair_pattern (lit "!3d") (lit "!4d")) with data_pattern.
  unfold re_search.
  destruct (search_from at_pattern [] link); simpl; [apply parsed_pair_numbers|].
  destruct (search_from data_pattern [] link); simpl; [apply parsed_pair_numbers|].
  reflexivity.
Qed.

Lemma pair_search_contains (a b rs : str) (g : str * str) :
  pair_search a b rs = Some g -> contains a rs = true.
Proof.
  induction rs as [|c rs IH]; simpl; unfold pair_here, startswith;
    destruct (strip_prefix a _); simpl; auto; try discriminate.
Qed.

Lemma pair_search_skip (a0 : char) (a b : str) (c : char) (rs : str) :
  a0 <> c -> pair_search (a0 :: a) b (c :: rs) = pair_search (a0 :: a) b rs.
Proof.
  intros N. cbn [pair_search]. unfold pair_here at 1.
  rewrite strip_prefix_head by exact N. reflexivity.
Qed.

Lemma pair_search_example (pre post : str) :
  forallb (fun c => negb (c =? 64)%N) pre = true ->
  match post with c :: _ => negb (coord_char c) | [] => true end = true ->
  pair_search (lit "@") (lit ",") (pre ++ lit "@24.8,67.0" ++ post)
  = Some (lit "24.8", lit "67.0").
Proof.
  intros Hpre Hpost. induction pre as [|c pre IH].
  - change (lit "@24.8,67.0") with [64; 50; 52; 46; 56; 44; 54; 55; 46; 48]%N.
    destruct post as [|c post]; [reflexivity|].
    apply negb_true_iff in Hpost.
    cbn -[coord_char]. unfold pair_here. cbn -[coord_char].
    change (coord_char 50%N) with true. change (coord_char 52%N) with true.
    change (coord_char 46%N) with true. change (coord_char 56%N) with true.
    change (coord_char 44%N) with false. change (coord_char 54%N) with true.
    change (coord_char 55%N) with true. change (coord_char 48%N) with true.
    cbn -[coord_char]. rewrite Hpost. reflexivity.
  - simpl in Hpre. apply andb_true_iff in Hpre as [Hc Hpre].
    apply negb_true_iff, N.eqb_neq in Hc.
    change (lit "@") with [64%N] in *. cbn [app].
    rewrite pair_search_skip by congruence.
    apply IH; exact Hpre.
Qed.

(** C5.  The coordinates of a record depend on the link alone; they come
    from the first pattern when the link has it, from the second only when
    the first is absent, and are the origin when neither is found or a
    number does not parse. *)
Theorem coordinates_from_link (lower : str -> str) (v : ListingView) (http : Http)
        (user_input : str) (index : nat) (link : str) :
  (exists p,
      extract_place lower v http user_input index link = Ok p /\
      (latitude p, longitude p) = coordinates_of_url link) /\
  coordinates_of_url link =
    match re_search at_pattern link with
    | Some m => parsed_pair m
    | None =>
        match re_search data_pattern link with
        | Some m => parsed_pair m
        | None => (0%Q, 0%Q)
        end
    end /\
  coordinates_of_url link =
    match pair_search (lit "@") (lit ",") link with
    | Some g => numbers g
    | None =>
        match pair_search (lit "!3d") (lit "!4d") link with
        | Some g => numbers g
        | None => (0%Q, 0%Q)
        end
    end /\
  (forall pre post,
      forallb (fun c => negb (c =? 64)%N) pre = true ->
      match post with c :: _ => negb (coord_char c) | [] => true end = true ->
      coordinates_of_url (pre ++ lit "@24.8,67.0" ++ post) = (124 # 5, 67 # 1)%Q) /\
  (contains (lit "@") link = false -> contains (lit "!3d") link = false ->
   coordinates_of_url link = (0%Q, 0%Q)) /\
  coordinates_of_url
    (lit "https://www.google.com/maps/place/Cafe/@24.8,67.0,17z/data=!3m1!4b1")
  = (124 # 5, 67 # 1)%Q /\
  coordinates_of_url (lit "no coords here") = (0%Q, 0%Q).
Proof.
  repeat split.
  - eexists. split; [apply extract_place_eq|].
    apply normalize_coordinates. apply extract_place_fields_coordinates.
  - apply (set_coordinates_run link new_place).
  - apply coordinates_of_url_eq.
  - intros pre post Hpre Hpost.
    rewrite coordinates_of_url_eq, pair_search_example by assumption.
    reflexivity.
  - intros H1 H2. rewrite coordinates_of_url_eq.
    destruct (pair_search (lit "@") _ link) as [g|] eqn:E1.
    { apply pair_search_contains in E1. congruence. }
    destruct (pair_search (lit "!3d") _ link) as [g|] eqn:E2.
    { apply pair_search_contains in E2. congruence. }
    reflexivity.
Qed.

Lemma coordinates_from_link_witness :
  coordinates_of_url (lit "maps/" ++ lit "@24.8,67.0" ++ lit ",17z")
  = (124 # 5, 67 # 1)%Q /\
  coordinates_of_url (lit "plain") = (0%Q, 0%Q).
Proof.
  destruct (coordinates_from_link ascii_lower (hours_view [] []) no_web [] 1 (lit "plain"))
    as (_ & _ & _ & H4 & H5 & _).
  split.
  - apply H4; reflexivity.
  - apply H5; reflexivity.
Defined.

(** ** Social links *)

Lemma strip_prefix_app_l (x y rs : str) :
  strip_prefix (x ++ y) rs =
  match strip_prefix x rs with
  | Some r => strip_prefix y r
  | None => None
  end.
Proof.
  revert rs; induction x as [|c x IH]; intros rs; simpl; [reflexivity|].
  destruct rs as [|d rs]; [reflexivity|].
  destruct (N.eqb c d); [apply IH | reflexivity].
Qed.

(** The end of every social pattern: a run of link characters after a
    prefix [pfx] of the text. *)
Lemma link_run (pfx r : str) (sn0 sn : str) :
  many link_char 1 None sn r
       (fun _ rs' => Some (RMatch (length sn0)
                                 (firstn (length (pfx ++ r) - length rs') (pfx ++ r))
                                 []))
  = if truthy (take_while link_char r)
    then Some (RMatch (length sn0) (pfx ++ take_while link_char r) [])
    else None.
Proof.
  rewrite many_total by discriminate.
  destruct (take_while link_char r) as [|c run] eqn:E; [reflexivity|].
  simpl. f_equal. f_equal.
  assert (R : pfx ++ r = (pfx ++ c :: run) ++ drop_while link_char r)
    by (rewrite <- app_assoc, <- E, <- take_drop_while; reflexivity).
  rewrite R. apply firstn_app_sub.
Qed.

Lemma option_map_orelse {A B : Type} (f : A -> B) (x x2 : option A) (y y2 : option B) :
  option_map f x = y -> option_map f x2 = y2 ->
  option_map f (match x with Some v => Some v | None => x2 end)
  = match y with Some l => Some l | None => y2 end.
Proof. intros <- <-. destruct x; reflexivity. Qed.

Lemma link_here_2 (p1 p2 rs : str) :
  link_here [p1; p2] rs =
  match match strip_prefix p1 rs with
        | Some r => if truthy (take_while link_char r)
                    then Some (p1 ++ take_while link_char r) else None
        | None => None
        end
  with
  | Some l => Some l
  | None =>
      match strip_prefix p2 rs with
      | Some r => if truthy (take_while link_char r)
                  then Some (p2 ++ take_while link_char r) else None
      | None => None
      end
  end.
Proof.
  simpl. destruct (strip_prefix p1 rs) as [r|]; [destruct (truthy _)|];
    destruct (strip_prefix p2 rs) as [r'|]; try destruct (truthy _); reflexivity.
Qed.

(** A literal, then a run of link characters, at the end of a pattern. *)
Lemma run_lit_links (pfx c r0 sn0 sn : str) :
  option_map m_text
    (run (Cat (Lit c) (Rep link_char 1 None)) (MState sn r0 [])
         (fun st' => Some (RMatch (length sn0)
                                  (firstn (length (pfx ++ r0) - length (rest st'))
                                          (pfx ++ r0))
                                  (caps st'))))
  = match strip_prefix (pfx ++ c) (pfx ++ r0) with
    | Some r => if truthy (take_while link_char r)
                then Some ((pfx ++ c) ++ take_while link_char r) else None
    | None => None
    end.
Proof.
  rewrite strip_prefix_app_l, strip_prefix_self.
  simpl run. cbn [rest seen caps].
  destruct (strip_prefix c r0) as [r|] eqn:E; [|reflexivity].
  apply strip_prefix_app in E; subst r0. cbn [rest seen caps].
  rewrite (app_assoc pfx c r), link_run.
  destruct (truthy _); reflexivity.
Qed.

(** [a(?:w)?c[..]+] accepts the links that begin with [awc] or [ac]. *)
Lemma match_here_optional (a w c sn rs : str) :
  option_map m_text
    (match_here (Cat (Lit a) (Cat (Opt (Lit w)) (Cat (Lit c) (Rep link_char 1 None))))
                sn rs)
  = link_here [a ++ w ++ c; a ++ c] rs.
Proof.
  rewrite link_here_2. unfold match_here.
  change (run (Cat (Lit a) ?r) ?st ?k) with (run (Lit a) st (fun st' => run r st' k)).
  cbn [run rest seen caps].
  destruct (strip_prefix a rs) as [r0|] eqn:E0.
  2:{ rewrite !strip_prefix_app_l, E0. reflexivity. }
  apply strip_prefix_app in E0; subst rs.
  pose proof (run_lit_links a c r0 sn (rev a ++ sn)) as Plain.
  cbn [run rest seen caps] in Plain.
  destruct (strip_prefix w r0) as [r1|] eqn:E1.
  - apply strip_prefix_app in E1; subst r0. cbn [rest seen caps].
    pose proof (run_lit_links (a ++ w) c r1 sn (rev w ++ rev a ++ sn)) as Www.
    cbn [run rest seen caps] in Www.
    rewrite <- !app_assoc in Www.
    apply option_map_orelse; [exact Www | exact Plain].
  - replace (strip_prefix (a ++ w ++ c) (a ++ r0)) with (@None str).
    2:{ rewrite strip_prefix_app_l, strip_prefix_self, strip_prefix_app_l, E1.
        reflexivity. }
    exact Plain.
Qed.

(** A literal, a second literal and a run of link characters, at the end
    of a pattern that began with [a]. *)
Lemma run_mid_links (a t c r0 sn0 sn : str) :
  option_map m_text
    (run (Cat (Lit t) (Cat (Lit c) (Rep link_char 1 None))) (MState sn r0 [])
         (fun st' => Some (RMatch (length sn0)
                                  (firstn (length (a ++ r0) - length (rest st'))
                                          (a ++ r0))
                                  (caps st'))))
  = match strip_prefix (a ++ t ++ c) (a ++ r0) with
    | Some r => if truthy (take_while link_char r)
                then Some ((a ++ t ++ c) ++ take_while link_char r) else None
    | None => None
    end.
Proof.
  change (run (Cat (Lit t) ?r) ?st ?k) with (run (Lit t) st (fun st' => run r st' k)).
  cbn [run rest seen caps].
  destruct (strip_prefix t r0) as [r1|] eqn:E1.
  - apply strip_prefix_app in E1; subst r0. cbn [rest seen caps].
    pose proof (run_lit_links (a ++ t) c r1 sn0 (rev t ++ sn)) as H.
    cbn [run rest seen caps] in H. rewrite <- !app_assoc in H. exact H.
  - rewrite strip_prefix_app_l, strip_prefix_self, strip_prefix_app_l, E1.
    reflexivity.
Qed.

(** [a(?:t|x)c[..]+] accepts the links that begin with [atc] or [axc]. *)
Lemma match_here_either (a t x c sn rs : str) :
  option_map m_text
    (match_here (Cat (Lit a) (Cat (Alt (Lit t) (Lit x))
                                  (Cat (Lit c) (Rep link_char 1 None))))
                sn rs)
  = link_here [a ++ t ++ c; a ++ x ++ c] rs.
Proof.
  rewrite link_here_2. unfold match_here.
  change (run (Cat (Lit a) ?r) ?st ?k) with (run (Lit a) st (fun st' => run r st' k)).
  cbn [run rest seen caps].
  destruct (strip_prefix a rs) as [r0|] eqn:E0.
  2:{ rewrite !strip_prefix_app_l, E0. reflexivity. }
  apply strip_prefix_app in E0; subst rs. cbn [rest seen caps].
  apply option_map_orelse.
  - exact (run_mid_links a t c r0 sn (rev a ++ sn)).
  - exact (run_mid_links a x c r0 sn (rev a ++ sn)).
Qed.

Lemma search_from_links (r : regex) (prefixes : list str) :
  (forall sn rs, option_map m_text (match_here r sn rs) = link_here prefixes rs) ->
  forall rs sn, option_map m_text (search_from r sn rs) = link_search prefixes rs.
Proof.
  intros H; induction rs as [|c rs IH]; intros sn; simpl;
    rewrite <- (H sn); destruct (match_here r sn _); simpl; auto.
Qed.

(** Each of the four patterns finds the leftmost link that begins with one
    of its two prefixes. *)
Lemma social_sites_search (f : StrField) (pat : regex) (prefixes : list str) :
  In (f, pat, prefixes) social_sites ->
  forall body, option_map m_text (re_search pat body) = link_search prefixes body.
Proof.
  intros Hin body. unfold re_search. apply search_from_links. clear body.
  simpl in Hin.
  destruct Hin as [E|[E|[E|[E|[]]]]]; injection E as <- <- <-; intros sn rs.
  - apply match_here_optional.
  - apply match_here_optional.
  - apply match_here_optional.
  - exact (match_here_either (lit "https://") (lit "twitter") (lit "x") (lit ".com/") sn rs).
Qed.

Lemma social_sites_https (f : StrField) (pat : regex) (prefixes : list str) :
  In (f, pat, prefixes) social_sites ->
  forall pfx, In pfx prefixes -> startswith pfx (lit "https://") = true.
Proof.
  intros Hin pfx Hp. simpl in Hin.
  destruct Hin as [E|[E|[E|[E|[]]]]]; injection E as <- <- <-;
    simpl in Hp; destruct Hp as [<-|[<-|[]]]; reflexivity.
Qed.

Lemma link_here_prefix (prefixes : list str) (rs l : str) :
  link_here prefixes rs = Some l ->
  exists pfx, In pfx prefixes /\ startswith rs pfx = true.
Proof.
  induction prefixes as [|pfx more IH]; simpl; [discriminate|].
  unfold startswith at 1.
  destruct (strip_prefix pfx rs) as [r|] eqn:E.
  - intros _. exists pfx. split; [auto|]. unfold startswith; rewrite E; reflexivity.
  - intros H. destruct (IH H) as (q & Hq & S). eauto.
Qed.

(** Without an occurrence of one of the prefixes there is no link. *)
Lemma link_search_none (prefixes : list str) (body : str) :
  (forall pfx, In pfx prefixes -> contains pfx body = false) ->
  link_search prefixes body = None.
Proof.
  induction body as [|c body IH]; intros H; simpl.
  - destruct (link_here prefixes []) as [l|] eqn:E; [|reflexivity].
    apply link_here_prefix in E as (pfx & Hp & S).
    specialize (H pfx Hp). simpl in H. rewrite S in H. discriminate.
  - destruct (link_here prefixes (c :: body)) as [l|] eqn:E.
    + apply link_here_prefix in E as (pfx & Hp & S).
      specialize (H pfx Hp). simpl in H. rewrite S in H. discriminate.
    + apply IH. intros pfx Hp. specialize (H pfx Hp). simpl in H.
      apply orb_false_iff in H. tauto.
Qed.

(** The link found is the one at the leftmost cursor where a link stands. *)
Lemma link_search_first (prefixes : list str) (pre tail l : str) :
  link_here prefixes tail = Some l ->
  (forall pre1 post1, pre ++ tail = pre1 ++ post1 -> length pre1 < length pre ->
                      link_here prefixes post1 = None) ->
  link_search prefixes (pre ++ tail) = Some l.
Proof.
  intros Hl. induction pre as [|c pre IH]; intros Hmin.
  - simpl. destruct tail; simpl; rewrite Hl; reflexivity.
  - simpl. rewrite (Hmin [] (c :: pre ++ tail) eq_refl) by (simpl; lia).
    apply IH. intros pre1 post1 E L.
    apply (Hmin (c :: pre1) post1); [simpl; congruence | simpl; lia].
Qed.

Lemma sniff_run (pat : regex) (f : StrField) (html : str) (p : Place) :
  sniff pat f html p =
  (Ok tt, match option_map m_text (re_search pat html) with
          | Some l => set_str f l p
          | None => p
          end).
Proof. unfold sniff. destruct (re_search pat html); reflexivity. Qed.

(** With a page in hand the four attributes are looked for one after the
    other. *)
Lemma extract_social_links_run (http : Http) (website_url body : str) (p : Place) :
  website_url <> [] ->
  http (request_url website_url) = Ok (200, body) ->
  exec (extract_social_links http website_url) p =
  let found pat := option_map m_text (re_search pat body) in
  let put pat f q := match found pat with Some l => set_str f l q | None => q end in
  put x_pattern F_x_url
      (put linkedin_pattern F_linkedin_url
           (put facebook_pattern F_facebook_url
                (put instagram_pattern F_instagram_url p))).
Proof.
  intros Hw Hh. apply truthy_nonempty in Hw.
  unfold exec, extract_social_links, try_except, bind, lift.
  rewrite Hw, Hh. change (200 =? 200) with true. cbn [negb]. cbv beta iota.
  rewrite !sniff_run. reflexivity.
Qed.

Ltac same_field :=
  apply preserves_modify;
  let p := fresh "p" in
  let H := fresh "H" in
  intros p H;
  repeat match goal with d : Day |- _ => destruct d end;
  exact H.

Lemma extract_social_links_unset (http : Http) (website_url : str)
      (f : StrField) (pat : regex) (prefixes : list str) :
  In (f, pat, prefixes) social_sites ->
  (forall url status body pfx,
      http url = Ok (status, body) -> In pfx prefixes -> contains pfx body = false) ->
  preserves (fun q => get_str f q = []) (extract_social_links http website_url).
Proof.
  intros Hin Hweb p H.
  unfold extract_social_links, try_except, bind, lift.
  destruct (truthy website_url); cbn [negb]; cbv beta iota; [|exact H].
  destruct (http (request_url website_url)) as [[status body]|] eqn:E; [|exact H].
  destruct (status =? 200); cbn [negb]; cbv beta iota; [|exact H].
  rewrite !sniff_run.
  assert (N : option_map m_text (re_search pat body) = None).
  { rewrite (social_sites_search f pat prefixes Hin).
    apply link_search_none. intros pfx Hp. exact (Hweb _ _ _ _ E Hp). }
  simpl in Hin.
  destruct Hin as [X|[X|[X|[X|[]]]]]; injection X as <- <- <-;
    rewrite N;
    repeat match goal with
           | |- context [option_map m_text (re_search ?r body)] =>
               destruct (option_map m_text (re_search r body))
           end;
    exact H.
Qed.

Lemma extract_place_fields_unset (lower : str -> str) (v : ListingView) (http : Http)
      (user_input : str) (index : nat) (link : str)
      (f : StrField) (pat : regex) (prefixes : list str) :
  In (f, pat, prefixes) social_sites ->
  (forall url status body pfx,
      http url = Ok (status, body) -> In pfx prefixes -> contains pfx body = false) ->
  preserves (fun q => get_str f q = [])
            (extract_place_fields lower v http user_input index link).
Proof.
  intros Hin Hweb.
  assert (Hs := extract_social_links_unset http).
  unfold extract_place_fields.
  repeat (apply preserves_bind; [|intros ?]);
    try (destruct (truthy _); [apply (Hs _ f pat prefixes Hin Hweb) | apply preserves_ret]);
    clear Hs Hweb; simpl in Hin;
    destruct Hin as [X|[X|[X|[X|[]]]]]; injection X as <- <- <-;
    unfold set_rating, set_review_count, set_website, set_coordinates,
      set_both, set_origin, set_address_parts, parse_weekly_hours, hours_row;
    keep; same_field.
Qed.

(** C9.  Each of the four patterns accepts only links that begin with
    [https://]: a page without such a beginning leaves the attribute as it
    was, and [extract_place] then returns ["-"] for it; a page with such
    links gives the attribute the leftmost of them. *)
Theorem social_links_need_https (f : StrField) (pat : regex) (prefixes : list str) :
  In (f, pat, prefixes) social_sites ->
  (forall pfx, In pfx prefixes -> startswith pfx (lit "https://") = true) /\
  (forall body, option_map m_text (re_search pat body) = link_search prefixes body) /\
  (forall (http : Http) (website_url body : str) (p0 : Place),
      website_url <> [] ->
      http (request_url website_url) = Ok (200, body) ->
      let p := exec (extract_social_links http website_url) p0 in
      get_str f p = match link_search prefixes body with
                    | Some l => l
                    | None => get_str f p0
                    end /\
      ((forall pfx, In pfx prefixes -> contains pfx body = false) ->
       get_str f p = get_str f p0) /\
      (forall pre l post,
          body = pre ++ l ++ post ->
          link_here prefixes (l ++ post) = Some l ->
          (forall pre1 post1, body = pre1 ++ post1 -> length pre1 < length pre ->
                              link_here prefixes post1 = None) ->
          get_str f p = l)) /\
  (forall (lower : str -> str) (v : ListingView) (http : Http)
          (user_input : str) (index : nat) (link : str),
      (forall url status body pfx,
          http url = Ok (status, body) -> In pfx prefixes ->
          contains pfx body = false) ->
      exists q, extract_place lower v http user_input index link = Ok q /\
                get_str f q = lit "-").
Proof.
  intros Hin. split; [exact (social_sites_https f pat prefixes Hin)|].
  split; [exact (social_sites_search f pat prefixes Hin)|].
  split.
  - intros http website_url body p0 Hw Hh p.
    assert (Main : get_str f p = match link_search prefixes body with
                                 | Some l => l
                                 | None => get_str f p0
                                 end).
    { subst p. rewrite (extract_social_links_run http website_url body p0 Hw Hh).
      rewrite <- (social_sites_search f pat prefixes Hin body).
      cbv zeta. simpl in Hin.
      destruct Hin as [X|[X|[X|[X|[]]]]]; injection X as <- <- <-;
        destruct (option_map m_text (re_search instagram_pattern body));
        destruct (option_map m_text (re_search facebook_pattern body));
        destruct (option_map m_text (re_search linkedin_pattern body));
        destruct (option_map m_text (re_search x_pattern body));
        reflexivity. }
    split; [exact Main|]. split.
    + intros Hno. rewrite Main, link_search_none by exact Hno. reflexivity.
    + intros pre l post Hb Hl Hmin. rewrite Main. subst body.
      rewrite (link_search_first prefixes pre (l ++ post) l Hl Hmin). reflexivity.
  - intros lower v http user_input index link Hweb.
    eexists. split; [apply extract_place_eq|].
    rewrite normalize_get.
    assert (E : get_str f (exec (extract_place_fields lower v http user_input index link)
                                new_place) = []).
    { apply (extract_place_fields_unset lower v http user_input index link
                                        f pat prefixes Hin Hweb).
      simpl in Hin.
      destruct Hin as [X|[X|[X|[X|[]]]]]; injection X as <- <- <-; reflexivity. }
    rewrite E. reflexivity.
Qed.

Lemma social_links_need_https_witness :
  get_str F_instagram_url
          (exec (extract_social_links (one_page page_example) (lit "shop.pk")) new_place)
  = lit "https://www.instagram.com/shop_pk?hl=en" /\
  get_str F_facebook_url
          (exec (extract_social_links (one_page page_example) (lit "shop.pk")) new_place)
  = [].
Proof.
  split.
  - destruct (social_links_need_https
                F_instagram_url instagram_pattern (site_prefixes (lit "instagram.com/")))
      as (_ & _ & H & _); [simpl; auto|].
    destruct (H (one_page page_example) (lit "shop.pk") page_example new_place)
      as (M & _); [discriminate | reflexivity |].
    rewrite M. vm_compute. reflexivity.
  - destruct (social_links_need_https
                F_facebook_url facebook_pattern (site_prefixes (lit "facebook.com/")))
      as (_ & _ & H & _); [simpl; auto|].
    destruct (H (one_page page_example) (lit "shop.pk") page_example new_place)
      as (_ & N & _); [discriminate | reflexivity |].
    rewrite N; [reflexivity|].
    intros pfx Hp. simpl in Hp. destruct Hp as [<-|[<-|[]]]; vm_compute; reflexivity.
Defined.

(** ** References seen *)

Lemma known_In (h : str) (urls : list str) : known h urls = true <-> In h urls.
Proof.
  unfold known. rewrite existsb_exists. split.
  - intros (x & Hx & E). apply str_eqb_eq in E. subst x. exact Hx.
  - intros H. exists h. split; [exact H | apply str_eqb_refl].
Qed.

Lemma add_new_app (u a b : list str) : add_new u (a ++ b) = add_new (add_new u a) b.
Proof. revert u; induction a as [|h a IH]; intros u; simpl; auto. Qed.

Lemma add_new_prefix (u hs : list str) : exists extra, add_new u hs = u ++ extra.
Proof.
  revert u; induction hs as [|h hs IH]; intros u; simpl.
  - exists []. symmetry; apply app_nil_r.
  - destruct (known h u); [apply IH|].
    destruct (IH (u ++ [h])) as (e & ->). exists (h :: e).
    rewrite <- app_assoc. reflexivity.
Qed.

Lemma add_new_NoDup (u hs : list str) : NoDup u -> NoDup (add_new u hs).
Proof.
  revert u; induction hs as [|h hs IH]; intros u Hu; simpl; auto.
  destruct (known h u) eqn:K; [apply IH; exact Hu|].
  apply IH. apply NoDup_app; [exact Hu | repeat constructor; auto |].
  intros x Hx [<-|[]]. apply known_In in Hx. congruence.
Qed.

Lemma add_new_In (u hs : list str) (x : str) :
  In x (add_new u hs) <-> In x u \/ In x hs.
Proof.
  revert u; induction hs as [|h hs IH]; intros u; simpl; [tauto|].
  rewrite IH. destruct (known h u) eqn:K.
  - apply known_In in K. split; [tauto|]. intros [H|[<-|H]]; auto.
  - rewrite in_app_iff. simpl. tauto.
Qed.

Lemma add_new_known (u hs : list str) (h : str) :
  known h u = true -> add_new u (h :: hs) = add_new u hs.
Proof. simpl. intros ->. reflexivity. Qed.

Lemma filter_twice (f g : str -> bool) (l : list str) :
  filter f (filter g l) = filter (fun x => g x && f x) l.
Proof.
  induction l as [|x l IH]; simpl; [reflexivity|].
  destruct (g x); simpl; [destruct (f x)|]; rewrite IH; reflexivity.
Qed.

Lemma add_new_filter (u hs : list str) :
  add_new u hs = u ++ first_seen (filter (fun x => negb (known x u)) hs).
Proof.
  unfold first_seen.
  assert (G : forall n l, length l <= n ->
              forall v, add_new v l =
                        v ++ add_new [] (filter (fun x => negb (known x v)) l)).
  { induction n as [|n IH]; intros [|h l] L v; simpl in *;
      try (symmetry; apply app_nil_r); try lia.
    destruct (known h v) eqn:K; simpl; [apply IH; lia|].
    rewrite (IH l) by lia.
    rewrite (IH (filter (fun x => negb (known x v)) l) ltac:(
               pose proof (filter_length_le (fun x => negb (known x v)) l); lia) [h]).
    rewrite <- app_assoc. f_equal. f_equal. f_equal.
    rewrite filter_twice. apply filter_ext. intros x.
    unfold known. rewrite existsb_app. simpl.
    rewrite negb_orb, orb_false_r. reflexivity. }
  exact (G (length hs) hs (le_n _) u).
Qed.

(** The distinct references in order of first appearance: the first text,
    then what remains of the others once its repetitions are removed. *)
Lemma first_seen_cons (h : str) (hs : list str) :
  first_seen (h :: hs) = h :: first_seen (filter (fun x => negb (str_eqb x h)) hs).
Proof.
  unfold first_seen at 1. simpl. rewrite add_new_filter. simpl. f_equal. f_equal.
  apply filter_ext. intros x. unfold known. simpl. rewrite orb_false_r. reflexivity.
Qed.

Lemma first_seen_NoDup (hs : list str) : NoDup (first_seen hs).
Proof. apply add_new_NoDup. constructor. Qed.

Lemma first_seen_In (hs : list str) (x : str) : In x (first_seen hs) <-> In x hs.
Proof. unfold first_seen. rewrite add_new_In. simpl. tauto. Qed.

Lemma scanned_S (feed : nat -> list (option str)) (k : nat) :
  scanned feed (S k) = scanned feed k ++ refs (feed k).
Proof.
  unfold scanned. rewrite seq_S, flat_map_app. simpl. rewrite app_nil_r. reflexivity.
Qed.

Lemma seen_upto_S (feed : nat -> list (option str)) (k : nat) :
  seen_upto feed (S k) = add_new (seen_upto feed k) (refs (feed k)).
Proof. unfold seen_upto, first_seen. rewrite scanned_S. apply add_new_app. Qed.

Lemma seen_upto_grows (feed : nat -> list (option str)) (j k : nat) :
  j <= k -> exists extra, seen_upto feed k = seen_upto feed j ++ extra.
Proof.
  induction 1 as [|k _ (e & IH)].
  - exists []. symmetry; apply app_nil_r.
  - rewrite seen_upto_S, IH.
    destruct (add_new_prefix (seen_upto feed j ++ e) (refs (feed k))) as (e' & ->).
    exists (e ++ e'). symmetry; apply app_assoc.
Qed.

Lemma seen_upto_NoDup (feed : nat -> list (option str)) (k : nat) :
  NoDup (seen_upto feed k).
Proof. apply first_seen_NoDup. Qed.

Lemma stale_same (feed : nat -> list (option str)) (j : nat) :
  stale feed j = true <-> seen_upto feed (S j) = seen_upto feed j.
Proof.
  unfold stale. rewrite Nat.eqb_eq. split; [|intros ->; reflexivity].
  destruct (seen_upto_grows feed j (S j)) as (e & E); [lia|]. rewrite E.
  rewrite length_app. intros L. destruct e; [apply app_nil_r | simpl in L; lia].
Qed.

(** ** One scan *)

Lemma collect_cards_answers (max_listings : nat) (cards : CardsProbe)
      (hs : list (option str)) (todo : list nat) :
  (forall i, In i todo -> card_href cards i = Ok (nth i hs None)) ->
  forall listing_urls added,
    collect_cards max_listings cards todo listing_urls added =
    Ok (collect_pure max_listings (map (fun i => nth i hs None) todo)
                     listing_urls added).
Proof.
  induction todo as [|i todo IH]; intros Hc urls added; simpl; [reflexivity|].
  rewrite (Hc i) by (left; reflexivity). simpl.
  assert (Hc' : forall i, In i todo -> card_href cards i = Ok (nth i hs None))
    by (intros k Hk; apply Hc; right; exact Hk).
  destruct (nth i hs None) as [h|]; [|apply IH; exact Hc'].
  destruct (truthy h && negb (known h urls)); [|apply IH; exact Hc'].
  destruct (cap_reached _ _); [reflexivity | apply IH; exact Hc'].
Qed.

Lemma map_nth_seq (hs : list (option str)) :
  map (fun i => nth i hs None) (seq 0 (length hs)) = hs.
Proof.
  apply nth_ext with (d := None) (d' := None).
  - rewrite length_map, length_seq. reflexivity.
  - intros n Hn. rewrite length_map, length_seq in Hn.
    rewrite (nth_indep _ None (nth 0 hs None)) by (rewrite length_map, length_seq; exact Hn).
    rewrite (map_nth (fun i => nth i hs None) (seq 0 (length hs)) 0 n).
    rewrite seq_nth by exact Hn. reflexivity.
Qed.

Lemma scan_cards_answers (max_listings : nat) (cards : CardsProbe)
      (hs : list (option str)) (listing_urls : list str) :
  answers cards hs ->
  scan_cards max_listings cards listing_urls =
  Ok (collect_pure max_listings hs listing_urls 0).
Proof.
  intros [Hn Hc]. unfold scan_cards. rewrite Hn. simpl.
  rewrite (collect_cards_answers max_listings cards hs).
  - rewrite map_nth_seq. reflexivity.
  - intros i Hi. apply in_seq in Hi. apply Hc. lia.
Qed.

Lemma capped_prefix (max_listings : nat) (u e : list str) :
  max_listings = 0 \/ length u < max_listings ->
  length u <= length (capped max_listings (u ++ e)).
Proof.
  intros H. unfold capped. destruct (max_listings =? 0) eqn:Z.
  - rewrite length_app. lia.
  - apply Nat.eqb_neq in Z. rewrite length_firstn, length_app. lia.
Qed.

(** One scan appends the new references, up to the cap. *)
Lemma collect_pure_capped (max_listings : nat) (hs : list (option str)) :
  forall listing_urls added,
    max_listings = 0 \/ length listing_urls < max_listings ->
    collect_pure max_listings hs listing_urls added =
    let urls := capped max_listings (add_new listing_urls (refs hs)) in
    (urls, added + (length urls - length listing_urls)).
Proof.
  induction hs as [|o hs IH]; intros urls added Hcap; cbv zeta.
  - simpl. unfold capped. destruct (max_listings =? 0) eqn:Z.
    + f_equal. lia.
    + apply Nat.eqb_neq in Z. rewrite firstn_all2 by lia. f_equal. lia.
  - simpl collect_pure.
    destruct o as [h|]; [|apply IH; exact Hcap].
    destruct (truthy h) eqn:T; simpl andb; [|simpl refs; rewrite T; apply IH; exact Hcap].
    simpl refs. rewrite T. simpl app.
    destruct (known h urls) eqn:K; simpl negb; cbv iota.
    { rewrite add_new_known by exact K. apply IH; exact Hcap. }
    simpl add_new. rewrite K.
    destruct (add_new_prefix (urls ++ [h]) (refs hs)) as (e & E).
    unfold cap_reached.
    destruct (0 <? max_listings) eqn:P; simpl andb.
    + apply Nat.ltb_lt in P.
      destruct (max_listings <=? length (urls ++ [h])) eqn:L.
      * apply Nat.leb_le in L. rewrite length_app in L. simpl in L.
        assert (Len : length (urls ++ [h]) = max_listings)
          by (rewrite length_app; simpl; lia).
        unfold capped. replace (max_listings =? 0) with false
          by (symmetry; apply Nat.eqb_neq; lia).
        rewrite E, <- Len, firstn_app, firstn_all, Nat.sub_diag. simpl.
        rewrite app_nil_r. f_equal. rewrite Len. lia.
      * apply Nat.leb_gt in L.
        rewrite IH by (right; exact L). cbv zeta. f_equal.
        pose proof (capped_prefix max_listings (urls ++ [h]) e (or_intror L)) as C.
        rewrite <- E in C. rewrite length_app in *. simpl in *. lia.
    + apply Nat.ltb_ge in P.
      rewrite IH by (left; lia). cbv zeta. f_equal.
      assert (Z : max_listings = 0) by lia.
      pose proof (capped_prefix max_listings (urls ++ [h]) e (or_introl Z)) as C.
      rewrite <- E in C. rewrite length_app in *. simpl in *. lia.
Qed.

(** ** The discovery loop *)

Lemma cap_reached_zero (l : list str) : cap_reached 0 l = false.
Proof. reflexivity. Qed.

Lemma capped_zero (l : list str) : capped 0 l = l.
Proof. reflexivity. Qed.

(** A round whose scan answers: the new references are appended up to the
    cap, then the loop ends at the cap or does its bookkeeping. *)
Lemma discovery_round_answers (w : World) (max_listings j : nat)
      (listing_urls : list str) (no_new_rounds : nat) (hs : list (option str)) :
  answers (scan w j) hs ->
  max_listings = 0 \/ length listing_urls < max_listings ->
  discovery_round w max_listings j listing_urls no_new_rounds =
  Ok (let urls := capped max_listings (add_new listing_urls (refs hs)) in
      if cap_reached max_listings urls then Done urls
      else after_scan w j urls (length urls - length listing_urls) no_new_rounds).
Proof.
  intros Ha Hcap. unfold discovery_round.
  rewrite (scan_cards_answers _ _ hs _ Ha). simpl res_bind.
  rewrite collect_pure_capped by exact Hcap. cbv zeta. simpl Nat.add.
  set (urls := capped max_listings (add_new listing_urls (refs hs))).
  cbv beta iota.
  destruct (cap_reached max_listings urls); [reflexivity|].
  destruct (max_listings =? 0); reflexivity.
Qed.

Lemma should_stop_quiet (w : World) (s : Session) :
  stop s = false -> pressed w (looks s) = false ->
  should_stop w s = (false, {| stop := false; looks := S (looks s) |}).
Proof. unfold should_stop. intros -> ->. reflexivity. Qed.

Lemma stale_gain (feed : nat -> list (option str)) (j : nat) :
  (length (seen_upto feed (S j)) - length (seen_upto feed j) =? 0) = stale feed j.
Proof.
  unfold stale.
  destruct (seen_upto_grows feed j (S j)) as (e & ->); [lia|].
  rewrite length_app.
  destruct (length e) as [|n] eqn:E.
  - rewrite Nat.add_0_r, Nat.sub_diag, !Nat.eqb_refl. reflexivity.
  - replace (length (seen_upto feed j) + S n - length (seen_upto feed j)) with (S n) by lia.
    symmetry. apply Nat.eqb_neq. lia.
Qed.

Lemma firstn_seen_upto (feed : nat -> list (option str)) (n j k : nat) :
  j <= k -> n <= length (seen_upto feed j) ->
  firstn n (seen_upto feed k) = firstn n (seen_upto feed j).
Proof.
  intros Hjk Hn. destruct (seen_upto_grows feed j k Hjk) as (e & ->).
  rewrite firstn_app. replace (n - length (seen_upto feed j)) with 0 by lia.
  simpl. apply app_nil_r.
Qed.

Lemma discover_S (fuel : nat) (w : World) (max_listings j : nat)
      (listing_urls : list str) (c : nat) (s : Session) :
  discover (S fuel) w max_listings j listing_urls c s =
  let '(f, s1) := should_stop w s in
  if f then Some (Ok (listing_urls, s1))
  else
    match discovery_round w max_listings j listing_urls c with
    | Raise => Some Raise
    | Ok (Done urls) => Some (Ok (urls, s1))
    | Ok (Again urls n) => discover fuel w max_listings (S j) urls n s1
    end.
Proof. reflexivity. Qed.

Lemma no_new_at_S (feed : nat -> list (option str)) (j : nat) :
  no_new_at feed (S j) =
  if stale feed j then
    if MAX_NO_NEW_ROUNDS <=? S (no_new_at feed j) then 0 else S (no_new_at feed j)
  else 0.
Proof. reflexivity. Qed.

Lemma no_new_at_lt (feed : nat -> list (option str)) (j : nat) :
  no_new_at feed j < MAX_NO_NEW_ROUNDS.
Proof.
  destruct j as [|j]; [unfold MAX_NO_NEW_ROUNDS; simpl; lia|].
  rewrite no_new_at_S. destruct (stale feed j); [|unfold MAX_NO_NEW_ROUNDS; lia].
  destruct (MAX_NO_NEW_ROUNDS <=? S (no_new_at feed j)) eqn:M;
    [unfold MAX_NO_NEW_ROUNDS; lia | apply Nat.leb_gt in M; exact M].
Qed.

(** What a round that does not give up leaves of the bookkeeping: the
    loop goes on with the counter of the next round. *)
Lemma after_scan_goes_on (w : World) (feed : nat -> list (option str)) (j : nat)
      (urls : list str) :
  gives_up w feed j = false ->
  after_scan w j urls (length (seen_upto feed (S j)) - length (seen_upto feed j))
             (no_new_at feed j)
  = Again urls (no_new_at feed (S j)).
Proof.
  unfold gives_up, attempts, after_scan. rewrite stale_gain, no_new_at_S.
  destruct (stale feed j); [|reflexivity].
  destruct (MAX_NO_NEW_ROUNDS <=? S (no_new_at feed j)); [|reflexivity].
  cbn [andb]. intros H. apply negb_false_iff in H. rewrite H. reflexivity.
Qed.

(** A round that gives up ends the loop. *)
Lemma after_scan_gives_up (w : World) (feed : nat -> list (option str)) (j : nat)
      (urls : list str) :
  gives_up w feed j = true ->
  after_scan w j urls (length (seen_upto feed (S j)) - length (seen_upto feed j))
             (no_new_at feed j)
  = Done urls.
Proof.
  unfold gives_up, attempts, after_scan. rewrite stale_gain.
  intros H. apply andb_true_iff in H as [H B]. apply andb_true_iff in H as [-> ->].
  apply negb_true_iff in B. rewrite B. reflexivity.
Qed.

(** With a cap: from round [j], if the stop flag stays down, the scans
    answer and the loop does not give up, the loop ends at the round
    where the [n]-th reference appears. *)
Lemma discover_until_cap (w : World) (feed : nat -> list (option str)) (n : nat) :
  forall k j s,
    (forall i, j <= i < j + k -> answers (scan w i) (feed i)) ->
    stop s = false ->
    (forall i, i < k -> pressed w (looks s + i) = false) ->
    (forall i, j <= i -> S i < j + k -> gives_up w feed i = false) ->
    length (seen_upto feed j) < n ->
    n <= length (seen_upto feed (j + k)) ->
    exists fuel s',
      fuel <= k /\
      discover fuel w n j (seen_upto feed j) (no_new_at feed j) s
      = Some (Ok (firstn n (seen_upto feed (j + k)), s')).
Proof.
  induction k as [|k IH]; intros j s Ha Hs Hp Hn Hlt Hge.
  - rewrite Nat.add_0_r in Hge. lia.
  - assert (Q : should_stop w s = (false, {| stop := false; looks := S (looks s) |})).
    { apply should_stop_quiet; [exact Hs|].
      rewrite <- (Nat.add_0_r (looks s)). apply Hp. lia. }
    assert (R : discovery_round w n j (seen_upto feed j) (no_new_at feed j) = _)
      by (apply (discovery_round_answers w n j _ (no_new_at feed j) (feed j));
          [apply Ha; lia | right; exact Hlt]).
    rewrite <- seen_upto_S in R. cbv zeta in R.
    unfold capped in R.
    replace (n =? 0) with false in R by (symmetry; apply Nat.eqb_neq; lia).
    unfold cap_reached in R at 1.
    replace (0 <? n) with true in R by (symmetry; apply Nat.ltb_lt; lia).
    simpl andb in R.
    destruct (n <=? length (firstn n (seen_upto feed (S j)))) eqn:L.
    + (* the cap is reached in this round *)
      apply Nat.leb_le in L. rewrite length_firstn in L.
      exists 1, {| stop := false; looks := S (looks s) |}.
      split; [lia|]. rewrite discover_S, Q, R.
      rewrite (firstn_seen_upto feed n (S j) (j + S k)) by lia. reflexivity.
    + apply Nat.leb_gt in L. rewrite length_firstn in L.
      assert (Lt : length (seen_upto feed (S j)) < n) by lia.
      rewrite firstn_all2 in R by lia.
      assert (Hk : 0 < k).
      { destruct k; [|lia]. rewrite Nat.add_1_r in Hge. lia. }
      rewrite after_scan_goes_on in R by (apply Hn; lia).
      destruct (IH (S j) {| stop := false; looks := S (looks s) |})
        as (fuel & s' & Hf & Hd).
      * intros i Hi. apply Ha. lia.
      * reflexivity.
      * intros i Hi. simpl looks.
        replace (S (looks s) + i) with (looks s + S i) by lia. apply Hp. lia.
      * intros i Hi1 Hi2. apply Hn; lia.
      * exact Lt.
      * replace (S j + k) with (j + S k) by lia. exact Hge.
      * exists (S fuel), s'. split; [lia|]. rewrite discover_S, Q, R.
        replace (j + S k) with (S j + k) by lia. exact Hd.
Qed.

Lemma NoDup_firstn_str (n : nat) (l : list str) : NoDup l -> NoDup (firstn n l).
Proof.
  intros H. rewrite <- (firstn_skipn n l) in H.
  exact (NoDup_app_remove_r _ _ H).
Qed.

Lemma answers_cards_of (hs : list (option str)) : answers (cards_of hs) hs.
Proof. split; [reflexivity | intros i _; reflexivity]. Qed.

Lemma gives_up_false (w : World) (feed : nat -> list (option str)) (j : nat) :
  (attempts feed j = true -> go_to_next_results_page (next_buttons w j) = true) ->
  gives_up w feed j = false.
Proof.
  unfold gives_up. destruct (attempts feed j); [|reflexivity].
  intros H. rewrite H; reflexivity.
Qed.

(** C1, as the code has it.  With a cap [n > 0], if the stop flag is not
    raised, the scans of the rounds up to [r] answer and show at least [n]
    distinct non-empty references, and the loop does not give up before
    (whenever a round before [r] looks for the next page, which it does
    when its counter of rounds without a new reference reaches
    [MAX_NO_NEW_ROUNDS], it finds it), then the loop ends within [r + 1]
    rounds with exactly [n] references: the first [n] in order of first
    appearance, without duplicates. *)
Theorem discovery_collects_first_n (w : World) (feed : nat -> list (option str))
        (n r : nat) (s : Session) :
  0 < n ->
  (forall j, j <= r -> answers (scan w j) (feed j)) ->
  stop s = false ->
  (forall j, j <= r -> pressed w (looks s + j) = false) ->
  (forall j, j < r -> attempts feed j = true ->
             go_to_next_results_page (next_buttons w j) = true) ->
  n <= length (seen_upto feed (S r)) ->
  exists fuel s' urls,
    fuel <= S r /\
    discover fuel w n 0 [] 0 s = Some (Ok (urls, s')) /\
    urls = firstn n (first_seen (scanned feed (S r))) /\
    length urls = n /\
    NoDup urls.
Proof.
  intros Hn Ha Hs Hp Hg Hge.
  destruct (discover_until_cap w feed n (S r) 0 s) as (fuel & s' & Hf & Hd).
  - intros i Hi. apply Ha. lia.
  - exact Hs.
  - intros i Hi. apply Hp. lia.
  - intros i _ Hi. apply gives_up_false, Hg. simpl in Hi. lia.
  - simpl. exact Hn.
  - exact Hge.
  - exists fuel, s', (firstn n (seen_upto feed (S r))).
    split; [exact Hf|]. split; [exact Hd|]. split; [reflexivity|].
    split.
    + rewrite length_firstn. lia.
    + apply NoDup_firstn_str, seen_upto_NoDup.
Qed.

(** A run of seven rounds: the first reference shows in round 0, five
    rounds bring nothing new, round 5 looks for the next page and finds
    it, and the second reference shows in round 6. *)
Lemma discovery_collects_first_n_witness :
  exists fuel s' urls,
    fuel <= 7 /\
    discover fuel (paged_world (fun _ => false) feed_slow) 2 0 [] 0 fresh_session
    = Some (Ok (urls, s')) /\
    urls = firstn 2 (first_seen (scanned feed_slow 7)) /\
    length urls = 2 /\
    NoDup urls.
Proof.
  apply (discovery_collects_first_n (paged_world (fun _ => false) feed_slow) feed_slow 2 6).
  - lia.
  - intros j _. apply answers_cards_of.
  - reflexivity.
  - intros j _. reflexivity.
  - intros j _ _. reflexivity.
  - vm_compute. lia.
Defined.

(** C1 fails as stated.  With a cap of 2 and a feed that shows two
    references, a press of Stop before the first round leaves none; and
    when the second reference only shows after five stale rounds and there
    is no next page, the loop has given up with one. *)
Lemma discovery_stops_short :
  (2 <= length (seen_upto feed_two 1) /\
   discover 10 (plain_world (fun _ => true) feed_two) 2 0 [] 0 fresh_session
   = Some (Ok ([], {| stop := true; looks := 1 |}))) /\
  (2 <= length (seen_upto feed_slow 7) /\
   discover 10 (plain_world (fun _ => false) feed_slow) 2 0 [] 0 fresh_session
   = Some (Ok ([url_a], {| stop := false; looks := 6 |}))).
Proof.
  repeat split; try reflexivity; vm_compute; lia.
Qed.

Lemma seen_upto_In (feed : nat -> list (option str)) (k : nat) (h : str) :
  In h (seen_upto feed k) <-> exists i, i < k /\ In h (refs (feed i)).
Proof.
  unfold seen_upto. rewrite first_seen_In. unfold scanned. rewrite in_flat_map.
  split; intros (i & Hi & Hh); exists i; (split; [|exact Hh]).
  - apply in_seq in Hi. lia.
  - apply in_seq. lia.
Qed.

(** A round is stale when every reference of its scan was seen before. *)
Lemma stale_known (feed : nat -> list (option str)) (j : nat) :
  (forall h, In h (refs (feed j)) -> In h (seen_upto feed j)) ->
  stale feed j = true.
Proof.
  intros H. apply stale_same. rewrite seen_upto_S.
  induction (refs (feed j)) as [|h l IH]; [reflexivity|].
  rewrite add_new_known.
  - apply IH. intros x Hx. apply H. right; exact Hx.
  - apply known_In, H. left; reflexivity.
Qed.

(** Without a cap a round of the loop scans, and the bookkeeping of
    [after_scan] decides. *)
Lemma unlimited_round (w : World) (feed : nat -> list (option str)) (j : nat) :
  answers (scan w j) (feed j) ->
  discovery_round w 0 j (seen_upto feed j) (no_new_at feed j) =
  Ok (after_scan w j (seen_upto feed (S j))
        (length (seen_upto feed (S j)) - length (seen_upto feed j))
        (no_new_at feed j)).
Proof.
  intros Ha.
  rewrite (discovery_round_answers w 0 j _ _ (feed j) Ha) by (left; reflexivity).
  cbv zeta. rewrite capped_zero, cap_reached_zero, <- seen_upto_S. reflexivity.
Qed.

(** Without a cap, with the stop flag down: the loop runs up to the
    first round that gives up and returns what its scans showed. *)
Lemma discover_gives_up (w : World) (feed : nat -> list (option str)) :
  (forall j, answers (scan w j) (feed j)) ->
  forall d j s fuel,
    (forall i, j <= i < j + d -> gives_up w feed i = false) ->
    gives_up w feed (j + d) = true ->
    stop s = false ->
    (forall t, t <= d -> pressed w (looks s + t) = false) ->
    d < fuel ->
    discover fuel w 0 j (seen_upto feed j) (no_new_at feed j) s
    = Some (Ok (seen_upto feed (S (j + d)),
                {| stop := false; looks := looks s + S d |})).
Proof.
  intros Ha. induction d as [|d IH]; intros j s fuel Hn Hg Hs Hp Hf;
    (destruct fuel as [|fuel]; [lia|]);
    rewrite discover_S, (should_stop_quiet w s Hs)
      by (rewrite <- (Nat.add_0_r (looks s)); apply Hp; lia);
    rewrite (unlimited_round w feed j (Ha j)).
  - rewrite Nat.add_0_r in *. rewrite (after_scan_gives_up w feed j _ Hg).
    rewrite Nat.add_1_r. reflexivity.
  - rewrite (after_scan_goes_on w feed j) by (apply Hn; lia).
    rewrite (IH (S j) {| stop := false; looks := S (looks s) |} fuel).
    + cbn [looks]. replace (S j + d) with (j + S d) by lia.
      replace (S (looks s) + S d) with (looks s + S (S d)) by lia. reflexivity.
    + intros i Hi. apply Hn. lia.
    + replace (S j + d) with (j + S d) by lia. exact Hg.
    + reflexivity.
    + intros t Ht. cbn [looks].
      replace (S (looks s) + t) with (looks s + S t) by lia. apply Hp. lia.
    + lia.
Qed.

(** Without a cap, when the stop flag is first seen up at the look of
    round [j + t], before the loop has given up: the loop returns what
    the scans before that round showed. *)
Lemma discover_stopped (w : World) (feed : nat -> list (option str)) :
  (forall j, answers (scan w j) (feed j)) ->
  forall t j s fuel,
    (forall i, j <= i < j + t -> gives_up w feed i = false) ->
    stop s = false ->
    (forall i, i < t -> pressed w (looks s + i) = false) ->
    pressed w (looks s + t) = true ->
    t < fuel ->
    discover fuel w 0 j (seen_upto feed j) (no_new_at feed j) s
    = Some (Ok (seen_upto feed (j + t),
                {| stop := true; looks := looks s + S t |})).
Proof.
  intros Ha. induction t as [|t IH]; intros j s fuel Hn Hs Hq Hp Hf;
    (destruct fuel as [|fuel]; [lia|]); rewrite discover_S.
  - rewrite Nat.add_0_r in *. unfold should_stop. rewrite Hs, Hp. cbn [orb].
    rewrite Nat.add_1_r. reflexivity.
  - rewrite (should_stop_quiet w s Hs)
      by (rewrite <- (Nat.add_0_r (looks s)); apply Hq; lia).
    rewrite (unlimited_round w feed j (Ha j)).
    rewrite (after_scan_goes_on w feed j) by (apply Hn; lia).
    rewrite (IH (S j) {| stop := false; looks := S (looks s) |} fuel).
    + cbn [looks]. replace (S j + t) with (j + S t) by lia.
      replace (S (looks s) + S t) with (looks s + S (S t)) by lia. reflexivity.
    + intros i Hi. apply Hn. lia.
    + reflexivity.
    + intros i Hi. cbn [looks].
      replace (S (looks s) + i) with (looks s + S i) by lia. apply Hq. lia.
    + cbn [looks]. replace (S (looks s) + t) with (looks s + S t) by lia. exact Hp.
    + lia.
Qed.

(** The counter grows by one in each round that brings nothing new, and
    so reaches [MAX_NO_NEW_ROUNDS]. *)
Lemma attempts_within (feed : nat -> list (option str)) :
  forall d j,
    (forall i, j <= i -> stale feed i = true) ->
    S (no_new_at feed j + d) = MAX_NO_NEW_ROUNDS ->
    attempts feed (j + d) = true.
Proof.
  induction d as [|d IH]; intros j Hst Hc.
  - rewrite Nat.add_0_r in *. unfold attempts.
    rewrite Hst by lia. rewrite Hc. rewrite Nat.leb_refl. reflexivity.
  - replace (j + S d) with (S j + d) by lia. apply IH.
    + intros i Hi. apply Hst. lia.
    + rewrite no_new_at_S, Hst by lia.
      replace (MAX_NO_NEW_ROUNDS <=? S (no_new_at feed j)) with false
        by (symmetry; apply Nat.leb_gt; lia).
      lia.
Qed.

Lemma least_true (f : nat -> bool) :
  forall n, f n = true ->
            exists r, r <= n /\ f r = true /\ forall i, i < r -> f i = false.
Proof.
  induction n as [n IH] using lt_wf_ind. intros Hn.
  destruct (existsb f (seq 0 n)) eqn:E.
  - apply existsb_exists in E as (i & Hi & Hf). apply in_seq in Hi.
    destruct (IH i) as (r & Hr & Hfr & Hmin); [lia | exact Hf|].
    exists r. split; [lia|]. split; assumption.
  - exists n. split; [lia|]. split; [exact Hn|].
    intros i Hi. destruct (f i) eqn:F; [|reflexivity].
    rewrite <- E. symmetry. apply existsb_exists. exists i.
    split; [apply in_seq; lia | exact F].
Qed.

(** Once the feed brings nothing new and there is no next page, the
    loop gives up within [MAX_NO_NEW_ROUNDS] rounds. *)
Lemma first_give_up (w : World) (feed : nat -> list (option str)) (K : nat) :
  (forall j, K <= j -> stale feed j = true) ->
  (forall j, K <= j -> go_to_next_results_page (next_buttons w j) = false) ->
  exists r,
    r < K + MAX_NO_NEW_ROUNDS /\
    gives_up w feed r = true /\
    forall i, i < r -> gives_up w feed i = false.
Proof.
  intros Hst Hb.
  pose proof (no_new_at_lt feed K) as Hc.
  assert (G : gives_up w feed (K + (MAX_NO_NEW_ROUNDS - 1 - no_new_at feed K)) = true).
  { unfold gives_up. rewrite attempts_within, Hb by (auto; lia). reflexivity. }
  destruct (least_true (gives_up w feed) _ G) as (r & Hr & Hg & Hmin).
  exists r. split; [unfold MAX_NO_NEW_ROUNDS in *; lia|]. split; assumption.
Qed.

Lemma seen_upto_quiet (feed : nat -> list (option str)) (K : nat) :
  (forall j, K <= j -> stale feed j = true) ->
  forall d, seen_upto feed (K + d) = seen_upto feed K.
Proof.
  intros Hst. induction d as [|d IH]; [rewrite Nat.add_0_r; reflexivity|].
  rewrite Nat.add_succ_r.
  rewrite (proj1 (stale_same feed (K + d))) by (apply Hst; lia). exact IH.
Qed.

(** C6.  Without a cap, against a feed whose scans answer, that shows
    nothing new from round [K] on and whose next-page control fails from
    then on, there is a first round [r] that gives up (it is stale, the
    counter reaches [MAX_NO_NEW_ROUNDS] and no next page is found), and
    [r < K + 5].  With the stop flag down all along, the loop runs the
    rounds 0 to [r], looks at the flag once in each, and returns the
    distinct references of these [r + 1] scans in order of first
    appearance; they are all that the feed ever shows when the loop did
    not give up before the feed went quiet.  When the flag is first seen
    up at the look of round [t <= r], the loop returns the references of
    the [t] scans made before. *)
Theorem unlimited_discovery_terminates (w : World) (feed : nat -> list (option str))
        (K : nat) (s : Session) :
  (forall j, answers (scan w j) (feed j)) ->
  (forall j, K <= j -> stale feed j = true) ->
  (forall j, K <= j -> go_to_next_results_page (next_buttons w j) = false) ->
  stop s = false ->
  exists r,
    r < K + MAX_NO_NEW_ROUNDS /\
    gives_up w feed r = true /\
    (forall i, i < r -> gives_up w feed i = false) /\
    ((forall t, t <= r -> pressed w (looks s + t) = false) ->
     discover (K + MAX_NO_NEW_ROUNDS) w 0 0 [] 0 s
     = Some (Ok (first_seen (scanned feed (S r)),
                 {| stop := false; looks := looks s + S r |}))) /\
    (K <= S r ->
     forall j h, In h (refs (feed j)) -> In h (first_seen (scanned feed (S r)))) /\
    (forall t,
        t <= r ->
        (forall i, i < t -> pressed w (looks s + i) = false) ->
        pressed w (looks s + t) = true ->
        discover (K + MAX_NO_NEW_ROUNDS) w 0 0 [] 0 s
        = Some (Ok (first_seen (scanned feed t),
                    {| stop := true; looks := looks s + S t |}))).
Proof.
  intros Ha Hst Hb Hs.
  destruct (first_give_up w feed K Hst Hb) as (r & Hr & Hg & Hmin).
  exists r. split; [exact Hr|]. split; [exact Hg|]. split; [exact Hmin|].
  split; [|split].
  - intros Hp.
    exact (discover_gives_up w feed Ha r 0 s (K + MAX_NO_NEW_ROUNDS)
             (fun i Hi => Hmin i (proj2 Hi)) Hg Hs Hp Hr).
  - intros HK j h Hh. fold (seen_upto feed (S r)).
    assert (In h (seen_upto feed (S j))) as Hj
        by (apply seen_upto_In; exists j; split; [lia | exact Hh]).
    destruct (Nat.le_gt_cases j r) as [L|L].
    + destruct (seen_upto_grows feed (S j) (S r)) as (e & ->); [lia|].
      apply in_or_app. left. exact Hj.
    + replace (S r) with (K + (S r - K)) by lia.
      rewrite (seen_upto_quiet feed K Hst).
      rewrite <- (seen_upto_quiet feed K Hst (S j - K)).
      replace (K + (S j - K)) with (S j) by lia. exact Hj.
  - intros t Ht Hq Hp.
    exact (discover_stopped w feed Ha t 0 s (K + MAX_NO_NEW_ROUNDS)
             (fun i Hi => Hmin i ltac:(simpl in Hi; lia)) Hs Hq Hp ltac:(lia)).
Qed.

(** Two references in every scan and no next page: the rounds 1 to 5
    bring nothing new, round 5 gives up, and the loop returns the two
    references after six rounds. *)
Lemma unlimited_discovery_terminates_witness :
  exists r,
    r < 1 + MAX_NO_NEW_ROUNDS /\
    gives_up (plain_world (fun _ => false) feed_two) feed_two r = true /\
    (forall i, i < r -> gives_up (plain_world (fun _ => false) feed_two) feed_two i = false) /\
    ((forall t, t <= r ->
                pressed (plain_world (fun _ => false) feed_two)
                        (looks fresh_session + t) = false) ->
     discover (1 + MAX_NO_NEW_ROUNDS) (plain_world (fun _ => false) feed_two) 0 0 [] 0
              fresh_session
     = Some (Ok (first_seen (scanned feed_two (S r)),
                 {| stop := false; looks := looks fresh_session + S r |}))) /\
    (1 <= S r ->
     forall j h, In h (refs (feed_two j)) -> In h (first_seen (scanned feed_two (S r)))) /\
    (forall t,
        t <= r ->
        (forall i, i < t ->
                   pressed (plain_world (fun _ => false) feed_two)
                           (looks fresh_session + i) = false) ->
        pressed (plain_world (fun _ => false) feed_two) (looks fresh_session + t) = true ->
        discover (1 + MAX_NO_NEW_ROUNDS) (plain_world (fun _ => false) feed_two) 0 0 [] 0
                 fresh_session
        = Some (Ok (first_seen (scanned feed_two t),
                    {| stop := true; looks := looks fresh_session + S t |}))).
Proof.
  apply (unlimited_discovery_terminates (plain_world (fun _ => false) feed_two) feed_two 1
           fresh_session).
  - intros j. apply answers_cards_of.
  - intros j Hj. apply stale_known. intros h Hh.
    apply seen_upto_In. exists 0. split; [lia | exact Hh].
  - intros j _. reflexivity.
  - reflexivity.
Defined.

(** ** The cap *)

Lemma cap_not_reached (max_listings : nat) (l : list str) :
  within_cap max_listings l -> cap_reached max_listings l = false ->
  room max_listings l.
Proof.
  unfold within_cap, room, cap_reached. intros [->|H] C; [left; reflexivity|].
  destruct (0 <? max_listings) eqn:P; simpl in C.
  - right. apply Nat.leb_gt in C. exact C.
  - left. apply Nat.ltb_ge in P. lia.
Qed.

Lemma room_within (max_listings : nat) (l : list str) :
  room max_listings l -> within_cap max_listings l.
Proof. unfold room, within_cap. intros [H|H]; [left | right]; lia. Qed.

Lemma collect_cards_within (max_listings : nat) (cards : CardsProbe) (todo : list nat) :
  forall listing_urls added urls added',
    room max_listings listing_urls ->
    collect_cards max_listings cards todo listing_urls added = Ok (urls, added') ->
    within_cap max_listings urls.
Proof.
  induction todo as [|i todo IH]; intros urls0 added urls added' Hr; simpl.
  - intros E; injection E as <- _. apply room_within; exact Hr.
  - destruct (card_href cards i) as [[h|]|]; simpl; try discriminate;
      [|apply IH; exact Hr].
    destruct (truthy h && negb (known h urls0)); [|apply IH; exact Hr].
    assert (W : within_cap max_listings (urls0 ++ [h])).
    { unfold room, within_cap in *. rewrite length_app. simpl.
      destruct Hr; [left | right]; lia. }
    destruct (cap_reached max_listings (urls0 ++ [h])) eqn:C.
    + intros E; injection E as <- _. exact W.
    + apply IH. apply cap_not_reached; assumption.
Qed.

Lemma discovery_round_within (w : World) (max_listings j : nat)
      (listing_urls : list str) (c : nat) (r : Round) :
  room max_listings listing_urls ->
  discovery_round w max_listings j listing_urls c = Ok r ->
  match r with
  | Again urls _ => room max_listings urls
  | Done urls => within_cap max_listings urls
  end.
Proof.
  intros Hr. unfold discovery_round, scan_cards.
  destruct (cards_count (scan w j)) as [n|]; [|discriminate]. simpl.
  destruct (collect_cards _ _ _ _ _) as [[urls added]|] eqn:E; [|discriminate]. simpl.
  pose proof (collect_cards_within _ _ _ _ _ _ _ Hr E) as W.
  destruct (cap_reached max_listings urls) eqn:C.
  - intros H; injection H as <-. exact W.
  - pose proof (cap_not_reached _ _ W C) as R.
    assert (A : forall x, after_scan w j urls added c = x ->
                          match x with
                          | Again u _ => room max_listings u
                          | Done u => within_cap max_listings u
                          end).
    { intros x <-. unfold after_scan.
      destruct (added =? 0); [|exact R].
      destruct (MAX_NO_NEW_ROUNDS <=? S c); [|exact R].
      destruct (go_to_next_results_page _); [exact R | exact W]. }
    destruct (max_listings =? 0); intros H; injection H as H; exact (A _ H).
Qed.

(** Discovery never returns more references than the cap. *)
Lemma discover_within (w : World) (max_listings : nat) :
  forall fuel j listing_urls c s links s1,
    room max_listings listing_urls ->
    discover fuel w max_listings j listing_urls c s = Some (Ok (links, s1)) ->
    within_cap max_listings links.
Proof.
  induction fuel as [|fuel IH]; intros j urls c s links s1 Hr; [discriminate|].
  rewrite discover_S. destruct (should_stop w s) as [f s2]. destruct f.
  - intros E; injection E as <- _. apply room_within; exact Hr.
  - destruct (discovery_round w max_listings j urls c) as [r|] eqn:E; [|discriminate].
    pose proof (discovery_round_within _ _ _ _ _ _ Hr E) as H.
    destruct r as [urls' c'|urls'].
    + apply IH; exact H.
    + intros X; injection X as <- _. exact H.
Qed.

Lemma room_start (max_listings : nat) : room max_listings [].
Proof. unfold room. destruct max_listings; [left; reflexivity | right; simpl; lia]. Qed.


(** ** The loop over the listings *)

Lemma scraped_normalized (lower : str -> str) (w : World) (user_input : str)
      (idx : nat) (link : str) (p : Place) :
  scraped lower w user_input idx link = Ok p -> normalized p.
Proof.
  unfold scraped. destruct (visit w idx link) as [v|]; [|discriminate]. simpl.
  rewrite extract_place_eq. intros E; injection E as <-.
  intros f. apply normalize_good.
Qed.

Lemma scraped_all_length (lower : str -> str) (w : World) (user_input : str)
      (links : list str) :
  forall idx ps,
    scraped_all lower w user_input idx links = Ok ps -> length ps = length links.
Proof.
  induction links as [|link links IH]; intros idx ps; simpl.
  - intros E; injection E as <-. reflexivity.
  - destruct (scraped lower w user_input idx link) as [p|]; [|discriminate]. simpl.
    destruct (scraped_all lower w user_input (S idx) links) as [qs|] eqn:E; [|discriminate].
    simpl. intros H; injection H as <-. simpl. f_equal. exact (IH _ _ E).
Qed.

Lemma scraped_all_normalized (lower : str -> str) (w : World) (user_input : str)
      (links : list str) :
  forall idx ps,
    scraped_all lower w user_input idx links = Ok ps ->
    forall p, In p ps -> normalized p.
Proof.
  induction links as [|link links IH]; intros idx ps; simpl.
  - intros E; injection E as <-. intros p [].
  - destruct (scraped lower w user_input idx link) as [p0|] eqn:E0; [|discriminate]. simpl.
    destruct (scraped_all lower w user_input (S idx) links) as [qs|] eqn:E; [|discriminate].
    simpl. intros H; injection H as <-. intros p [<-|Hp].
    + exact (scraped_normalized _ _ _ _ _ _ E0).
    + exact (IH _ _ E p Hp).
Qed.

Lemma scraped_all_cons (lower : str -> str) (w : World) (user_input : str)
      (idx : nat) (link : str) (links : list str) :
  scraped_all lower w user_input idx (link :: links) =
  res_bind (scraped lower w user_input idx link)
    (fun p => res_bind (scraped_all lower w user_input (S idx) links)
                       (fun ps => Ok (p :: ps))).
Proof. reflexivity. Qed.

Lemma scrape_listings_cons (lower : str -> str) (w : World) (user_input : str)
      (max_listings idx : nat) (link : str) (links : list str)
      (places : list Place) (s : Session) :
  scrape_listings lower w user_input max_listings idx (link :: links) places s =
  if (0 <? max_listings) && (max_listings <? idx) then Ok (places, s)
  else
    res_bind (scraped lower w user_input idx link)
      (fun place =>
         let '(f, s1) := should_stop w s in
         if f then Ok (places ++ [place], s1)
         else
           let '(f, s2) := should_stop w s1 in
           if f then Ok (places ++ [place], s2)
           else scrape_listings lower w user_input max_listings (S idx) links
                                (places ++ [place]) s2).
Proof.
  simpl. destruct (_ && _); [reflexivity|]. unfold scraped.
  destruct (visit w idx link); reflexivity.
Qed.

Lemma below_cap (max_listings idx : nat) :
  max_listings = 0 \/ idx <= max_listings ->
  (0 <? max_listings) && (max_listings <? idx) = false.
Proof.
  intros [->|H]; [reflexivity|].
  apply andb_false_iff. right. apply Nat.ltb_ge. exact H.
Qed.



(** ** The run *)

Lemma clear_stop_down (w : World) (s : Session) :
  stop (clear_stop w s) = false /\ looks (clear_stop w s) = S (looks s).
Proof.
  unfold clear_stop, should_stop.
  destruct (stop s || pressed w (looks s)) eqn:E; simpl; auto.
Qed.

Lemma scrape_places_streamlit_eq (lower : str -> str) (query_q : str -> res (option str))
      (unquote : str -> str) (fuel : nat) (w : World) (user_input name : str)
      (max_listings : nat) (s s1 : Session) (links : list str) :
  output_filename query_q unquote user_input = Ok name ->
  start_browser w = Ok tt ->
  open_results w = Ok tt ->
  discover fuel w max_listings 0 [] 0 s = Some (Ok (links, s1)) ->
  scrape_places_streamlit lower query_q unquote fuel w user_input max_listings s =
  match scrape_listings lower w user_input max_listings 1 links [] (clear_stop w s1) with
  | Raise => Some Raise
  | Ok (places, s2) =>
      match close_browser w with
      | Raise => Some Raise
      | Ok _ => Some (Ok (places, name, s2))
      end
  end.
Proof. unfold scrape_places_streamlit. intros -> -> -> ->. reflexivity. Qed.







(** ** More on the file name *)

Lemma strip_with_fixed (p : char -> bool) (s : str) :
  match s with c :: _ => p c = false | [] => True end ->
  match rev s with c :: _ => p c = false | [] => True end ->
  strip_with p s = s.
Proof.
  intros H1 H2. unfold strip_with, rstrip_with, lstrip_with.
  rewrite (drop_while_fixed p s H1), (drop_while_fixed p (rev s) H2).
  apply rev_involutive.
Qed.

Lemma sub_from_clean (rs : str) :
  forall sn,
    forallb filename_kept rs = true ->
    sub_from filename_unsafe_run (lit "_") 0 sn rs = rs.
Proof.
  induction rs as [|c rs IH]; intros sn H; [reflexivity|].
  simpl in H. apply andb_true_iff in H as [Hc Hrs].
  cbn [sub_from]. unfold filename_unsafe_run at 1. rewrite match_here_run.
  cbn [take_while]. rewrite Hc. cbn [negb]. f_equal. apply IH. exact Hrs.
Qed.

(** What [sanitize_filename] returns is left as it is by a second call. *)
Lemma sanitize_filename_fixed (r : str) :
  r <> [] ->
  (forall c, In c r -> filename_kept c = true) ->
  match r with c :: _ => c <> ch "_" | [] => True end ->
  match rev r with c :: _ => c <> ch "_" | [] => True end ->
  sanitize_filename r = r.
Proof.
  intros Hne Hk Hh Hl. unfold sanitize_filename, re_sub.
  rewrite sub_from_clean by (apply forallb_forall; exact Hk).
  unfold strip_chars. rewrite strip_with_fixed.
  - apply or_else_truthy, truthy_nonempty, Hne.
  - destruct r as [|c r]; [exact I|]. unfold in_chars. simpl.
    apply orb_false_iff. split; [|reflexivity]. apply N.eqb_neq. exact Hh.
  - destruct (rev r) as [|c r']; [exact I|]. unfold in_chars. simpl.
    apply orb_false_iff. split; [|reflexivity]. apply N.eqb_neq. exact Hl.
Qed.

Lemma in_chars_underscore (c : char) : in_chars (lit "_") c = false -> c <> ch "_".
Proof.
  unfold in_chars. simpl. intros H. apply orb_false_iff in H as [H _].
  apply N.eqb_neq. exact H.
Qed.

Lemma sanitize_filename_ends (name : str) :
  match sanitize_filename name with c :: _ => c <> ch "_" | [] => True end /\
  match rev (sanitize_filename name) with c :: _ => c <> ch "_" | [] => True end.
Proof.
  unfold sanitize_filename, or_else.
  set (safe := strip_chars (lit "_") (re_sub filename_unsafe_run (lit "_") name)).
  destruct (truthy safe).
  - pose proof (strip_with_head (in_chars (lit "_"))
                  (re_sub filename_unsafe_run (lit "_") name)) as Hh.
    pose proof (strip_with_last (in_chars (lit "_"))
                  (re_sub filename_unsafe_run (lit "_") name)) as Hl.
    fold (strip_chars (lit "_") (re_sub filename_unsafe_run (lit "_") name)) in Hh, Hl.
    fold safe in Hh, Hl. split.
    + destruct safe; [exact I | apply in_chars_underscore, Hh].
    + destruct (rev safe); [exact I | apply in_chars_underscore, Hl].
  - split; simpl; discriminate.
Qed.

(** X1.  The base of the file name is never empty, it is made of ASCII
    letters, digits, [_], the backslash and [-] only, and it neither
    begins nor ends with [_]. *)
Theorem sanitize_filename_shape (name : str) :
  sanitize_filename name <> [] /\
  (forall c, In c (sanitize_filename name) -> filename_kept c = true) /\
  hd_error (sanitize_filename name) <> Some (ch "_") /\
  hd_error (rev (sanitize_filename name)) <> Some (ch "_").
Proof.
  destruct (sanitize_filename_ends name) as [Hh Hl].
  split; [apply sanitize_filename_nonempty|].
  split; [intros c; apply sanitize_filename_chars|].
  split.
  - revert Hh. destruct (sanitize_filename name); [discriminate|].
    intros Hh E. injection E as ->. apply Hh. reflexivity.
  - revert Hl. destruct (rev (sanitize_filename name)); [discriminate|].
    intros Hl E. injection E as ->. apply Hl. reflexivity.
Qed.

(** X2.  [sanitize_filename] is idempotent: a name that it returned is
    returned unchanged. *)
Theorem sanitize_filename_idempotent (name : str) :
  sanitize_filename (sanitize_filename name) = sanitize_filename name.
Proof.
  destruct (sanitize_filename_ends name) as [Hh Hl].
  apply sanitize_filename_fixed.
  - apply sanitize_filename_nonempty.
  - intros c. apply sanitize_filename_chars.
  - exact Hh.
  - exact Hl.
Qed.

Lemma sub_from_skip_all (r : regex) (new : str) (rs : str) :
  forall sn, sub_from r new (length rs) sn rs = [].
Proof. induction rs as [|c rs IH]; intros sn; [reflexivity | apply IH]. Qed.

Lemma replace_suffix (old new : str) (o : char) (base : str) :
  old <> [] ->
  hd_error old = Some o ->
  ~ In o base ->
  forall sn,
    sub_from (Lit old) new 0 sn (base ++ old) = base ++ new.
Proof.
  intros Hne Ho Hb. induction base as [|c base IH]; intros sn.
  - destruct old as [|o' old']; [congruence|]. cbn [app sub_from].
    rewrite match_here_lit. unfold startswith.
    rewrite (proj2 (strip_prefix_app (o' :: old') (o' :: old') [])) by (symmetry; apply app_nil_r).
    cbn [m_text length]. rewrite sub_from_skip_all. apply app_nil_r.
  - cbn [app sub_from]. rewrite match_here_lit.
    destruct old as [|o' old']; [congruence|]. injection Ho as ->.
    unfold startswith. cbn [app strip_prefix].
    destruct (N.eqb_spec o c) as [->|Hoc]; [exfalso; apply Hb; left; reflexivity|].
    f_equal. apply IH. intros Hin. apply Hb. right. exact Hin.
Qed.

(** X3.  The name offered for the Excel download is the base of the CSV
    name followed by [.xlsx]: the base holds no dot, so the replacement
    of [.csv] acts on the extension alone.  This holds of every name
    that the run computes. *)
Theorem excel_filename_extension (query_q : str -> res (option str))
        (unquote : str -> str) (user_input : str) :
  (forall title,
      excel_filename (sanitize_filename title ++ lit ".csv") =
      sanitize_filename title ++ lit ".xlsx") /\
  (forall name,
      output_filename query_q unquote user_input = Ok name ->
      exists title,
        search_title query_q unquote user_input = Ok title /\
        name = sanitize_filename title ++ lit ".csv" /\
        excel_filename name = sanitize_filename title ++ lit ".xlsx").
Proof.
  assert (A : forall title,
             excel_filename (sanitize_filename title ++ lit ".csv") =
             sanitize_filename title ++ lit ".xlsx").
  { intros title. unfold excel_filename, re_sub.
    apply (replace_suffix (lit ".csv") (lit ".xlsx") (ch ".")).
    - discriminate.
    - reflexivity.
    - intros Hin. apply sanitize_filename_chars in Hin. vm_compute in Hin.
      discriminate Hin. }
  split; [exact A|].
  intros name. unfold output_filename.
  destruct (search_title query_q unquote user_input) as [title|]; [|discriminate].
  cbn [res_bind]. intros E. injection E as <-. exists title.
  split; [reflexivity|]. split; [reflexivity | apply A].
Qed.

(** ** More on the address that is fetched *)

Lemma startswith_http_slashes (u : str) :
  startswith u (lit "http") = true -> startswith u (lit "//") = false.
Proof.
  intros H. apply startswith_app in H as [r ->]. reflexivity.
Qed.

(** X4.  The address requested by [extract_social_links] always begins
    with [http]; an address that already does is requested as it is, so
    that rewriting twice changes nothing more. *)
Theorem request_url_scheme (website_url : str) :
  startswith (request_url website_url) (lit "http") = true /\
  (startswith website_url (lit "http") = true -> request_url website_url = website_url) /\
  request_url (request_url website_url) = request_url website_url.
Proof.
  assert (A : forall u, startswith (request_url u) (lit "http") = true).
  { intros u. unfold request_url.
    destruct (startswith u (lit "//")).
    - reflexivity.
    - destruct (startswith u (lit "http")) eqn:E; [exact E | reflexivity]. }
  assert (B : forall u, startswith u (lit "http") = true -> request_url u = u).
  { intros u H. unfold request_url.
    rewrite (startswith_http_slashes u H), H. reflexivity. }
  split; [apply A|]. split; [apply B|]. apply B, A.
Qed.

(** ** The matcher consumes texts of its pattern *)

Lemma infix_refl (s : str) : infix s s.
Proof. exists [], []. rewrite app_nil_r. reflexivity. Qed.

Lemma infix_trans (a b c : str) : infix a b -> infix b c -> infix a c.
Proof.
  intros (x & y & ->) (x' & y' & ->). exists (x' ++ x), (y ++ y').
  rewrite <- !app_assoc. reflexivity.
Qed.

Lemma infix_In (u s : str) (c : char) : infix u s -> In c u -> In c s.
Proof.
  intros (a & b & ->) H. apply in_or_app. right. apply in_or_app. left. exact H.
Qed.

Lemma infix_app_l (g a b : str) : infix g a -> infix g (a ++ b).
Proof.
  intros (x & y & ->). exists x, (y ++ b). rewrite <- !app_assoc. reflexivity.
Qed.

Lemma infix_app_r (g a b : str) : infix g b -> infix g (a ++ b).
Proof.
  intros (x & y & ->). exists (a ++ x), y. rewrite <- !app_assoc. reflexivity.
Qed.

Lemma many_sound {A : Type} (p : char -> bool) (k : str -> str -> option A) (x : A) :
  forall rs lo hi sn,
    many p lo hi sn rs k = Some x ->
    exists mid rs',
      rs = mid ++ rs' /\
      forallb p mid = true /\
      lo <= length mid /\
      match hi with Some h => length mid <= h | None => True end /\
      k (rev mid ++ sn) rs' = Some x.
Proof.
  assert (Stop : forall rs lo hi sn,
             match lo with O => k sn rs | S _ => None end = Some x ->
             exists mid rs',
               rs = mid ++ rs' /\ forallb p mid = true /\ lo <= length mid /\
               match hi with Some h => length mid <= h | None => True end /\
               k (rev mid ++ sn) rs' = Some x).
  { intros rs lo hi sn H. destruct lo; [|discriminate].
    exists [], rs. repeat split; auto. destruct hi; simpl; [lia | exact I]. }
  induction rs as [|c rs IH]; intros lo hi sn H; cbn [many] in H.
  - apply Stop. exact H.
  - destruct (p c && match hi with Some 0 => false | _ => true end) eqn:E;
      [|apply Stop; exact H].
    destruct (many p (pred lo) (option_map pred hi) (c :: sn) rs k) as [y|] eqn:M;
      [|apply Stop; exact H].
    injection H as ->. apply andb_true_iff in E as [Hc Hhi].
    apply IH in M as (mid & rs' & -> & Hp & Hlo & Hh & Hk).
    exists (c :: mid), rs'. split; [reflexivity|]. split.
    { simpl. rewrite Hc. exact Hp. }
    split; [simpl; lia|]. split.
    { destruct hi as [[|h]|]; simpl in *; [discriminate | lia | exact I]. }
    simpl. rewrite <- app_assoc. exact Hk.
Qed.

Lemma step_of_here (r : regex) (st : mstate) : lang r [] -> ngroups r = 0 -> step_of r st st.
Proof.
  intros L G. exists []. repeat split; auto. exists []. rewrite app_nil_r.
  repeat split; auto. intros g [].
Qed.

Lemma run_sound {A : Type} (r : regex) :
  forall (st : mstate) (k : mstate -> option A) (x : A),
    run r st k = Some x ->
    exists st', step_of r st st' /\ k st' = Some x.
Proof.
  induction r as [s|p|p lo hi|r1 IH1|r1 IH1 r2 IH2|r1 IH1 r2 IH2|r1 IH1| | |];
    intros st k x H; cbn [run] in H.
  - destruct (strip_prefix s (rest st)) as [rs|] eqn:E; [|discriminate].
    apply strip_prefix_app in E. eexists. split; [|exact H].
    exists s. cbn [rest seen caps lang ngroups]. repeat split; auto.
    exists []. rewrite app_nil_r. repeat split; auto. intros g [].
  - destruct (rest st) as [|c rs] eqn:E; [discriminate|].
    destruct (p c) eqn:Hc; [|discriminate].
    eexists. split; [|exact H].
    exists [c]. cbn [rest seen caps lang ngroups]. repeat split; eauto.
    exists []. rewrite app_nil_r. repeat split; auto. intros g [].
  - apply many_sound in H as (mid & rs' & E & Hp & Hlo & Hhi & Hk).
    eexists. split; [|exact Hk].
    exists mid. cbn [rest seen caps lang ngroups]. repeat split; auto.
    exists []. rewrite app_nil_r. repeat split; auto. intros g [].
  - destruct (run r1 st k) as [y|] eqn:E.
    + injection H as ->. apply IH1 in E as (st' & (mid & H1 & H2 & H3 & new & H4 & H5 & H6) & Hk).
      exists st'. split; [|exact Hk].
      exists mid. repeat split; auto. cbn [lang]. auto.
      exists new. repeat split; auto.
    + exists st. split; [|exact H].
      exists []. repeat split; cbn [lang ngroups]; auto.
      exists []. rewrite app_nil_r. repeat split; auto. intros g [].
  - apply IH1 in H as (st1 & (m1 & A1 & A2 & A3 & n1 & A4 & A5 & A6) & H).
    apply IH2 in H as (st2 & (m2 & B1 & B2 & B3 & n2 & B4 & B5 & B6) & H).
    exists st2. split; [|exact H].
    exists (m1 ++ m2). split; [rewrite A1, B1, app_assoc; reflexivity|].
    split; [rewrite B2, A2, rev_app_distr, app_assoc; reflexivity|].
    split; [cbn [lang]; eauto|].
    exists (n1 ++ n2). split; [rewrite B4, A4, app_assoc; reflexivity|].
    split.
    + intros g Hg. apply in_app_or in Hg as [Hg|Hg].
      * apply infix_app_l, A5, Hg.
      * apply infix_app_r, B5, Hg.
    + cbn [ngroups]. intros G. rewrite A6, B6 by lia. reflexivity.
  - destruct (run r1 st k) as [y|] eqn:E.
    + injection H as ->. apply IH1 in E as (st' & (mid & H1 & H2 & H3 & new & H4 & H5 & H6) & Hk).
      exists st'. split; [|exact Hk].
      exists mid. repeat split; auto. cbn [lang]. auto.
      exists new. repeat split; auto. cbn [ngroups]. intros G. apply H6. lia.
    + apply IH2 in H as (st' & (mid & H1 & H2 & H3 & new & H4 & H5 & H6) & Hk).
      exists st'. split; [|exact Hk].
      exists mid. repeat split; auto. cbn [lang]. auto.
      exists new. repeat split; auto. cbn [ngroups]. intros G. apply H6. lia.
  - apply IH1 in H as (st1 & (mid & H1 & H2 & H3 & new & H4 & H5 & H6) & Hk).
    eexists. split; [|exact Hk].
    exists mid. cbn [rest seen caps lang ngroups]. repeat split; auto.
    exists (new ++ [mid]). split.
    + rewrite H4, H1, firstn_app_sub, app_assoc. reflexivity.
    + split; [|discriminate].
      intros g Hg. apply in_app_or in Hg as [Hg|[<-|[]]]; [apply H5, Hg | apply infix_refl].
  - destruct (xorb _ _); [|discriminate].
    exists st. split; [apply step_of_here; reflexivity | exact H].
  - destruct (seen st); [|discriminate].
    exists st. split; [apply step_of_here; reflexivity | exact H].
  - assert (k st = Some x) as Hk.
    { destruct (rest st) as [|c [|d rs]]; try discriminate; auto.
      destruct (c =? 10)%N; [exact H | discriminate]. }
    exists st. split; [apply step_of_here; reflexivity | exact Hk].
Qed.

(** A match found by [re.search] is a text of the pattern that stands in
    the searched text at its offset, and so does every group. *)
Lemma re_search_sound (r : regex) (s : str) (m : rmatch) :
  re_search r s = Some m ->
  lang r (m_text m) /\
  (exists post, s = firstn (m_start m) s ++ m_text m ++ post /\ m_start m <= length s) /\
  forall g, In g (m_groups m) -> infix g (m_text m).
Proof.
  unfold re_search. intros H.
  apply search_from_some in H as (pre & post & -> & Hm & _).
  rewrite app_nil_r in Hm. unfold match_here in Hm.
  apply run_sound in Hm as (st' & (mid & H1 & H2 & H3 & new & H4 & H5 & H6) & Hk).
  injection Hk as <-. cbn [rest seen caps] in *. cbn [m_text m_start m_groups].
  rewrite H1, firstn_app_sub, length_rev, H4.
  split; [exact H3|]. split.
  - exists (rest st'). rewrite firstn_app, Nat.sub_diag, firstn_all, firstn_O, app_nil_r.
    split; [reflexivity|]. rewrite length_app. lia.
  - exact H5.
Qed.

(** ** More on addresses *)

Lemma postal_code_body : postal_code = Cat Wb (Cat (Grp postal_body) Wb).
Proof. reflexivity. Qed.

(** The group of a postal code stands in the searched text and is a text
    of [postal_body]. *)
Lemma postal_code_group (t : str) (m : rmatch) :
  re_search postal_code t = Some m ->
  infix (group m 1) t /\ lang postal_body (group m 1).
Proof.
  unfold re_search. intros H.
  apply search_from_some in H as (pre & post & -> & Hm & _).
  unfold match_here in Hm. rewrite postal_code_body in Hm. cbn [run] in Hm.
  destruct (xorb _ _); [|discriminate].
  apply run_sound in Hm as (st1 & (mid & H1 & H2 & H3 & new & H4 & H5 & H6) & Hk).
  cbn [rest seen caps] in *.
  destruct (xorb _ _); [|discriminate].
  injection Hk as <-. unfold group. cbn [m_groups].
  rewrite H4, (H6 eq_refl), H1, firstn_app_sub. cbn [app nth Nat.sub].
  split; [|exact H3].
  exists pre, (rest st1). reflexivity.
Qed.

Lemma alnum_not_space (c : char) : is_alnum c = true -> is_space c = false.
Proof.
  unfold is_alnum, is_alpha, is_upper, is_lower, is_digit, between, is_space.
  intros H. apply not_true_is_false. intros S.
  repeat rewrite ?orb_true_iff, ?andb_true_iff, ?N.leb_le, ?N.eqb_eq in H.
  repeat rewrite ?orb_true_iff, ?andb_true_iff, ?N.leb_le, ?N.eqb_eq in S.
  lia.
Qed.

Lemma alpha_alnum (c : char) : is_alpha c = true -> is_alnum c = true.
Proof. unfold is_alnum. intros ->. reflexivity. Qed.

Lemma digit_alnum (c : char) : is_digit c = true -> is_alnum c = true.
Proof. unfold is_alnum. intros ->. apply orb_true_r. Qed.

Lemma forallb_weaken (p q : char -> bool) (s : str) :
  (forall c, p c = true -> q c = true) -> forallb p s = true -> forallb q s = true.
Proof.
  intros W H. apply forallb_forall. intros c Hc. apply W.
  rewrite forallb_forall in H. apply H, Hc.
Qed.


Ltac class_of_char :=
  match goal with
  | H : is_alpha ?c = true |- is_alnum ?c = true => exact (alpha_alnum c H)
  | H : is_digit ?c = true |- is_alnum ?c = true => exact (digit_alnum c H)
  | H : is_alnum ?c = true |- is_alnum ?c = true => exact H
  | H : is_alpha ?c = true |- is_alnum ?c || is_space ?c = true =>
      rewrite (alpha_alnum c H); reflexivity
  | H : is_digit ?c = true |- is_alnum ?c || is_space ?c = true =>
      rewrite (digit_alnum c H); reflexivity
  | H : is_alnum ?c = true |- is_alnum ?c || is_space ?c = true =>
      rewrite H; reflexivity
  | H : is_space ?c = true |- is_alnum ?c || is_space ?c = true =>
      rewrite H; apply orb_true_r
  end.

Lemma run_of_digits (z : str) :
  forallb is_digit z = true -> 4 <= length z <= 6 -> postal_shape z.
Proof.
  intros Hd Hl. unfold postal_shape. split; [lia|].
  rewrite forallb_forall in Hd.
  split; [|split; [|split]].
  - destruct z as [|c z]; [simpl in Hl; lia|]. simpl.
    rewrite (Hd c) by (left; reflexivity). reflexivity.
  - apply forallb_forall. intros c Hc. rewrite (digit_alnum c (Hd c Hc)). reflexivity.
  - destruct z as [|c z]; [simpl in Hl; lia|].
    apply digit_alnum, Hd. left; reflexivity.
  - destruct (rev z) as [|c z'] eqn:E.
    + apply (f_equal (@length char)) in E. rewrite length_rev in E. simpl in E. lia.
    + apply digit_alnum, Hd, in_rev. rewrite E. left; reflexivity.
Qed.

Lemma postal_body_shape (z : str) : lang postal_body z -> postal_shape z.
Proof.
  intros [H|H].
  - destruct H as (u1 & u2 & -> & (A1 & A2 & A3) & u3 & u4 & -> & (d1 & -> & D1) &
                  u5 & u6 & -> & O1 & u7 & u8 & -> & O2 & u9 & u10 & -> &
                  (d2 & -> & D2) & (B1 & B2 & B3)).
    destruct u1 as [|a1 [|a2 [|? ?]]]; simpl in A2, A3; try lia;
      destruct u10 as [|b1 [|b2 [|? ?]]]; simpl in B2, B3; try lia;
      simpl in A1, B1;
      repeat match goal with
             | H : _ && _ = true |- _ => apply andb_true_iff in H as [? ?]
             end;
      destruct O1 as [->|(o1 & -> & O1)]; destruct O2 as [->|(o2 & -> & O2)];
      unfold postal_shape; cbn [app length rev];
      (split; [lia|]);
      (split; [apply existsb_exists; exists d1; split; [simpl; tauto | exact D1]|]);
      (split; [apply forallb_forall; intros c Hc; simpl in Hc;
               repeat (destruct Hc as [<-|Hc]; [class_of_char|]); contradiction|]);
      split; class_of_char.
  - destruct H as (Hd & Hlo & Hhi). apply run_of_digits; [exact Hd | lia].
Qed.

Lemma postal_shape_trimmed (z : str) : postal_shape z -> strip z = z.
Proof.
  intros (_ & _ & _ & Hh & Hl). apply strip_with_fixed.
  - destruct z; [exact I | apply alnum_not_space, Hh].
  - destruct (rev z); [exact I | apply alnum_not_space, Hl].
Qed.

Lemma sub_from_nil_In (r : regex) (rs : str) :
  forall skip sn c, In c (sub_from r [] skip sn rs) -> In c rs.
Proof.
  induction rs as [|d rs IH]; intros skip sn c; cbn [sub_from]; [tauto|].
  destruct skip as [|n]; [|intros H; right; exact (IH _ _ _ H)].
  destruct (match_here r sn (d :: rs)) as [m|].
  - destruct (length (m_text m)).
    + intros [<-|H]; [left; reflexivity | right; exact (IH _ _ _ H)].
    + cbn [app]. intros H; right; exact (IH _ _ _ H).
  - intros [<-|H]; [left; reflexivity | right; exact (IH _ _ _ H)].
Qed.

Lemma sub_from_class (p : char -> bool) (rs : str) :
  forall skip sn c, In c (sub_from (Rep p 1 None) [] skip sn rs) -> p c = false.
Proof.
  induction rs as [|d rs IH]; intros skip sn c; cbn [sub_from]; [intros []|].
  destruct skip as [|n]; [|apply IH].
  rewrite match_here_run. cbn [take_while].
  destruct (p d) eqn:E; cbn [m_text length app].
  - apply IH.
  - intros [<-|H]; [exact E | exact (IH _ _ _ H)].
Qed.

Lemma split_on_parts (sep : char) (s : str) :
  exists h t, split_on sep s = h :: t /\
              (exists b, s = h ++ b) /\
              forall part, In part t -> infix part s.
Proof.
  induction s as [|c s (h & t & E & (b & Hb) & Ht)]; cbn [split_on].
  - exists [], []. split; [reflexivity|]. split; [exists []; reflexivity | intros part []].
  - destruct (N.eqb c sep).
    + exists [], (h :: t). rewrite E. split; [reflexivity|].
      split; [exists (c :: s); reflexivity|].
      intros part [<-|H].
      * exists [c], b. simpl. f_equal. exact Hb.
      * destruct (Ht part H) as (x & y & ->). exists (c :: x), y. reflexivity.
    + rewrite E. exists (c :: h), t. split; [reflexivity|].
      split; [exists b; simpl; f_equal; exact Hb|].
      intros part H. destruct (Ht part H) as (x & y & ->). exists (c :: x), y. reflexivity.
Qed.

Lemma split_on_infix (sep : char) (s part : str) :
  In part (split_on sep s) -> infix part s.
Proof.
  destruct (split_on_parts sep s) as (h & t & -> & (b & Hb) & Ht).
  intros [<-|H]; [|exact (Ht part H)].
  exists [], b. exact Hb.
Qed.

Lemma strip_infix (s : str) : infix (strip s) s.
Proof. exact (strip_with_infix is_space s). Qed.

(** A segment of an address is not empty, trimmed and ASCII, and it
    stands in the address once the non-ASCII characters are removed. *)
Lemma address_parts_component (address p : str) :
  In p (address_parts address) ->
  component p /\ infix p (re_sub non_ascii_run [] address).
Proof.
  intros H. pose proof (address_parts_truthy address p H) as T.
  unfold address_parts in H. apply in_map_iff in H as (q & <- & H).
  apply filter_In in H as [H _]. apply split_on_infix in H.
  assert (I : infix (strip q) (re_sub non_ascii_run [] address)).
  { eapply infix_trans; [apply strip_infix|].
    eapply infix_trans; [exact H | apply strip_infix]. }
  split; [|exact I]. split; [apply truthy_nonempty, T|].
  split; [apply strip_idem|].
  apply forallb_forall. intros c Hc.
  apply (infix_In _ _ _ I) in Hc. apply sub_from_class in Hc.
  unfold is_ascii. apply N.leb_le. apply N.ltb_ge in Hc. exact Hc.
Qed.

Lemma component_dash : component dash.
Proof. repeat split. discriminate. Qed.

Lemma component_or_else (s : str) :
  strip s = s -> forallb is_ascii s = true -> component (or_else s dash).
Proof.
  intros Hs Ha. unfold or_else. destruct (truthy s) eqn:T; [|apply component_dash].
  split; [apply truthy_nonempty, T | split; assumption].
Qed.

Lemma forallb_infix (p : char -> bool) (u s : str) :
  infix u s -> forallb p s = true -> forallb p u = true.
Proof.
  intros I H. apply forallb_forall. intros c Hc.
  rewrite forallb_forall in H. apply H. exact (infix_In _ _ _ I Hc).
Qed.

(** The city and the postal code read in a segment [target]. *)
Lemma city_zip_components (target : str) :
  component target ->
  let '(city, zip_code) := city_zip target in
  component (or_else city dash) /\ component (or_else zip_code dash) /\
  (or_else zip_code dash = dash \/
   postal_shape (or_else zip_code dash) /\ infix (or_else zip_code dash) target).
Proof.
  intros (Hne & Htr & Hasc). unfold city_zip.
  destruct (re_search postal_code target) as [m|] eqn:R.
  - apply postal_code_group in R as [I L]. apply postal_body_shape in L.
    rewrite (postal_shape_trimmed _ L).
    assert (Z : or_else (group m 1) dash = group m 1).
    { apply or_else_truthy. destruct (group m 1); [|reflexivity].
      destruct L as ([L _] & _). simpl in L. lia. }
    split; [|split].
    + apply component_or_else; [apply strip_idem|].
      apply forallb_forall. intros c Hc.
      apply strip_with_In, strip_with_In, sub_from_nil_In in Hc.
      rewrite forallb_forall in Hasc. apply Hasc, Hc.
    + apply component_or_else; [apply postal_shape_trimmed, L|].
      exact (forallb_infix _ _ _ I Hasc).
    + right. rewrite Z. split; assumption.
  - split; [|split].
    + rewrite Htr. apply component_or_else; assumption.
    + apply component_dash.
    + left. reflexivity.
Qed.

Lemma parse_address_parts_steps (address : str) :
  parse_address_parts address =
  match address_parts address with
  | [] => (dash, dash, dash)
  | _ :: _ =>
      let '(country, target) := country_target (address_parts address) in
      let '(city, zip_code) := city_zip target in
      (or_else city dash, or_else zip_code dash, or_else country dash)
  end.
Proof.
  unfold parse_address_parts, country_target, city_zip.
  destruct (address_parts address); reflexivity.
Qed.

(** The country is ["-"] or the last segment, and the city is read in a
    segment. *)
Lemma country_target_parts (parts : list str) :
  parts <> [] ->
  let '(country, target) := country_target parts in
  (country = dash \/ In country parts) /\ In target parts.
Proof.
  intros H. unfold country_target.
  assert (L : In (nth (length parts - 1) parts []) parts).
  { apply nth_In. destruct parts; [congruence | simpl; lia]. }
  destruct ((2 <=? length parts) && negb (has_digit _)) eqn:C.
  - apply andb_true_iff in C as [C _]. apply Nat.leb_le in C.
    split; [right; exact L | apply nth_In; lia].
  - split; [left; reflexivity | exact L].
Qed.

Lemma parse_address_parts_all (address : str) :
  let '(city, zip_code, country) := parse_address_parts address in
  component city /\ component zip_code /\ component country.
Proof.
  rewrite parse_address_parts_steps.
  pose proof (address_parts_component address) as P.
  pose proof (country_target_parts (address_parts address)) as K.
  destruct (address_parts address) as [|p0 ps] eqn:E;
    [repeat split; discriminate|].
  rewrite <- E in *.
  destruct (country_target (address_parts address)) as [country target].
  destruct K as [Kc Kt]; [rewrite E; discriminate|].
  pose proof (city_zip_components target (proj1 (P _ Kt))) as T.
  destruct (city_zip target) as [city zip_code].
  destruct T as (T1 & T2 & _). split; [exact T1 | split; [exact T2|]].
  destruct Kc as [->|Kc]; [apply component_dash|].
  destruct (P _ Kc) as [(K1 & K2 & K3) _]. apply component_or_else; assumption.
Qed.

(** X5.  Whatever the address, each of the three components that
    [parse_address_parts] returns is not empty, has no space at either
    end and is ASCII. *)
Theorem parse_address_parts_components (address : str) :
  let '(city, zip_code, country) := parse_address_parts address in
  component city /\ component zip_code /\ component country.
Proof. exact (parse_address_parts_all address). Qed.

(** X6.  The postal code that [parse_address_parts] returns is ["-"], or
    a text of four to eight ASCII letters, digits and spaces that holds a
    digit, begins and ends with a letter or a digit, and stands in the
    address (read without its non-ASCII characters). *)
Theorem parse_address_parts_zip (address : str) :
  let zip_code := snd (fst (parse_address_parts address)) in
  zip_code = dash \/
  postal_shape zip_code /\ infix zip_code (re_sub non_ascii_run [] address).
Proof.
  cbv zeta. rewrite parse_address_parts_steps.
  pose proof (address_parts_component address) as P.
  pose proof (country_target_parts (address_parts address)) as K.
  destruct (address_parts address) as [|p0 ps] eqn:E; [left; reflexivity|].
  rewrite <- E in *.
  destruct (country_target (address_parts address)) as [country target].
  destruct K as [_ Kt]; [rewrite E; discriminate|].
  destruct (P _ Kt) as [Hc Hi].
  pose proof (city_zip_components target Hc) as T.
  destruct (city_zip target) as [city zip_code]. cbn [fst snd].
  destruct T as (_ & _ & [T|[T1 T2]]); [left; exact T | right].
  split; [exact T1 | exact (infix_trans _ _ _ T2 Hi)].
Qed.

Lemma existsb_false_In (p : char -> bool) (s : str) :
  existsb p s = false <-> forall c, In c s -> p c = false.
Proof.
  split.
  - intros H c Hc. destruct (p c) eqn:E; [|reflexivity].
    rewrite <- H. symmetry. apply existsb_exists. eauto.
  - intros H. destruct (existsb p s) eqn:E; [|reflexivity].
    apply existsb_exists in E as (c & Hc & Hp). rewrite (H c Hc) in Hp. discriminate.
Qed.

Lemma no_digit_infix (u s : str) :
  infix u s -> existsb is_digit s = false -> existsb is_digit u = false.
Proof.
  intros I H. apply existsb_false_In. intros c Hc.
  rewrite existsb_false_In in H. apply H. exact (infix_In _ _ _ I Hc).
Qed.

Lemma no_digit_parts (address p : str) :
  existsb is_digit address = false ->
  In p (address_parts address) -> existsb is_digit p = false.
Proof.
  intros H Hp. apply address_parts_component in Hp as [_ I].
  apply existsb_false_In. intros c Hc. apply (infix_In _ _ _ I) in Hc.
  apply sub_from_nil_In in Hc. rewrite existsb_false_In in H. apply H, Hc.
Qed.

(** A segment without a digit holds no postal code: it is the city. *)
Lemma city_zip_no_digit (target : str) :
  strip target = target -> existsb is_digit target = false ->
  city_zip target = (target, dash).
Proof.
  intros Ht Hd. unfold city_zip.
  destruct (re_search postal_code target) as [m|] eqn:R; [|rewrite Ht; reflexivity].
  apply postal_code_group in R as [I L]. apply postal_body_shape in L.
  destruct L as (_ & L & _). rewrite (no_digit_infix _ _ I Hd) in L. discriminate.
Qed.

Lemma country_target_rev (parts : list str) :
  has_digit (last parts []) = false ->
  country_target parts =
  match rev parts with
  | k :: p :: _ => (k, p)
  | [k] => (dash, k)
  | [] => (dash, [])
  end.
Proof.
  unfold country_target. rewrite nth_last. intros ->.
  destruct (rev parts) as [|k [|p r]] eqn:R;
    apply (f_equal (@rev str)) in R; rewrite rev_involutive in R; subst parts;
    try reflexivity.
  cbn [rev]. rewrite last_last, !length_app. cbn [length].
  replace (2 <=? length (rev r) + 1 + 1) with true by (symmetry; apply Nat.leb_le; lia).
  cbn [andb negb]. f_equal.
  rewrite app_nth1 by (rewrite length_app; simpl; lia).
  rewrite app_nth2 by lia.
  replace (length (rev r) + 1 + 1 - 2 - length (rev r)) with 0 by lia. reflexivity.
Qed.

(** X7.  For an address without any digit the parser returns no postal
    code: the last of two or more segments is the country and the one
    before it the city; a single segment is the city, without a
    country. *)
Theorem parse_address_parts_no_digit (address : str) :
  existsb is_digit address = false ->
  parse_address_parts address =
  match rev (address_parts address) with
  | [] => (dash, dash, dash)
  | [p] => (p, dash, dash)
  | k :: p :: _ => (p, dash, k)
  end.
Proof.
  intros H. rewrite parse_address_parts_steps.
  pose proof (no_digit_parts address) as D.
  pose proof (address_parts_component address) as P.
  destruct (address_parts address) as [|p0 ps] eqn:E; [reflexivity|].
  rewrite <- E in *.
  assert (Hin : forall x, In x (rev (address_parts address)) ->
                          strip x = x /\ existsb is_digit x = false /\ or_else x dash = x).
  { intros x Hx. apply in_rev in Hx. destruct (P x Hx) as [(P1 & P2 & _) _].
    split; [exact P2|]. split; [exact (D x H Hx)|].
    apply or_else_truthy, truthy_nonempty, P1. }
  rewrite country_target_rev.
  - destruct (rev (address_parts address)) as [|k [|p r]] eqn:R.
    + apply (f_equal (@rev str)) in R. rewrite rev_involutive, E in R. discriminate.
    + destruct (Hin k) as (K1 & K2 & K3); [left; reflexivity|].
      rewrite (city_zip_no_digit k K1 K2), K3. reflexivity.
    + destruct (Hin k) as (K1 & K2 & K3); [left; reflexivity|].
      destruct (Hin p) as (Q1 & Q2 & Q3); [right; left; reflexivity|].
      rewrite (city_zip_no_digit p Q1 Q2), K3, Q3. reflexivity.
  - rewrite has_digit_existsb. apply (D _ H), last_In. rewrite E. discriminate.
Qed.

Lemma parse_address_parts_no_digit_witness :
  parse_address_parts (lit "Main Road, Karachi, Pakistan") =
  match rev (address_parts (lit "Main Road, Karachi, Pakistan")) with
  | [] => (dash, dash, dash)
  | [p] => (p, dash, dash)
  | k :: p :: _ => (p, dash, k)
  end.
Proof.
  apply (parse_address_parts_no_digit (lit "Main Road, Karachi, Pakistan")).
  reflexivity.
Defined.

(** X8.  With a single segment, or with a digit in the last segment, the
    country is ["-"]. *)
Theorem parse_address_parts_no_country (address : str) :
  length (address_parts address) < 2 \/
  existsb is_digit (last (address_parts address) []) = true ->
  snd (parse_address_parts address) = dash.
Proof.
  intros H. rewrite parse_address_parts_steps.
  destruct (address_parts address) as [|p0 ps] eqn:E; [reflexivity|].
  rewrite <- E in *. unfold country_target. rewrite nth_last, has_digit_existsb.
  replace ((2 <=? length (address_parts address)) &&
           negb (existsb is_digit (last (address_parts address) []))) with false.
  - destruct (city_zip _). reflexivity.
  - symmetry. apply andb_false_iff. destruct H as [H|H].
    + left. apply Nat.leb_gt. exact H.
    + right. rewrite H. reflexivity.
Qed.

Lemma parse_address_parts_no_country_witness :
  snd (parse_address_parts (lit "Main Road, Karachi 75500")) = dash.
Proof.
  apply (parse_address_parts_no_country (lit "Main Road, Karachi 75500")).
  right. reflexivity.
Defined.

(** ** What each step of [extract_place] leaves alone *)

Lemma kept_refl (fs : list StrField) (p : Place) : kept fs p p.
Proof. split; auto. Qed.

Lemma kept_trans (fs : list StrField) (p q r : Place) :
  kept fs p q -> kept fs q r -> kept fs p r.
Proof.
  intros [A1 A2] [B1 B2]. split; [congruence|].
  intros f Hf. rewrite (B2 f Hf). apply A2, Hf.
Qed.

Lemma kept_weaken (fs gs : list StrField) (p q : Place) :
  incl fs gs -> kept fs p q -> kept gs p q.
Proof.
  intros I [A1 A2]. split; [exact A1|]. intros f Hf. apply A2. intros H. apply Hf, I, H.
Qed.

Lemma kept_set_str (fs : list StrField) (g : StrField) (v : str) (p q : Place) :
  In g fs -> kept fs p q -> kept fs p (set_str g v q).
Proof.
  intros Hg [A1 A2]. split; [exact A1|].
  intros f Hf. rewrite get_set_str.
  destruct (field_eqb g f) eqn:E; [|apply A2, Hf].
  apply field_eqb_eq in E. subst. contradiction.
Qed.

Lemma kept_numbers (fs : list StrField) (p q q' : Place) :
  s_no q' = s_no q -> (forall f, get_str f q' = get_str f q) ->
  kept fs p q -> kept fs p q'.
Proof.
  intros H1 H2 [A1 A2]. split; [congruence|]. intros f Hf. rewrite H2. apply A2, Hf.
Qed.

Lemma touches_only_preserves {A : Type} (fs : list StrField) (m : M A) :
  (forall p0, preserves (kept fs p0) m) -> touches_only fs m.
Proof. intros H p. apply H, kept_refl. Qed.

(** A write of an attribute of [fs], or of a numeric attribute. *)
Ltac writes_in :=
  apply preserves_modify;
  let q := fresh "q" in
  let H := fresh "H" in
  intros q H;
  first
    [ apply kept_set_str;
      [ repeat match goal with d : Day |- _ => destruct d end; simpl; tauto | exact H ]
    | apply (kept_numbers _ _ q); [reflexivity | intros f; destruct f; reflexivity | exact H] ].

Lemma set_rating_touches (q : AttrProbe) : touches_only [] (set_rating q).
Proof. apply touches_only_preserves. intros p0. unfold set_rating. keep; writes_in. Qed.

Lemma set_review_count_touches (q : AttrProbe) : touches_only [] (set_review_count q).
Proof. apply touches_only_preserves. intros p0. unfold set_review_count. keep; writes_in. Qed.

Lemma set_website_touches (q : AttrProbe) : touches_only [F_website] (set_website q).
Proof. apply touches_only_preserves. intros p0. unfold set_website. keep; writes_in. Qed.

Lemma set_coordinates_touches (link : str) : touches_only [] (set_coordinates link).
Proof.
  apply touches_only_preserves. intros p0.
  unfold set_coordinates, set_both, set_origin. keep; writes_in.
Qed.

Lemma set_address_parts_touches :
  touches_only [F_city; F_zip_code; F_country] set_address_parts.
Proof.
  apply touches_only_preserves. intros p0. unfold set_address_parts. keep; writes_in.
Qed.

Lemma parse_weekly_hours_touches (lower : str -> str) (h : HoursProbe) :
  touches_only day_fields (parse_weekly_hours lower h).
Proof.
  apply touches_only_preserves. intros p0.
  unfold parse_weekly_hours, hours_row. keep; writes_in.
Qed.

Lemma extract_social_links_touches (http : Http) (website_url : str) :
  touches_only social_fields (extract_social_links http website_url).
Proof.
  apply touches_only_preserves. intros p0.
  unfold extract_social_links, sniff. keep; writes_in.
Qed.

(** ** The steps of [extract_place], one after the other *)

Lemma exec_seq {A B : Type} (m : M A) (k : M B) (p : Place) :
  total m -> exec (bind m (fun _ => k)) p = exec k (exec m p).
Proof.
  intros T. unfold exec, bind. destruct (T p) as (a & p' & ->). reflexivity.
Qed.

Lemma exec_modify {B : Type} (f : Place -> Place) (k : M B) (p : Place) :
  exec (bind (modify f) (fun _ => k)) p = exec k (f p).
Proof. reflexivity. Qed.

Lemma exec_text {B : Type} (q : TextProbe) (k : str -> M B) (p : Place) :
  exec (bind (lift (extract_text q)) k) p = exec (k (text_of q)) p.
Proof.
  unfold exec, bind, lift, text_of.
  destruct (extract_text_ok q) as [s ->]. reflexivity.
Qed.

Lemma exec_get_place {B : Type} (k : Place -> M B) (p : Place) :
  exec (bind get_place k) p = exec (k p) p.
Proof. reflexivity. Qed.

Lemma total_set_rating (q : AttrProbe) : total (set_rating q).
Proof. apply total_try_except, total_modify. Qed.

Lemma total_set_review_count (q : AttrProbe) : total (set_review_count q).
Proof. apply total_try_except, total_modify. Qed.

Lemma total_set_website (q : AttrProbe) : total (set_website q).
Proof. apply total_try_except, total_modify. Qed.

(** The record before the final pass: the attributes read directly, then
    the blocks of [extract_place] in their order. *)
Lemma extract_place_fields_steps (lower : str -> str) (v : ListingView) (http : Http)
      (user_input : str) (index : nat) (link : str) :
  exec (extract_place_fields lower v http user_input index link) new_place =
  let p0 :=
    set_str F_category (text_of (category_probe v))
     (set_str F_phone_number (text_of (phone_probe v))
      (set_str F_address (text_of (address_probe v))
       (set_str F_name (text_of (name_probe v))
        (set_str F_listing_url link
         (set_str F_source user_input (set_s_no index new_place)))))) in
  let p1 := exec (set_rating (rating_probe v)) p0 in
  let p2 := exec (set_review_count (review_probe v)) p1 in
  let p3 := exec (set_website (authority_probe v)) p2 in
  let p4 := exec (set_coordinates link) p3 in
  let p5 := exec set_address_parts p4 in
  let p6 := exec (parse_weekly_hours lower (hours_probe v)) p5 in
  if truthy (website p6)
  then exec (extract_social_links http (website p6)) p6
  else p6.
Proof.
  unfold extract_place_fields.
  rewrite !exec_modify.
  rewrite exec_text, exec_modify, exec_text, exec_modify,
    exec_text, exec_modify, exec_text, exec_modify.
  rewrite exec_seq by apply total_set_rating.
  rewrite exec_seq by apply total_set_review_count.
  rewrite exec_seq by apply total_set_website.
  rewrite exec_seq by apply total_set_coordinates.
  rewrite exec_seq by apply total_set_address_parts.
  rewrite exec_seq by apply total_parse_weekly_hours.
  rewrite exec_get_place. cbv zeta.
  destruct (truthy _); reflexivity.
Qed.

(** ** The attributes of the record *)

Lemma normalize_s_no (p : Place) : s_no (exec normalize p) = s_no p.
Proof.
  unfold exec, normalize. rewrite for_each_modify. cbn [snd].
  generalize str_fields. intros l. revert p.
  induction l as [|f l IH]; intros p; [reflexivity|].
  cbn [fold_left]. rewrite IH. unfold normalize_field.
  destruct (str_eqb _ _); reflexivity.
Qed.

Lemma blank_to_dash_component (s : str) : component s -> blank_to_dash s = s.
Proof.
  intros (H1 & H2 & _). unfold blank_to_dash. rewrite H2.
  destruct (str_eqb s []) eqn:E; [|reflexivity].
  apply str_eqb_eq in E. contradiction.
Qed.

(** The blocks that follow the direct assignments write the website, the
    parts of the address, the days and the social links only. *)
Lemma extract_place_fields_kept (lower : str -> str) (v : ListingView) (http : Http)
      (user_input : str) (index : nat) (link : str) :
  kept ([F_website; F_city; F_zip_code; F_country] ++ day_fields ++ social_fields)
       (direct_record v user_input index link)
       (exec (extract_place_fields lower v http user_input index link) new_place).
Proof.
  rewrite extract_place_fields_steps. fold (direct_record v user_input index link).
  cbv zeta.
  set (p0 := direct_record v user_input index link).
  set (p1 := exec (set_rating (rating_probe v)) p0).
  set (p2 := exec (set_review_count (review_probe v)) p1).
  set (p3 := exec (set_website (authority_probe v)) p2).
  set (p4 := exec (set_coordinates link) p3).
  set (p5 := exec set_address_parts p4).
  set (p6 := exec (parse_weekly_hours lower (hours_probe v)) p5).
  assert (K6 : kept ([F_website; F_city; F_zip_code; F_country] ++ day_fields ++ social_fields)
                    p0 p6).
  { apply (kept_trans _ _ p1);
      [eapply kept_weaken; [|apply set_rating_touches]; intros ? []|].
    apply (kept_trans _ _ p2);
      [eapply kept_weaken; [|apply set_review_count_touches]; intros ? []|].
    apply (kept_trans _ _ p3);
      [eapply kept_weaken; [|apply set_website_touches];
       intros f [<-|[]]; left; reflexivity|].
    apply (kept_trans _ _ p4);
      [eapply kept_weaken; [|apply set_coordinates_touches]; intros ? []|].
    apply (kept_trans _ _ p5);
      [eapply kept_weaken; [|apply set_address_parts_touches];
       intros f Hf; apply in_or_app; left; right; exact Hf|].
    eapply kept_weaken; [|apply parse_weekly_hours_touches].
    intros f Hf. apply in_or_app. right. apply in_or_app. left. exact Hf. }
  destruct (truthy (website p6)); [|exact K6].
  apply (kept_trans _ _ p6); [exact K6|].
  eapply kept_weaken; [|apply extract_social_links_touches].
  intros f Hf. apply in_or_app. right. apply in_or_app. right. exact Hf.
Qed.

Ltac not_derived :=
  unfold day_fields, social_fields; simpl;
  intros H; repeat (destruct H as [H|H]; [discriminate H|]); exact H.

Lemma extract_place_labels (lower : str -> str) (v : ListingView) (http : Http)
      (user_input : str) (index : nat) (link : str) :
  exists p,
    extract_place lower v http user_input index link = Ok p /\
    s_no p = index /\
    source p = blank_to_dash user_input /\
    listing_url p = blank_to_dash link.
Proof.
  rewrite extract_place_eq. eexists. split; [reflexivity|].
  destruct (extract_place_fields_kept lower v http user_input index link) as [K1 K2].
  split; [rewrite normalize_s_no, K1; reflexivity|].
  assert (Es : forall q, source q = get_str F_source q) by reflexivity.
  assert (El : forall q, listing_url q = get_str F_listing_url q) by reflexivity.
  split.
  - rewrite Es, normalize_get, K2 by not_derived. reflexivity.
  - rewrite El, normalize_get, K2 by not_derived. reflexivity.
Qed.

(** X9.  The record that [extract_place] returns carries the number
    of the listing that it was given, and the query and the link of the
    listing as they were given, ["-"] standing for a blank one. *)
Theorem extract_place_identity (lower : str -> str) (v : ListingView) (http : Http)
        (user_input : str) (index : nat) (link : str) :
  exists p,
    extract_place lower v http user_input index link = Ok p /\
    s_no p = index /\
    source p = blank_to_dash user_input /\
    listing_url p = blank_to_dash link.
Proof. exact (extract_place_labels lower v http user_input index link). Qed.

Lemma extract_text_trimmed (q : TextProbe) : strip (text_of q) = text_of q.
Proof.
  unfold text_of, extract_text, res_try.
  destruct (tp_count q) as [n|]; [|reflexivity]. cbn [res_bind].
  destruct (0 <? n); [|reflexivity].
  destruct (tp_inner_text q) as [o|]; [|reflexivity].
  cbn [res_bind]. apply strip_idem.
Qed.

Lemma blank_to_dash_trimmed (s : str) : strip s = s -> strip (blank_to_dash s) = blank_to_dash s.
Proof.
  intros H. unfold blank_to_dash. destruct (str_eqb (strip s) []); [reflexivity | exact H].
Qed.

(** X10.  The name, the address, the phone number and the category of
    the record are the text of their element, trimmed, and ["-"] when it
    is blank; when the element is missing, or when the browser raises on
    it, the attribute is ["-"]. *)
Theorem extract_place_texts (lower : str -> str) (v : ListingView) (http : Http)
        (user_input : str) (index : nat) (link : str) :
  exists p,
    extract_place lower v http user_input index link = Ok p /\
    forall f q,
      In (f, q) (text_probes v) ->
      get_str f p = blank_to_dash (text_of q) /\
      strip (get_str f p) = get_str f p /\
      (forall n o,
          tp_count q = Ok (S n) -> tp_inner_text q = Ok o ->
          get_str f p = blank_to_dash (strip (or_empty o))) /\
      (tp_count q = Ok 0 \/ tp_count q = Raise \/ tp_inner_text q = Raise ->
       get_str f p = dash).
Proof.
  rewrite extract_place_eq. eexists. split; [reflexivity|].
  destruct (extract_place_fields_kept lower v http user_input index link) as [_ K].
  intros f q Hin.
  assert (E : get_str f (exec normalize
                (exec (extract_place_fields lower v http user_input index link)
                      new_place)) = blank_to_dash (text_of q)).
  { rewrite normalize_get.
    simpl in Hin. destruct Hin as [X|[X|[X|[X|[]]]]]; injection X as <- <-;
      (rewrite K by not_derived); reflexivity. }
  rewrite E. split; [reflexivity|].
  split; [apply blank_to_dash_trimmed, extract_text_trimmed|].
  unfold text_of, extract_text, res_try. split.
  - intros n o -> ->. reflexivity.
  - intros [->|[->|H]]; try reflexivity.
    destruct (tp_count q) as [[|n]|]; try reflexivity.
    cbn [res_bind Nat.ltb Nat.leb]. rewrite H. reflexivity.
Qed.

Lemma drop_while_app_stop (p : char -> bool) (a b : str) :
  match b with c :: _ => p c = false | [] => False end ->
  exists x, drop_while p (a ++ b) = x ++ b.
Proof.
  intros Hb. induction a as [|c a [x IH]]; cbn [app].
  - exists []. apply drop_while_fixed. destruct b; [contradiction | exact Hb].
  - cbn [drop_while]. destruct (p c).
    + exists x. exact IH.
    + exists (c :: a). reflexivity.
Qed.

(** Trimming leaves a beginning that has no space at either end. *)
Lemma strip_keeps_prefix (pre r : str) :
  match pre with c :: _ => is_space c = false | [] => False end ->
  match rev pre with c :: _ => is_space c = false | [] => False end ->
  exists x, strip (pre ++ r) = pre ++ x.
Proof.
  intros Hh Hl. unfold strip, strip_with, rstrip_with, lstrip_with.
  rewrite (drop_while_fixed is_space (pre ++ r))
    by (destruct pre; [contradiction | exact Hh]).
  rewrite rev_app_distr.
  destruct (drop_while_app_stop is_space (rev r) (rev pre) Hl) as [x ->].
  exists (rev x). rewrite rev_app_distr, rev_involutive. reflexivity.
Qed.

Lemma strip_keeps_http (s : str) :
  startswith s (lit "http") = true -> startswith (strip s) (lit "http") = true.
Proof.
  intros H. apply startswith_app in H as [r ->].
  destruct (strip_keeps_prefix (lit "http") r) as [x ->]; reflexivity.
Qed.

(** What the website block leaves: nothing, or a trimmed address that
    begins with [http]. *)
Lemma set_website_value (q : AttrProbe) (p : Place) :
  website p = [] ->
  let w := website (exec (set_website q) p) in
  w = [] \/ startswith w (lit "http") = true /\ strip w = w.
Proof.
  intros H. unfold set_website, exec, try_except, bind, lift, modify.
  destruct (ap_count q) as [n|]; [|left; reflexivity].
  destruct (negb (n =? 0)); [|left; exact H].
  destruct (ap_get_attribute q) as [a|]; [|left; reflexivity].
  cbn [snd]. change (website (set_str F_website ?x ?y)) with x.
  destruct (truthy (or_empty a) && negb (startswith (or_empty a) (lit "http"))) eqn:C.
  - right. split; [apply strip_keeps_http; reflexivity | apply strip_idem].
  - apply andb_false_iff in C as [C|C].
    + left. destruct (or_empty a); [reflexivity | discriminate].
    + right. apply negb_false_iff in C. split; [apply strip_keeps_http, C | apply strip_idem].
Qed.

Lemma website_of_record (lower : str -> str) (v : ListingView) (http : Http)
      (user_input : str) (index : nat) (link : str) :
  let w := website (exec (extract_place_fields lower v http user_input index link)
                         new_place) in
  w = [] \/ startswith w (lit "http") = true /\ strip w = w.
Proof.
  rewrite extract_place_fields_steps. cbv zeta.
  fold (direct_record v user_input index link).
  set (p0 := direct_record v user_input index link).
  set (p1 := exec (set_rating (rating_probe v)) p0).
  set (p2 := exec (set_review_count (review_probe v)) p1).
  set (p3 := exec (set_website (authority_probe v)) p2).
  set (p4 := exec (set_coordinates link) p3).
  set (p5 := exec set_address_parts p4).
  set (p6 := exec (parse_weekly_hours lower (hours_probe v)) p5).
  assert (W2 : website p2 = []).
  { change (get_str F_website p2 = []).
    unfold p2. rewrite (proj2 (set_review_count_touches _ _)) by (intros []).
    unfold p1. rewrite (proj2 (set_rating_touches _ _)) by (intros []).
    reflexivity. }
  pose proof (set_website_value (authority_probe v) p2 W2) as W3. cbv zeta in W3.
  fold p3 in W3.
  assert (W6 : website p6 = website p3).
  { change (get_str F_website p6 = get_str F_website p3).
    unfold p6. rewrite (proj2 (parse_weekly_hours_touches _ _ _)) by not_derived.
    unfold p5. rewrite (proj2 (set_address_parts_touches _)) by not_derived.
    unfold p4. rewrite (proj2 (set_coordinates_touches _ _)) by (intros []).
    reflexivity. }
  destruct (truthy (website p6)).
  - change (website ?x) with (get_str F_website x).
    rewrite (proj2 (extract_social_links_touches _ _ _)) by not_derived.
    change (get_str F_website ?x) with (website x). rewrite W6. exact W3.
  - rewrite W6. exact W3.
Qed.

(** X11.  The website of the record is ["-"], or it begins with [http]
    and has no space at either end. *)
Theorem extract_place_website (lower : str -> str) (v : ListingView) (http : Http)
        (user_input : str) (index : nat) (link : str) :
  exists p,
    extract_place lower v http user_input index link = Ok p /\
    (website p = dash \/
     startswith (website p) (lit "http") = true /\ strip (website p) = website p).
Proof.
  rewrite extract_place_eq. eexists. split; [reflexivity|].
  assert (Ew : forall q, website q = get_str F_website q) by reflexivity.
  pose proof (website_of_record lower v http user_input index link) as W.
  cbv zeta in W. rewrite !Ew in *. rewrite !normalize_get.
  set (w := get_str F_website _) in *. clearbody w.
  destruct W as [W|[W1 W2]].
  - left. rewrite W. reflexivity.
  - right. unfold blank_to_dash. rewrite W2.
    destruct (str_eqb w []) eqn:E; [|split; assumption].
    apply str_eqb_eq in E. rewrite E in W1. discriminate.
Qed.

Lemma set_address_parts_value (p : Place) :
  let q := exec set_address_parts p in
  (city q, zip_code q, country q) = parse_address_parts (address p).
Proof.
  unfold set_address_parts, exec, bind, get_place, modify.
  destruct (address p) as [|c a] eqn:E; [reflexivity|].
  cbn [truthy]. destruct (parse_address_parts (c :: a)) as [[ci z] k]. reflexivity.
Qed.

(** X12.  The city, the postal code and the country of the record are
    what [parse_address_parts] returns for the address text of the
    page; without an address the three are ["-"]. *)
Theorem extract_place_address_parts (lower : str -> str) (v : ListingView) (http : Http)
        (user_input : str) (index : nat) (link : str) :
  exists p,
    extract_place lower v http user_input index link = Ok p /\
    (city p, zip_code p, country p) = parse_address_parts (text_of (address_probe v)) /\
    (text_of (address_probe v) = [] -> (city p, zip_code p, country p) = (dash, dash, dash)).
Proof.
  rewrite extract_place_eq. eexists. split; [reflexivity|].
  assert (E : forall p, (city p, zip_code p, country p) =
                        (get_str F_city p, get_str F_zip_code p, get_str F_country p))
    by reflexivity.
  rewrite E, !normalize_get.
  rewrite extract_place_fields_steps. cbv zeta.
  fold (direct_record v user_input index link).
  set (p0 := direct_record v user_input index link).
  set (p1 := exec (set_rating (rating_probe v)) p0).
  set (p2 := exec (set_review_count (review_probe v)) p1).
  set (p3 := exec (set_website (authority_probe v)) p2).
  set (p4 := exec (set_coordinates link) p3).
  set (p5 := exec set_address_parts p4).
  set (p6 := exec (parse_weekly_hours lower (hours_probe v)) p5).
  assert (A4 : address p4 = text_of (address_probe v)).
  { change (get_str F_address p4 = text_of (address_probe v)).
    unfold p4. rewrite (proj2 (set_coordinates_touches _ _)) by (intros []).
    unfold p3. rewrite (proj2 (set_website_touches _ _)) by not_derived.
    unfold p2. rewrite (proj2 (set_review_count_touches _ _)) by (intros []).
    unfold p1. rewrite (proj2 (set_rating_touches _ _)) by (intros []).
    reflexivity. }
  pose proof (set_address_parts_value p4) as V. cbv zeta in V. fold p5 in V.
  rewrite A4, E in V.
  assert (K : forall f, In f [F_city; F_zip_code; F_country] ->
                        get_str f (if truthy (website p6)
                                   then exec (extract_social_links http (website p6)) p6
                                   else p6) = get_str f p5).
  { intros f Hf.
    assert (get_str f p6 = get_str f p5) as K6.
    { unfold p6. apply (proj2 (parse_weekly_hours_touches _ _ _)).
      simpl in Hf. destruct Hf as [<-|[<-|[<-|[]]]]; not_derived. }
    destruct (truthy (website p6)); [|exact K6].
    rewrite (proj2 (extract_social_links_touches _ _ _)); [exact K6|].
    simpl in Hf. destruct Hf as [<-|[<-|[<-|[]]]]; not_derived. }
  rewrite !K by (simpl; tauto).
  pose proof (parse_address_parts_all (text_of (address_probe v))) as G.
  rewrite <- V in G. destruct G as (G1 & G2 & G3).
  rewrite !blank_to_dash_component by assumption.
  split; [exact V|]. intros H. rewrite V, H. reflexivity.
Qed.

(** ** Rating and number of reviews *)

Ltac same_number :=
  apply preserves_modify; let p := fresh "p" in intros p ?; assumption.

Lemma reviews_after_rating (lower : str -> str) (v : ListingView) (http : Http)
      (index : nat) (link : str) (c : option Q) :
  preserves (fun q => reviews_average q = c)
    (set_review_count (review_probe v) ;;
     set_website (authority_probe v) ;;
     set_coordinates link ;;
     set_address_parts ;;
     parse_weekly_hours lower (hours_probe v) ;;
     p <- get_place ;;
     if truthy (website p) then extract_social_links http (website p) else ret tt).
Proof.
  unfold set_review_count, set_website, set_coordinates, set_both, set_origin,
    set_address_parts, parse_weekly_hours, hours_row.
  repeat (apply preserves_bind; [|intros ?]);
    try (destruct (truthy _); [unfold extract_social_links, sniff|]);
    keep; same_number.
Qed.

Lemma count_after_reviews (lower : str -> str) (v : ListingView) (http : Http)
      (index : nat) (link : str) (c : option N) :
  preserves (fun q => reviews_count q = c)
    (set_website (authority_probe v) ;;
     set_coordinates link ;;
     set_address_parts ;;
     parse_weekly_hours lower (hours_probe v) ;;
     p <- get_place ;;
     if truthy (website p) then extract_social_links http (website p) else ret tt).
Proof.
  unfold set_website, set_coordinates, set_both, set_origin,
    set_address_parts, parse_weekly_hours, hours_row.
  repeat (apply preserves_bind; [|intros ?]);
    try (destruct (truthy _); [unfold extract_social_links, sniff|]);
    keep; same_number.
Qed.

Lemma normalize_keeps {X : Type} (g : Place -> X) :
  (forall f p, g (normalize_field f p) = g p) ->
  forall p, g (exec normalize p) = g p.
Proof.
  intros H p. unfold exec, normalize. rewrite for_each_modify.
  unfold snd. generalize str_fields. intros l. revert p.
  induction l as [|f l IH]; intros p; [reflexivity|].
  cbn [fold_left]. rewrite IH. apply H.
Qed.

Lemma set_rating_exec (q : AttrProbe) (p : Place) :
  exec (set_rating q) p =
  match ap_count q with
  | Ok (S _) =>
      match ap_get_attribute q with
      | Ok a =>
          match re_search number_run (or_empty a) with
          | Some m =>
              match py_float (m_text m) with
              | Ok x => set_reviews_average (Some x) p
              | Raise => set_reviews_average None p
              end
          | None => p
          end
      | Raise => set_reviews_average None p
      end
  | Ok 0 => p
  | Raise => set_reviews_average None p
  end.
Proof.
  unfold set_rating, exec, try_except, bind, lift, modify, ret.
  destruct (ap_count q) as [[|n]|]; try reflexivity.
  cbn [Nat.ltb Nat.leb].
  destruct (ap_get_attribute q) as [a|]; try reflexivity.
  destruct (re_search number_run (or_empty a)) as [m|]; try reflexivity.
  destruct (py_float (m_text m)); reflexivity.
Qed.

Lemma set_review_count_exec (q : AttrProbe) (p : Place) :
  exec (set_review_count q) p =
  match ap_count q with
  | Ok (S _) =>
      match ap_get_attribute q with
      | Ok a =>
          match re_search count_run (or_empty a) with
          | Some m =>
              match py_int (remove_char (ch ",") (m_text m)) with
              | Ok x => set_reviews_count (Some x) p
              | Raise => set_reviews_count None p
              end
          | None => p
          end
      | Raise => set_reviews_count None p
      end
  | Ok 0 => p
  | Raise => set_reviews_count None p
  end.
Proof.
  unfold set_review_count, exec, try_except, bind, lift, modify, ret.
  destruct (ap_count q) as [[|n]|]; try reflexivity.
  cbn [Nat.ltb Nat.leb].
  destruct (ap_get_attribute q) as [a|]; try reflexivity.
  destruct (re_search count_run (or_empty a)) as [m|]; try reflexivity.
  destruct (py_int (remove_char (ch ",") (m_text m))); reflexivity.
Qed.

(** The rating that the block leaves in a record that had none. *)
Lemma set_rating_value (q : AttrProbe) (p : Place) (x : Q) :
  reviews_average p = None ->
  reviews_average (exec (set_rating q) p) = Some x <->
  exists n a m,
    ap_count q = Ok (S n) /\ ap_get_attribute q = Ok a /\
    re_search number_run (or_empty a) = Some m /\ py_float (m_text m) = Ok x.
Proof.
  intros H. rewrite set_rating_exec.
  destruct (ap_count q) as [[|n]|] eqn:E1;
    [| destruct (ap_get_attribute q) as [a|] eqn:E2;
       [ destruct (re_search number_run (or_empty a)) as [m|] eqn:E3;
         [ destruct (py_float (m_text m)) as [y|] eqn:E4 | ] | ] | ];
    unfold set_reviews_average; cbn [reviews_average]; rewrite ?H;
    (split;
     [ intros X; try discriminate X; injection X as <-; exists n, a, m; auto
     | intros (n' & a' & m' & A1 & A2 & A3 & A4); congruence ]).
Qed.

(** The number of reviews that the block leaves in a record that had
    none. *)
Lemma set_review_count_value (q : AttrProbe) (p : Place) (x : N) :
  reviews_count p = None ->
  reviews_count (exec (set_review_count q) p) = Some x <->
  exists n a m,
    ap_count q = Ok (S n) /\ ap_get_attribute q = Ok a /\
    re_search count_run (or_empty a) = Some m /\
    py_int (remove_char (ch ",") (m_text m)) = Ok x.
Proof.
  intros H. rewrite set_review_count_exec.
  destruct (ap_count q) as [[|n]|] eqn:E1;
    [| destruct (ap_get_attribute q) as [a|] eqn:E2;
       [ destruct (re_search count_run (or_empty a)) as [m|] eqn:E3;
         [ destruct (py_int (remove_char (ch ",") (m_text m))) as [y|] eqn:E4 | ] | ] | ];
    unfold set_reviews_count; cbn [reviews_count]; rewrite ?H;
    (split;
     [ intros X; try discriminate X; injection X as <-; exists n, a, m; auto
     | intros (n' & a' & m' & A1 & A2 & A3 & A4); congruence ]).
Qed.

Lemma rating_then_rest (lower : str -> str) (v : ListingView) (http : Http)
      (user_input : str) (index : nat) (link : str) :
  exec (extract_place_fields lower v http user_input index link) new_place =
  exec (set_review_count (review_probe v) ;;
        set_website (authority_probe v) ;;
        set_coordinates link ;;
        set_address_parts ;;
        parse_weekly_hours lower (hours_probe v) ;;
        p <- get_place ;;
        if truthy (website p) then extract_social_links http (website p) else ret tt)
       (exec (set_rating (rating_probe v)) (direct_record v user_input index link)).
Proof.
  unfold extract_place_fields, direct_record.
  rewrite !exec_modify.
  rewrite exec_text, exec_modify, exec_text, exec_modify,
    exec_text, exec_modify, exec_text, exec_modify.
  rewrite exec_seq by apply total_set_rating. reflexivity.
Qed.

Lemma set_rating_count (q : AttrProbe) (c : option N) :
  preserves (fun p => reviews_count p = c) (set_rating q).
Proof. unfold set_rating. keep; same_number. Qed.

Lemma py_int_limit (s : str) : int_max_str_digits < length s -> py_int s = Raise.
Proof.
  intros H. unfold py_int. apply Nat.leb_gt in H. rewrite H, andb_false_r. reflexivity.
Qed.

(** X13.  The record holds a rating exactly when the rating element is
    there, its label answers, a run of digits and dots stands in the
    label and the first such run reads as a number, which is then the
    rating; likewise for the number of reviews, read from the first run
    of digits and commas with the commas removed.  In every other case,
    an exception of the browser among them, the attribute is [None]: so
    it is for a number of reviews of more than [int_max_str_digits]
    digits, which [int] refuses. *)
Theorem extract_place_reviews (lower : str -> str) (v : ListingView) (http : Http)
        (user_input : str) (index : nat) (link : str) :
  exists p,
    extract_place lower v http user_input index link = Ok p /\
    (forall x,
        reviews_average p = Some x <->
        exists n a m,
          ap_count (rating_probe v) = Ok (S n) /\
          ap_get_attribute (rating_probe v) = Ok a /\
          re_search number_run (or_empty a) = Some m /\
          py_float (m_text m) = Ok x) /\
    (forall x,
        reviews_count p = Some x <->
        exists n a m,
          ap_count (review_probe v) = Ok (S n) /\
          ap_get_attribute (review_probe v) = Ok a /\
          re_search count_run (or_empty a) = Some m /\
          py_int (remove_char (ch ",") (m_text m)) = Ok x) /\
    (forall n a m,
        ap_count (review_probe v) = Ok (S n) ->
        ap_get_attribute (review_probe v) = Ok a ->
        re_search count_run (or_empty a) = Some m ->
        int_max_str_digits < length (remove_char (ch ",") (m_text m)) ->
        reviews_count p = None).
Proof.
  rewrite extract_place_eq. eexists. split; [reflexivity|].
  remember (exec (extract_place_fields lower v http user_input index link) new_place)
    as raw eqn:R.
  rewrite (normalize_keeps reviews_count), (normalize_keeps reviews_average)
    by (intros f q; unfold normalize_field; destruct (str_eqb _ _); reflexivity).
  rewrite rating_then_rest in R.
  remember (direct_record v user_input index link) as p0 eqn:R0.
  remember (exec (set_rating (rating_probe v)) p0) as p1 eqn:R1.
  assert (C0 : reviews_average p0 = None /\ reviews_count p0 = None).
  { rewrite R0. split; reflexivity. }
  destruct C0 as [A0 C0].
  assert (A : reviews_average raw = reviews_average p1).
  { rewrite R.
    apply (reviews_after_rating lower v http index link (reviews_average p1) p1).
    reflexivity. }
  assert (C1 : reviews_count p1 = None).
  { rewrite R1. apply (set_rating_count (rating_probe v) None p0). exact C0. }
  assert (C : reviews_count raw =
              reviews_count (exec (set_review_count (review_probe v)) p1)).
  { rewrite R. rewrite exec_seq by apply total_set_review_count.
    apply (count_after_reviews lower v http index link
             (reviews_count (exec (set_review_count (review_probe v)) p1))).
    reflexivity. }
  split; [|split].
  - intros x. rewrite A, R1. apply set_rating_value. exact A0.
  - intros x. rewrite C. apply set_review_count_value. exact C1.
  - intros n a m E1 E2 E3 L. rewrite C.
    destruct (reviews_count (exec (set_review_count (review_probe v)) p1)) as [x|] eqn:X;
      [|reflexivity].
    apply set_review_count_value in X as (n' & a' & m' & F1 & F2 & F3 & F4); [|exact C1].
    rewrite E2 in F2. injection F2 as <-. rewrite E3 in F3. injection F3 as <-.
    rewrite (py_int_limit _ L) in F4. discriminate.
Qed.

(** ** More on the hours table *)

Lemma try_click_ok (q : ClickProbe) : exists b, try_click q = Ok b.
Proof.
  unfold try_click, res_try.
  destruct (cp_count q) as [n|]; cbn [res_bind]; eauto.
  destruct (0 <? n); eauto.
  destruct (cp_click q); cbn [res_bind]; eauto.
Qed.

Lemma for_each_ext {X : Type} (xs : list X) (body body' : X -> M unit) :
  (forall x p, body x p = body' x p) ->
  forall p, for_each xs body p = for_each xs body' p.
Proof.
  intros H. induction xs as [|x xs IH]; intros p; [reflexivity|].
  cbn [for_each]. unfold bind. rewrite H. destruct (body' x p) as [[[]|] p']; auto.
Qed.

Lemma hours_row_run (lower : str -> str) (rows : RowsProbe) (i : nat) (p : Place) :
  hours_row lower rows i p = modify (put_entry (row_entry lower rows i)) p.
Proof.
  unfold hours_row, row_entry, try_except, bind, lift, modify, ret, put_entry.
  destruct (row_day_text rows i) as [d|]; [|reflexivity].
  destruct (row_times_text rows i) as [t|]; [|reflexivity].
  destruct (find _ day_keys); reflexivity.
Qed.

Lemma day_value_fold (d : Day) (entries : list (option (Day * str))) :
  forall q,
    get_str (day_field d) (fold_left (fun q e => put_entry e q) entries q) =
    fold_left (fun acc e =>
                 match e with
                 | Some (k, v) => if day_eqb k d then v else acc
                 | None => acc
                 end) entries (get_str (day_field d) q).
Proof.
  induction entries as [|e entries IH]; intros q; [reflexivity|].
  cbn [fold_left]. rewrite IH. f_equal.
  destruct e as [[k v]|]; [|reflexivity].
  unfold put_entry. rewrite get_set_str. reflexivity.
Qed.

Lemma fold_left_map {X Y Z : Type} (f : Z -> Y -> Z) (g : X -> Y) (l : list X) :
  forall z, fold_left f (map g l) z = fold_left (fun a x => f a (g x)) l z.
Proof. induction l as [|x l IH]; intros z; [reflexivity | apply IH]. Qed.

(** The record that [parse_weekly_hours] leaves when the table answers
    with [n] rows: the seven days at ["-"], then the entries of the rows
    in their order. *)
Lemma parse_weekly_hours_run (lower : str -> str) (h : HoursProbe) (p : Place)
      (n0 n : nat) :
  table_rows_check h = Ok n0 ->
  rows_count (rows_read h n0) = Ok n ->
  exec (parse_weekly_hours lower h) p =
  fold_left (fun q e => put_entry e q)
            (map (row_entry lower (rows_read h n0)) (seq 0 n))
            (fold_left (fun q d => set_str (day_field d) dash q) day_keys p).
Proof.
  intros H0 Hn. unfold parse_weekly_hours, exec, try_except, bind at 1, lift at 1.
  destruct (try_click_ok (oh_button h)) as [b ->].
  unfold bind at 1, lift at 1. rewrite H0.
  fold (rows_read h n0).
  unfold bind at 1. rewrite for_each_modify.
  unfold bind at 1, lift at 1. rewrite Hn.
  rewrite (for_each_ext _ _ (fun i => modify (put_entry (row_entry lower (rows_read h n0) i))))
    by (intros; apply hours_row_run).
  rewrite (for_each_modify (fun i => put_entry (row_entry lower (rows_read h n0) i))).
  cbn [snd]. rewrite fold_left_map. reflexivity.
Qed.

(** X14.  When the hours table answers, each day of the record gets the
    text of the last row whose label names that day, and ["-"] when no
    row names it; a row with a cell that raises is passed over.  When
    the count of the rows raises, the seven days are ["-"]. *)
Theorem parse_weekly_hours_last_row (lower : str -> str) (h : HoursProbe) (p : Place)
        (n0 : nat) :
  table_rows_check h = Ok n0 ->
  (forall n d,
      rows_count (rows_read h n0) = Ok n ->
      get_str (day_field d) (exec (parse_weekly_hours lower h) p) =
      day_value d (map (row_entry lower (rows_read h n0)) (seq 0 n))) /\
  (forall d,
      rows_count (rows_read h n0) = Raise ->
      get_str (day_field d) (exec (parse_weekly_hours lower h) p) = dash).
Proof.
  intros H0. split.
  - intros n d Hn. rewrite (parse_weekly_hours_run lower h p n0 n H0 Hn).
    rewrite day_value_fold. unfold day_value. f_equal.
    destruct d; reflexivity.
  - intros d Hn. unfold parse_weekly_hours, exec, try_except, bind at 1, lift at 1.
    destruct (try_click_ok (oh_button h)) as [b ->].
    unfold bind at 1, lift at 1. rewrite H0.
    fold (rows_read h n0).
    unfold bind at 1. rewrite for_each_modify.
    unfold bind at 1, lift at 1. rewrite Hn.
    cbn [snd ret]. destruct d; reflexivity.
Qed.

Lemma parse_weekly_hours_last_row_witness :
  get_str (day_field Mon)
    (exec (parse_weekly_hours ascii_lower
             (hours_probe (hours_view (lit "Monday") (lit "9 AM - 5 PM")))) new_place)
  = day_value Mon
      (map (row_entry ascii_lower
              (rows_read (hours_probe (hours_view (lit "Monday") (lit "9 AM - 5 PM"))) 1))
           (seq 0 1)).
Proof.
  apply (parse_weekly_hours_last_row ascii_lower
           (hours_probe (hours_view (lit "Monday") (lit "9 AM - 5 PM"))) new_place 1);
    reflexivity.
Defined.

Lemma parse_weekly_hours_numbers (lower : str -> str) (h : HoursProbe)
      (c : option N * option Q * Q * Q) :
  preserves (fun q => numbers_of q = c) (parse_weekly_hours lower h).
Proof. unfold parse_weekly_hours, hours_row. keep; same_number. Qed.

Lemma extract_social_links_numbers (http : Http) (website_url : str)
      (c : option N * option Q * Q * Q) :
  preserves (fun q => numbers_of q = c) (extract_social_links http website_url).
Proof. unfold extract_social_links, sniff. keep; same_number. Qed.

(** X15.  [parse_weekly_hours] writes the seven day attributes and
    nothing else; when the count of the rows of the table raises at the
    first look, it writes nothing at all. *)
Theorem parse_weekly_hours_frame (lower : str -> str) (h : HoursProbe) (p : Place) :
  let q := exec (parse_weekly_hours lower h) p in
  s_no q = s_no p /\
  numbers_of q = numbers_of p /\
  (forall f, ~ In f day_fields -> get_str f q = get_str f p) /\
  (table_rows_check h = Raise -> q = p).
Proof.
  cbv zeta. destruct (parse_weekly_hours_touches lower h p) as [K1 K2].
  split; [exact K1|]. split.
  { apply (parse_weekly_hours_numbers lower h (numbers_of p) p). reflexivity. }
  split; [exact K2|].
  intros H. unfold parse_weekly_hours, exec, try_except, bind at 1, lift at 1.
  destruct (try_click_ok (oh_button h)) as [b ->].
  unfold bind at 1, lift at 1. rewrite H. reflexivity.
Qed.

(** X16.  [extract_social_links] writes the four social attributes and
    nothing else, and it writes nothing at all when the website is
    empty, when the request raises or when the status is not 200. *)
Theorem extract_social_links_frame (http : Http) (website_url : str) (p : Place) :
  let q := exec (extract_social_links http website_url) p in
  s_no q = s_no p /\
  numbers_of q = numbers_of p /\
  (forall f, ~ In f social_fields -> get_str f q = get_str f p) /\
  (website_url = [] \/
   http (request_url website_url) = Raise \/
   (exists status body,
       http (request_url website_url) = Ok (status, body) /\ status <> 200) ->
   q = p).
Proof.
  cbv zeta. destruct (extract_social_links_touches http website_url p) as [K1 K2].
  split; [exact K1|]. split.
  { apply (extract_social_links_numbers http website_url (numbers_of p) p). reflexivity. }
  split; [exact K2|].
  unfold extract_social_links, exec, try_except.
  intros [->|H]; [reflexivity|].
  destruct (truthy website_url); cbn [negb]; [|reflexivity].
  unfold bind at 1, lift at 1.
  destruct H as [->|(status & body & -> & Hs)]; [reflexivity|].
  apply Nat.eqb_neq in Hs. rewrite Hs. reflexivity.
Qed.

(** ** The next page *)

Lemma try_next_button_works (b : NextButton) :
  try_next_button b = true <-> button_works b.
Proof.
  unfold try_next_button, button_works, res_try. split.
  - destruct (nb_count b) as [[|n]|]; cbn [res_bind Nat.ltb Nat.leb]; try discriminate.
    destruct (nb_is_enabled b) as [[|]|]; cbn [res_bind]; try discriminate.
    destruct (nb_click b) as [[]|]; cbn [res_bind]; try discriminate.
    destruct (nb_wait b) as [[]|]; cbn [res_bind]; try discriminate.
    intros _. eauto.
  - intros ((n & ->) & -> & -> & ->). reflexivity.
Qed.

(** X17.  [go_to_next_results_page] answers [True] exactly when one of
    its selectors finds an enabled button whose click and whose wait
    return; a selector on which the browser raises is passed over and
    the next one is tried. *)
Theorem go_to_next_results_page_works (selectors : list NextButton) :
  go_to_next_results_page selectors = true <->
  exists b, In b selectors /\ button_works b.
Proof.
  unfold go_to_next_results_page. rewrite existsb_exists.
  split; intros (b & Hb & H); exists b; (split; [exact Hb|]);
    apply try_next_button_works; exact H.
Qed.

(** ** What discovery returns, whatever the browser answers *)

Lemma collected_nil (w : World) : collected w [].
Proof. split; [constructor | intros u []]. Qed.

Lemma collected_add (w : World) (urls : list str) (h : str) :
  collected w urls -> truthy h = true -> known h urls = false -> shown w h ->
  collected w (urls ++ [h]).
Proof.
  intros [N C] T K S. split.
  - apply NoDup_app; [exact N | repeat constructor; intros [] | ].
    intros x Hx [<-|[]]. apply known_In in Hx. congruence.
  - intros u Hu. apply in_app_or in Hu as [Hu|[<-|[]]]; [apply C, Hu|].
    split; [apply truthy_nonempty, T | exact S].
Qed.

Lemma collect_cards_collected (w : World) (max_listings j : nat) (todo : list nat) :
  forall listing_urls added urls added',
    collected w listing_urls ->
    collect_cards max_listings (scan w j) todo listing_urls added = Ok (urls, added') ->
    collected w urls.
Proof.
  induction todo as [|i todo IH]; intros listing_urls added urls added' C; cbn [collect_cards].
  - intros E; injection E as <- _. exact C.
  - destruct (card_href (scan w j) i) as [[h|]|] eqn:E; cbn [res_bind];
      [|apply IH; exact C | discriminate].
    destruct (truthy h && negb (known h listing_urls)) eqn:T; [|apply IH; exact C].
    apply andb_true_iff in T as [T K]. apply negb_true_iff in K.
    assert (C' : collected w (listing_urls ++ [h])).
    { apply collected_add; auto. exists j, i. exact E. }
    destruct (cap_reached max_listings (listing_urls ++ [h])).
    + intros X; injection X as <- _. exact C'.
    + apply IH. exact C'.
Qed.

Lemma discovery_round_collected (w : World) (max_listings j : nat)
      (listing_urls : list str) (c : nat) (r : Round) :
  collected w listing_urls ->
  discovery_round w max_listings j listing_urls c = Ok r ->
  match r with
  | Again urls _ => collected w urls
  | Done urls => collected w urls
  end.
Proof.
  intros C. unfold discovery_round, scan_cards.
  destruct (cards_count (scan w j)) as [n|]; cbn [res_bind]; [|discriminate].
  destruct (collect_cards max_listings (scan w j) (seq 0 n) listing_urls 0)
    as [[urls added]|] eqn:E; cbn [res_bind]; [|discriminate].
  apply collect_cards_collected in E; [|exact C].
  assert (A : forall r', after_scan w j urls added c = r' ->
                         match r' with
                         | Again urls' _ => collected w urls'
                         | Done urls' => collected w urls'
                         end).
  { unfold after_scan. intros r' <-.
    destruct (added =? 0); [|exact E].
    destruct (MAX_NO_NEW_ROUNDS <=? S c); [|exact E].
    destruct (go_to_next_results_page _); exact E. }
  destruct (cap_reached max_listings urls).
  - intros X; injection X as <-. exact E.
  - destruct (max_listings =? 0); intros X; injection X as <-; apply A; reflexivity.
Qed.

Lemma discover_collected (w : World) (max_listings : nat) :
  forall fuel j listing_urls c s links s1,
    collected w listing_urls ->
    discover fuel w max_listings j listing_urls c s = Some (Ok (links, s1)) ->
    collected w links.
Proof.
  induction fuel as [|fuel IH]; intros j listing_urls c s links s1 C; [discriminate|].
  rewrite discover_S. destruct (should_stop w s) as [f s'].
  destruct f; [intros E; injection E as <- _; exact C|].
  destruct (discovery_round w max_listings j listing_urls c) as [r|] eqn:E; [|discriminate].
  apply discovery_round_collected in E; [|exact C].
  destruct r as [urls n|urls].
  - apply IH. exact E.
  - intros X; injection X as <- _. exact E.
Qed.

(** X18.  Whatever the browser and the Stop button do, the references
    that discovery returns are distinct and not empty, each was shown by
    a card of some scan, and with a cap there are never more of them
    than the cap. *)
Theorem discovery_sound (w : World) (max_listings fuel : nat) (s s1 : Session)
        (links : list str) :
  discover fuel w max_listings 0 [] 0 s = Some (Ok (links, s1)) ->
  NoDup links /\
  (forall u, In u links -> u <> [] /\ shown w u) /\
  (0 < max_listings -> length links <= max_listings).
Proof.
  intros H.
  destruct (discover_collected w max_listings _ _ _ _ _ _ _ (collected_nil w) H) as [N C].
  split; [exact N|]. split; [exact C|].
  intros Hm.
  destruct (discover_within w max_listings _ _ _ _ _ _ _ (room_start max_listings) H)
    as [W|W]; [lia | exact W].
Qed.

Lemma discovery_sound_witness :
  NoDup [url_a; url_b] /\
  (forall u, In u [url_a; url_b] ->
             u <> [] /\ shown (plain_world (fun _ => false) feed_two) u) /\
  (0 < 2 -> length [url_a; url_b] <= 2).
Proof.
  apply (discovery_sound (plain_world (fun _ => false) feed_two) 2 10 fresh_session
           {| stop := false; looks := 1 |} [url_a; url_b]).
  vm_compute. reflexivity.
Defined.

(** ** What the run returns, whatever the browser answers *)

Lemma scraped_labels (lower : str -> str) (w : World) (user_input : str)
      (idx : nat) (link : str) (p : Place) :
  scraped lower w user_input idx link = Ok p ->
  s_no p = idx /\ source p = blank_to_dash user_input /\
  listing_url p = blank_to_dash link.
Proof.
  unfold scraped. destruct (visit w idx link) as [v|]; [|discriminate]. cbn [res_bind].
  destruct (extract_place_labels lower v (http_of w idx) user_input idx link)
    as (q & -> & H).
  intros E; injection E as <-. exact H.
Qed.

Lemma scraped_all_labels (lower : str -> str) (w : World) (user_input : str)
      (links : list str) :
  forall idx ps,
    scraped_all lower w user_input idx links = Ok ps ->
    map s_no ps = seq idx (length links) /\
    map listing_url ps = map blank_to_dash links /\
    forall p, In p ps -> source p = blank_to_dash user_input.
Proof.
  induction links as [|link links IH]; intros idx ps; rewrite ?scraped_all_cons.
  - intros E; injection E as <-. repeat split. intros p [].
  - destruct (scraped lower w user_input idx link) as [p0|] eqn:E0; [|discriminate].
    cbn [res_bind].
    destruct (scraped_all lower w user_input (S idx) links) as [qs|] eqn:E; [|discriminate].
    cbn [res_bind]. intros H; injection H as <-.
    apply scraped_labels in E0 as (A1 & A2 & A3).
    destruct (IH _ _ E) as (B1 & B2 & B3).
    cbn [map length seq]. rewrite A1, A3, B1, B2.
    repeat split. intros p [<-|Hp]; [exact A2 | exact (B3 p Hp)].
Qed.

(** The loop over the listings returns the records of the first [k] of
    them, for some [k]. *)
Lemma scrape_listings_prefix (lower : str -> str) (w : World) (user_input : str)
      (max_listings : nat) :
  forall links idx places s result s',
    scrape_listings lower w user_input max_listings idx links places s
    = Ok (result, s') ->
    exists k ps,
      k <= length links /\
      scraped_all lower w user_input idx (firstn k links) = Ok ps /\
      result = places ++ ps /\
      (0 < max_listings -> 0 < k -> idx + k <= S max_listings).
Proof.
  induction links as [|link links IH]; intros idx places s result s'.
  - simpl. intros E; injection E as <- _. exists 0, [].
    rewrite app_nil_r. repeat split; auto. lia.
  - rewrite scrape_listings_cons.
    destruct ((0 <? max_listings) && (max_listings <? idx)) eqn:C.
    { intros E; injection E as <- _. exists 0, [].
      rewrite app_nil_r. repeat split; auto; simpl; lia. }
    assert (Hcap : 0 < max_listings -> idx <= max_listings).
    { intros Hm. apply andb_false_iff in C as [C|C].
      - apply Nat.ltb_ge in C. lia.
      - apply Nat.ltb_ge in C. exact C. }
    destruct (scraped lower w user_input idx link) as [p|] eqn:Ep; [|discriminate].
    cbn [res_bind].
    assert (One : exists k ps,
               k <= length (link :: links) /\
               scraped_all lower w user_input idx (firstn k (link :: links)) = Ok ps /\
               places ++ [p] = places ++ ps /\
               (0 < max_listings -> 0 < k -> idx + k <= S max_listings)).
    { exists 1, [p]. split; [simpl; lia|]. split.
      - rewrite firstn_cons, firstn_O, scraped_all_cons, Ep. reflexivity.
      - split; [reflexivity|]. intros Hm _. specialize (Hcap Hm). lia. }
    destruct (should_stop w s) as [f s1]. destruct f.
    { intros E; injection E as <- _. exact One. }
    destruct (should_stop w s1) as [f s2]. destruct f.
    { intros E; injection E as <- _. exact One. }
    intros E. apply IH in E as (k & ps & Hk & Hall & -> & Hc).
    exists (S k), (p :: ps). split; [simpl; lia|]. split.
    + rewrite firstn_cons, scraped_all_cons, Ep. cbn [res_bind]. rewrite Hall. reflexivity.
    + split; [rewrite <- app_assoc; reflexivity|].
      intros Hm _. destruct k; [specialize (Hcap Hm); lia | specialize (Hc Hm); lia].
Qed.

(** A run that returns: the name of the file was computed, the browser
    started and closed, the page of the results opened, discovery
    returned and so did the loop over the listings. *)
Lemma run_returns (lower : str -> str) (query_q : str -> res (option str))
      (unquote : str -> str) (fuel : nat) (w : World) (user_input : str)
      (max_listings : nat) (s s' : Session) (places : list Place) (name : str) :
  scrape_places_streamlit lower query_q unquote fuel w user_input max_listings s
  = Some (Ok (places, name, s')) ->
  output_filename query_q unquote user_input = Ok name /\
  start_browser w = Ok tt /\ open_results w = Ok tt /\ close_browser w = Ok tt /\
  exists links s1,
    discover fuel w max_listings 0 [] 0 s = Some (Ok (links, s1)) /\
    scrape_listings lower w user_input max_listings 1 links [] (clear_stop w s1)
    = Ok (places, s').
Proof.
  unfold scrape_places_streamlit.
  destruct (output_filename query_q unquote user_input) as [name0|]; [|discriminate].
  destruct (start_browser w) as [[]|]; [|discriminate].
  destruct (open_results w) as [[]|]; [|discriminate].
  destruct (discover fuel w max_listings 0 [] 0 s) as [[[links s1]|]|] eqn:D;
    try discriminate.
  destruct (scrape_listings _ _ _ _ _ _ _ _) as [[result s2]|] eqn:E; [|discriminate].
  destruct (close_browser w) as [[]|]; [|discriminate].
  intros X. injection X as <- <- <-.
  do 4 (split; [reflexivity|]). exists links, s1. split; [reflexivity | exact E].
Qed.

(** X19.  Whatever the browser and the Stop button do, a run that
    returns gives the records of the first [k] references that discovery
    collected, for some [k], in their order: they are numbered from 1,
    each carries the query and its reference (["-"] for a blank one),
    none has a blank attribute, and with a cap there are never more of
    them than the cap.  The file name is that of the query. *)
Theorem run_returns_prefix (lower : str -> str) (query_q : str -> res (option str))
        (unquote : str -> str) (fuel : nat) (w : World) (user_input : str)
        (max_listings : nat) (s s' : Session) (places : list Place) (name : str) :
  scrape_places_streamlit lower query_q unquote fuel w user_input max_listings s
  = Some (Ok (places, name, s')) ->
  output_filename query_q unquote user_input = Ok name /\
  exists links s1 k,
    discover fuel w max_listings 0 [] 0 s = Some (Ok (links, s1)) /\
    k <= length links /\
    scraped_all lower w user_input 1 (firstn k links) = Ok places /\
    map s_no places = seq 1 k /\
    map listing_url places = map blank_to_dash (firstn k links) /\
    (forall p, In p places -> source p = blank_to_dash user_input /\ normalized p) /\
    (0 < max_listings -> length places <= max_listings).
Proof.
  intros X. apply run_returns in X as (Hn & _ & _ & _ & links & s1 & D & E).
  split; [exact Hn|].
  apply scrape_listings_prefix in E as (k & ps & Hk & Hall & -> & Hc).
  cbn [app] in *.
  destruct (scraped_all_labels _ _ _ _ _ _ Hall) as (L1 & L2 & L3).
  pose proof (scraped_all_length _ _ _ _ _ _ Hall) as Hlen.
  rewrite length_firstn, Nat.min_l in Hlen, L1 by exact Hk.
  exists links, s1, k. repeat split; auto.
  - exact (scraped_all_normalized _ _ _ _ _ _ Hall p H).
  - intros Hm. rewrite Hlen. destruct k; [lia | specialize (Hc Hm); lia].
Qed.

Lemma run_returns_prefix_witness :
  output_filename (fun _ => Ok None) (fun u => u) (lit "cafes")
  = Ok (lit "cafes.csv") /\
  exists links s1 k,
    discover 10 (plain_world (press_at 2) feed_two) 2 0 [] 0 fresh_session
    = Some (Ok (links, s1)) /\
    k <= length links /\
    scraped_all ascii_lower (plain_world (press_at 2) feed_two) (lit "cafes") 1
                (firstn k links)
    = Ok [exec (extract_place_body ascii_lower (hours_view [] []) no_web (lit "cafes")
                  1 url_a) new_place] /\
    map s_no [exec (extract_place_body ascii_lower (hours_view [] []) no_web (lit "cafes")
                      1 url_a) new_place] = seq 1 k /\
    map listing_url
        [exec (extract_place_body ascii_lower (hours_view [] []) no_web (lit "cafes")
                 1 url_a) new_place] = map blank_to_dash (firstn k links) /\
    (forall p,
        In p [exec (extract_place_body ascii_lower (hours_view [] []) no_web (lit "cafes")
                      1 url_a) new_place] ->
        source p = blank_to_dash (lit "cafes") /\ normalized p) /\
    (0 < 2 ->
     length [exec (extract_place_body ascii_lower (hours_view [] []) no_web (lit "cafes")
                     1 url_a) new_place] <= 2).
Proof.
  apply (run_returns_prefix ascii_lower (fun _ => Ok None) (fun u => u) 10
           (plain_world (press_at 2) feed_two) (lit "cafes") 2 fresh_session
           {| stop := true; looks := 3 |}).
  vm_compute. reflexivity.
Defined.

(** ** The log *)

Lemma last_n_length {X : Type} (n : nat) (l : list X) :
  length (last_n n l) = Nat.min n (length l).
Proof. unfold last_n. rewrite length_skipn. lia. Qed.

Lemma last_n_app {X : Type} (n : nat) (a b : list X) :
  last_n n (last_n n a ++ b) = last_n n (a ++ b).
Proof.
  unfold last_n. rewrite !length_app, length_skipn.
  destruct (Nat.le_gt_cases (length a) n) as [H|H].
  - replace (length a - n) with 0 by lia. cbn [skipn]. f_equal. lia.
  - replace (length a + length b - n) with (length b + (length a - n)) by lia.
    rewrite <- skipn_skipn, (skipn_app (length a - n) a b).
    replace (length a - n - length a) with 0 by lia. cbn [skipn].
    f_equal. lia.
Qed.

Lemma ui_log_all_trimmed (es : list (str * str)) :
  forall l,
    ui_log_all (Some (last_n 400 l)) es = Some (last_n 400 (l ++ es)).
Proof.
  unfold ui_log_all.
  induction es as [|[lvl m] es IH]; intros l; cbn [fold_left].
  - rewrite app_nil_r. reflexivity.
  - unfold ui_log. rewrite last_n_app, IH, <- app_assoc. reflexivity.
Qed.

(** X20.  The log never holds more than 400 entries, and it holds the
    last 400 (or all) of what it held and of the messages logged since,
    in their order, the newest last. *)
Theorem ui_log_keeps_last_400 (logs : option (list (str * str))) (msg level : str)
        (es : list (str * str)) :
  let old := match logs with Some l => l | None => [] end in
  ui_log_all logs ((level, msg) :: es) = Some (last_n 400 (old ++ (level, msg) :: es)) /\
  length (ui_log logs msg level) <= 400 /\
  last (ui_log logs msg level) (level, msg) = (level, msg) /\
  (length old < 400 -> ui_log logs msg level = old ++ [(level, msg)]).
Proof.
  cbv zeta. split; [|split; [|split]].
  - pose proof (ui_log_all_trimmed es
                  (match logs with Some l => l | None => [] end ++ [(level, msg)])) as T.
    unfold ui_log_all, ui_log in *. cbn [fold_left].
    rewrite T, <- app_assoc. reflexivity.
  - unfold ui_log. rewrite last_n_length. lia.
  - unfold ui_log, last_n. rewrite length_app. cbn [length].
    set (old := match logs with Some l => l | None => [] end).
    destruct (Nat.le_gt_cases (length old + 1 - 400) (length old)) as [H|H]; [|lia].
    rewrite skipn_app.
    replace (length old + 1 - 400 - length old) with 0 by lia. cbn [skipn].
    apply last_last.
  - intros H. unfold ui_log, last_n. rewrite length_app. cbn [length].
    replace (_ + 1 - 400) with 0 by lia. reflexivity.
Qed.

(** ** The columns of the table *)

Lemma index_of_split (x : str) (cols : list str) :
  known x cols = true ->
  exists pre post,
    cols = pre ++ x :: post /\ ~ In x pre /\
    index_of x cols = Some (length pre).
Proof.
  induction cols as [|c cols IH]; [discriminate|].
  unfold known. cbn [existsb index_of]. intros H.
  destruct (str_eqb c x) eqn:E.
  - apply str_eqb_eq in E. subst c. exists [], cols. repeat split. intros [].
  - assert (K : known x cols = true).
    { apply orb_true_iff in H as [H|H]; [|exact H].
      apply str_eqb_eq in H. subst c. rewrite str_eqb_refl in E. discriminate. }
    destruct (IH K) as (pre & post & -> & Hn & Hi).
    exists (c :: pre), post. split; [reflexivity|]. split.
    + intros [->|Hin]; [rewrite str_eqb_refl in E; discriminate | exact (Hn Hin)].
    + rewrite Hi. reflexivity.
Qed.

(** X21.  The reordering of the columns in [show_results] never raises.
    Without a column [s_no] the columns stay as they are; with one, its
    first occurrence moves to the front and the other columns keep
    their order.  On the columns of [Place], where [s_no] already comes
    first, it changes nothing. *)
Theorem reorder_columns_front (cols : list str) :
  (known (lit "s_no") cols = false -> reorder_columns cols = Ok cols) /\
  (known (lit "s_no") cols = true ->
   exists pre post,
     cols = pre ++ lit "s_no" :: post /\ ~ In (lit "s_no") pre /\
     reorder_columns cols = Ok (lit "s_no" :: pre ++ post)) /\
  reorder_columns place_columns = Ok place_columns.
Proof.
  split; [|split].
  - intros H. unfold reorder_columns. rewrite H. reflexivity.
  - intros H. unfold reorder_columns. rewrite H.
    destruct (index_of_split _ _ H) as (pre & post & -> & Hn & ->).
    exists pre, post. split; [reflexivity|]. split; [exact Hn|].
    rewrite app_nth2, Nat.sub_diag by lia. cbn [nth].
    rewrite firstn_app, Nat.sub_diag, firstn_all, firstn_O, app_nil_r.
    rewrite skipn_app, skipn_all2 by lia.
    replace (S (length pre) - length pre) with 1 by lia. reflexivity.
  - reflexivity.
Qed.

(** ** When the run raises *)

Lemma collect_cards_raises (max_listings : nat) (cards : CardsProbe) (todo : list nat) :
  forall listing_urls added,
    collect_cards max_listings cards todo listing_urls added = Raise ->
    exists i, card_href cards i = Raise.
Proof.
  induction todo as [|i todo IH]; intros listing_urls added; cbn [collect_cards];
    [discriminate|].
  destruct (card_href cards i) as [[h|]|] eqn:E; cbn [res_bind]; [| apply IH | eauto].
  destruct (truthy h && negb (known h listing_urls)); [|apply IH].
  destruct (cap_reached max_listings (listing_urls ++ [h])); [discriminate | apply IH].
Qed.

Lemma discover_raises (w : World) (max_listings : nat) :
  forall fuel j listing_urls c s,
    discover fuel w max_listings j listing_urls c s = Some Raise -> scan_raises w.
Proof.
  induction fuel as [|fuel IH]; intros j listing_urls c s; [discriminate|].
  rewrite discover_S. destruct (should_stop w s) as [f s']. destruct f; [discriminate|].
  destruct (discovery_round w max_listings j listing_urls c) as [[urls n|urls]|] eqn:E;
    [apply IH | discriminate | intros _].
  unfold discovery_round, scan_cards in E. exists j.
  destruct (cards_count (scan w j)) as [n|]; cbn [res_bind] in E; [|left; reflexivity].
  destruct (collect_cards max_listings (scan w j) (seq 0 n) listing_urls 0)
    as [[urls added]|] eqn:C; cbn [res_bind] in E.
  - destruct (cap_reached max_listings urls); [discriminate|].
    destruct (max_listings =? 0); discriminate.
  - right. exact (collect_cards_raises _ _ _ _ _ C).
Qed.

Lemma scraped_raises (lower : str -> str) (w : World) (user_input : str)
      (idx : nat) (link : str) :
  scraped lower w user_input idx link = Raise <-> visit w idx link = Raise.
Proof.
  unfold scraped. destruct (visit w idx link) as [v|]; cbn [res_bind].
  - rewrite extract_place_eq. split; discriminate.
  - split; reflexivity.
Qed.

Lemma scrape_listings_raises_visit (lower : str -> str) (w : World) (user_input : str)
      (max_listings : nat) :
  forall links idx places s,
    scrape_listings lower w user_input max_listings idx links places s = Raise ->
    exists i link, visit w i link = Raise.
Proof.
  induction links as [|link links IH]; intros idx places s; [discriminate|].
  rewrite scrape_listings_cons.
  destruct ((0 <? max_listings) && (max_listings <? idx)); [discriminate|].
  destruct (scraped lower w user_input idx link) as [p|] eqn:E; cbn [res_bind].
  - destruct (should_stop w s) as [f s1]. destruct f; [discriminate|].
    destruct (should_stop w s1) as [f s2]. destruct f; [discriminate|].
    apply IH.
  - intros _. exists idx, link. apply scraped_raises in E. exact E.
Qed.

Lemma search_title_raises (query_q : str -> res (option str)) (unquote : str -> str)
      (user_input : str) :
  output_filename query_q unquote user_input = Raise <->
  startswith user_input (lit "http") = true /\ query_q user_input = Raise.
Proof.
  unfold output_filename, search_title.
  destruct (startswith user_input (lit "http")); cbn [res_bind].
  - destruct (query_q user_input) as [[q|]|]; cbn [res_bind].
    + split; [discriminate | intros [_ X]; discriminate X].
    + destruct (re_search search_path user_input); cbn [res_bind];
        (split; [discriminate | intros [_ X]; discriminate X]).
    + split; auto.
  - split; [discriminate | intros [X _]; discriminate X].
Qed.

(** X22.  The run raises only when [urllib.parse] raises on an input
    that begins with [http], or when the browser raises on starting, on
    opening the results, at a scan of the cards, on opening the page of
    a listing or on closing: every other exception of the browser or of
    the web is caught on the way.  An input on which [urllib.parse]
    raises makes the run raise before the browser is started. *)
Theorem run_raises_only_on (lower : str -> str) (query_q : str -> res (option str))
        (unquote : str -> str) (fuel : nat) (w : World) (user_input : str)
        (max_listings : nat) (s : Session) :
  (scrape_places_streamlit lower query_q unquote fuel w user_input max_listings s
   = Some Raise ->
   (startswith user_input (lit "http") = true /\ query_q user_input = Raise) \/
   start_browser w = Raise \/ open_results w = Raise \/ scan_raises w \/
   (exists i link, visit w i link = Raise) \/ close_browser w = Raise) /\
  (startswith user_input (lit "http") = true -> query_q user_input = Raise ->
   scrape_places_streamlit lower query_q unquote fuel w user_input max_listings s
   = Some Raise).
Proof.
  split.
  - unfold scrape_places_streamlit.
    destruct (output_filename query_q unquote user_input) as [name|] eqn:N;
      [|intros _; left; exact (proj1 (search_title_raises _ _ _) N)].
    destruct (start_browser w); [|intros _; right; left; reflexivity].
    destruct (open_results w); [|intros _; right; right; left; reflexivity].
    destruct (discover fuel w max_listings 0 [] 0 s) as [[[links s1]|]|] eqn:D;
      [| intros _; do 3 right; left; exact (discover_raises _ _ _ _ _ _ _ D)
       | discriminate].
    destruct (scrape_listings _ _ _ _ _ _ _ _) as [[result s2]|] eqn:E.
    + destruct (close_browser w); [discriminate|]. intros _. do 5 right. reflexivity.
    + intros _. do 4 right. left. exact (scrape_listings_raises_visit _ _ _ _ _ _ _ _ E).
  - intros H1 H2. unfold scrape_places_streamlit.
    rewrite (proj2 (search_title_raises query_q unquote user_input) (conj H1 H2)).
    reflexivity.
Qed.

Lemma scrape_listings_raises (lower : str -> str) (w : World) (user_input : str)
      (max_listings : nat) :
  forall n links idx places s,
    stop s = false ->
    (forall t, looks s <= t < looks s + 2 * n -> pressed w t = false) ->
    n < length links ->
    max_listings = 0 \/ idx + n <= max_listings ->
    (forall i, i < n -> visit w (idx + i) (nth i links []) <> Raise) ->
    visit w (idx + n) (nth n links []) = Raise ->
    scrape_listings lower w user_input max_listings idx links places s = Raise.
Proof.
  induction n as [|n IH]; intros links idx places s Hs Hq Hlen Hcap Hok Hbad;
    (destruct links as [|link links]; [simpl in Hlen; lia|]);
    rewrite scrape_listings_cons, below_cap by (destruct Hcap; [left | right]; lia).
  - rewrite Nat.add_0_r in Hbad. cbn [nth] in Hbad.
    rewrite (proj2 (scraped_raises lower w user_input idx link) Hbad). reflexivity.
  - destruct (scraped lower w user_input idx link) as [p|] eqn:E.
    + cbn [res_bind]. unfold should_stop. rewrite Hs. cbn [orb stop looks].
      rewrite (Hq (looks s)) by lia. cbn [orb stop looks].
      rewrite (Hq (S (looks s))) by lia.
      apply IH.
      * reflexivity.
      * intros t Ht. cbn [looks] in Ht. apply Hq. lia.
      * simpl in Hlen. lia.
      * destruct Hcap; [left | right]; lia.
      * intros i Hi. specialize (Hok (S i)). cbn [nth] in Hok.
        replace (S idx + i) with (idx + S i) by lia. apply Hok. lia.
      * cbn [nth] in Hbad. replace (S idx + n) with (idx + S n) by lia. exact Hbad.
    + reflexivity.
Qed.

(** X23.  The page of a listing that does not open makes the whole run
    raise: when Stop is not pressed before listing [n + 1] is reached and
    the browser raises on opening it, the run raises, and the records of
    the [n] listings read before it are not returned. *)
Theorem listing_failure_raises (lower : str -> str) (query_q : str -> res (option str))
        (unquote : str -> str) (fuel : nat) (w : World) (user_input : str)
        (max_listings : nat) (s s1 : Session) (links : list str) (n : nat) :
  open_results w = Ok tt ->
  discover fuel w max_listings 0 [] 0 s = Some (Ok (links, s1)) ->
  (forall t, S (looks s1) <= t < S (looks s1) + 2 * n -> pressed w t = false) ->
  n < length links ->
  (forall i, i < n -> visit w (S i) (nth i links []) <> Raise) ->
  visit w (S n) (nth n links []) = Raise ->
  scrape_places_streamlit lower query_q unquote fuel w user_input max_listings s
  = Some Raise.
Proof.
  intros Ho Hd Hq Hlen Hok Hbad.
  destruct (clear_stop_down w s1) as [C1 C2].
  pose proof (discover_within w max_listings _ _ _ _ _ _ _
                              (room_start max_listings) Hd) as W.
  unfold scrape_places_streamlit.
  destruct (output_filename query_q unquote user_input); [|reflexivity].
  destruct (start_browser w); [|reflexivity].
  rewrite Ho, Hd.
  rewrite (scrape_listings_raises lower w user_input max_listings n); auto.
  - rewrite C2. exact Hq.
  - destruct W as [W|W]; [left; exact W | right; lia].
Qed.

Lemma listing_failure_raises_witness :
  scrape_places_streamlit ascii_lower (fun _ => Ok None) (fun u => u) 10
    (broken_world 2 feed_two) (lit "cafes") 2 fresh_session
  = Some Raise.
Proof.
  apply (listing_failure_raises ascii_lower (fun _ => Ok None) (fun u => u) 10
           (broken_world 2 feed_two) (lit "cafes") 2 fresh_session
           {| stop := false; looks := 1 |} [url_a; url_b] 1).
  - reflexivity.
  - vm_compute. reflexivity.
  - intros t Ht. reflexivity.
  - simpl. lia.
  - intros i Hi. destruct i; [discriminate | lia].
  - reflexivity.
Defined.

(** ** The final pass, once more *)

Lemma place_ext (p q : Place) :
  s_no p = s_no q -> numbers_of p = numbers_of q ->
  (forall f, get_str f p = get_str f q) -> p = q.
Proof.
  destruct p, q. unfold numbers_of. cbn [s_no reviews_count reviews_average latitude longitude].
  intros -> N H. injection N as -> -> -> ->.
  pose proof (H F_name). pose proof (H F_address). pose proof (H F_website).
  pose proof (H F_phone_number). pose proof (H F_category). pose proof (H F_city).
  pose proof (H F_zip_code). pose proof (H F_country). pose proof (H F_monday_hours).
  pose proof (H F_tuesday_hours). pose proof (H F_wednesday_hours).
  pose proof (H F_thursday_hours). pose proof (H F_friday_hours).
  pose proof (H F_saturday_hours). pose proof (H F_sunday_hours).
  pose proof (H F_instagram_url). pose proof (H F_facebook_url).
  pose proof (H F_linkedin_url). pose proof (H F_x_url). pose proof (H F_listing_url).
  pose proof (H F_source). cbn [get_str name address website phone_number category city
    zip_code country monday_hours tuesday_hours wednesday_hours thursday_hours
    friday_hours saturday_hours sunday_hours instagram_url facebook_url linkedin_url
    x_url listing_url source] in *.
  clear H. subst. reflexivity.
Qed.

Lemma normalize_field_numbers (f : StrField) (p : Place) :
  s_no (normalize_field f p) = s_no p /\
  numbers_of (normalize_field f p) = numbers_of p.
Proof. unfold normalize_field. destruct (str_eqb _ _); split; reflexivity. Qed.

Lemma normalize_same (p : Place) :
  (forall f, blank_to_dash (get_str f p) = get_str f p) -> exec normalize p = p.
Proof.
  intros H. apply place_ext.
  - apply (normalize_keeps s_no). intros f q. apply normalize_field_numbers.
  - apply (normalize_keeps numbers_of). intros f q. apply normalize_field_numbers.
  - intros f. rewrite normalize_get. apply H.
Qed.

(** X24.  The final pass of [extract_place] changes blank string
    attributes only, and a second pass changes nothing: it leaves
    unchanged every record without a blank attribute, the records that
    [extract_place] returns among them. *)
Theorem normalize_idempotent (p : Place) :
  exec normalize (exec normalize p) = exec normalize p /\
  (normalized p -> exec normalize p = p) /\
  s_no (exec normalize p) = s_no p /\
  numbers_of (exec normalize p) = numbers_of p /\
  (forall f, strip (get_str f p) <> [] -> get_str f (exec normalize p) = get_str f p) /\
  (forall (lower : str -> str) (v : ListingView) (http : Http) (user_input : str)
          (index : nat) (link : str) (r : Place),
      extract_place lower v http user_input index link = Ok r ->
      exec normalize r = r).
Proof.
  assert (B : forall s, strip s <> [] -> blank_to_dash s = s).
  { intros s Hs. unfold blank_to_dash. destruct (str_eqb (strip s) []) eqn:E; [|reflexivity].
    apply str_eqb_eq in E. contradiction. }
  split; [|split; [|split; [|split; [|split]]]].
  - apply normalize_same. intros f. rewrite normalize_get. apply blank_to_dash_idem.
  - intros N. apply normalize_same. intros f. apply B, N.
  - apply (normalize_keeps s_no). intros f q. apply normalize_field_numbers.
  - apply (normalize_keeps numbers_of). intros f q. apply normalize_field_numbers.
  - intros f Hf. rewrite normalize_get. apply B, Hf.
  - intros lower v http user_input index link r E.
    rewrite extract_place_eq in E. injection E as <-.
    apply normalize_same. intros f. rewrite normalize_get. apply blank_to_dash_idem.
Qed.

(** ** Stop before the first scan, and Start *)

Lemma run_sources (lower : str -> str) (query_q : str -> res (option str))
      (unquote : str -> str) (fuel : nat) (w : World) (user_input : str)
      (max_listings : nat) (s s' : Session) (places : list Place) (name : str) :
  scrape_places_streamlit lower query_q unquote fuel w user_input max_listings s
  = Some (Ok (places, name, s')) ->
  output_filename query_q unquote user_input = Ok name /\
  forall p, In p places -> source p = blank_to_dash user_input.
Proof.
  intros X. apply run_returns in X as (Hn & _ & _ & _ & links & s1 & D & E).
  split; [exact Hn|].
  apply scrape_listings_prefix in E as (k & ps & Hk & Hall & -> & Hc).
  cbn [app]. exact (proj2 (proj2 (scraped_all_labels _ _ _ _ _ _ Hall))).
Qed.

(** X25.  The name of the file is computed and the browser starts,
    opens the page of the results and closes at the end.  When Stop is
    then seen at the first look of discovery, before any scan, no
    reference is collected and the run returns no record, with the file
    name of the query. *)
Theorem stop_before_first_scan (lower : str -> str) (query_q : str -> res (option str))
        (unquote : str -> str) (fuel : nat) (w : World) (user_input : str)
        (max_listings : nat) (s : Session) (name : str) :
  output_filename query_q unquote user_input = Ok name ->
  start_browser w = Ok tt ->
  open_results w = Ok tt ->
  close_browser w = Ok tt ->
  stop s = true \/ pressed w (looks s) = true ->
  exists s',
    scrape_places_streamlit lower query_q unquote (S fuel) w user_input max_listings s
    = Some (Ok ([], name, s')) /\
    stop s' = false.
Proof.
  intros Hn Hb Ho Hc Hs.
  assert (D : discover (S fuel) w max_listings 0 [] 0 s
              = Some (Ok ([], {| stop := true; looks := S (looks s) |}))).
  { rewrite discover_S. unfold should_stop.
    replace (stop s || pressed w (looks s)) with true; [reflexivity|].
    symmetry. apply orb_true_iff. exact Hs. }
  rewrite (scrape_places_streamlit_eq _ _ _ _ _ _ _ _ _ _ _ Hn Hb Ho D).
  cbn [scrape_listings]. rewrite Hc. eexists. split; [reflexivity|].
  apply clear_stop_down.
Qed.

Lemma stop_before_first_scan_witness :
  exists s',
    scrape_places_streamlit ascii_lower (fun _ => Ok None) (fun u => u) 1
      (plain_world (press_at 0) feed_two) (lit "cafes") 2 fresh_session
    = Some (Ok ([], lit "cafes.csv", s')) /\
    stop s' = false.
Proof.
  apply (stop_before_first_scan ascii_lower (fun _ => Ok None) (fun u => u) 0
           (plain_world (press_at 0) feed_two) (lit "cafes") 2 fresh_session).
  - reflexivity.
  - reflexivity.
  - reflexivity.
  - reflexivity.
  - right. reflexivity.
Defined.

(** X26.  A press of Start with a blank input only warns: nothing is
    opened.  Otherwise the run gets the input without the space around
    it, so that every record that it returns carries that trimmed text as
    its source, never ["-"], and the file is named after it; and a stop
    flag left up by an earlier run does not stop the new one. *)
Theorem start_trims_query (lower : str -> str) (query_q : str -> res (option str))
        (unquote : str -> str) (fuel : nat) (w : World) (user_input : str)
        (max_listings : nat) (s : Session) :
  (strip user_input = [] ->
   on_start lower query_q unquote fuel w user_input max_listings s = Warned) /\
  (strip user_input <> [] ->
   on_start lower query_q unquote fuel w user_input max_listings s
   = Ran (scrape_places_streamlit lower query_q unquote fuel w (strip user_input)
            max_listings {| stop := false; looks := looks s |})) /\
  (forall places name s',
      on_start lower query_q unquote fuel w user_input max_listings s
      = Ran (Some (Ok (places, name, s'))) ->
      strip user_input <> [] /\
      output_filename query_q unquote (strip user_input) = Ok name /\
      forall p, In p places -> source p = strip user_input).
Proof.
  unfold on_start. split; [|split].
  - intros ->. reflexivity.
  - intros H. apply truthy_nonempty in H. rewrite H. reflexivity.
  - intros places name s'. destruct (truthy (strip user_input)) eqn:T; [|discriminate].
    cbn [negb]. intros E. injection E as E.
    apply truthy_nonempty in T. split; [exact T|].
    apply run_sources in E as [E1 E2]. split; [exact E1|].
    intros p Hp. rewrite (E2 p Hp). unfold blank_to_dash. rewrite strip_idem.
    destruct (str_eqb (strip user_input) []) eqn:B; [|reflexivity].
    apply str_eqb_eq in B. contradiction.
Qed.
